(** * Responsive scaling engine of the race display (responsiveScaling.js)

    Shallow embedding of the layout-fitting core: the dimension solver
    [getOptimalDimensions], the scale-property generator
    [generateScaleProperties] with [pixelsToViewport] and
    [responsiveFontSize], the text fitter [intelligentTextFit] and the
    debounced observer [createResponsiveObserver].

    Numbers.  JavaScript numbers are IEEE 754 binary64 values.  The
    dimension solver is given with that arithmetic written out
    ([Binary64.getOptimalDimensions]): every quotient, product and
    difference is rounded to the nearest double, a division by zero gives
    an infinity or [NaN], and a comparison with [NaN] is false.  What is
    stated about the numbers the solver returns is stated about that
    definition.  The same function over exact rationals
    ([getOptimalDimensions]) is what [applyResponsiveScaling] and the
    observer are built on; the statements about it concern which branch is
    taken, what is stored where and when, and not the last bit of a
    number.  The quotient in [pixelsToViewport] and the percentages of the
    status report are rounded as the code rounds them.  The text fitter
    multiplies and compares over [Q]: its sizes are the exact products of
    the factors the loop applies. *)

From Stdlib Require Import QArith Qminmax Qround Qpower Qabs Qreduction.
From Stdlib Require Import Lqa Lia.
From Stdlib Require Import List Ascii String Bool Arith DecimalString.
Import ListNotations.

Local Open Scope Q_scope.

(** ** JavaScript comparison operators on numbers, as booleans *)

Definition Qleb (x y : Q) : bool := Qle_bool x y.          (* x <= y *)
Definition Qgeb (x y : Q) : bool := Qle_bool y x.          (* x >= y *)
Definition Qgtb (x y : Q) : bool := negb (Qle_bool x y).   (* x >  y *)
Definition Qltb (x y : Q) : bool := negb (Qle_bool y x).   (* x <  y *)

(** ** IEEE 754 binary64

    A JavaScript number is [NaN], an infinity, or a finite double: a whole
    multiple of a power of two with at most 53 significant bits.  A finite
    double is kept as the rational number it denotes, and an operation
    rounds its exact result to the nearest double, the one with an even
    significand on a tie ([fl]), or to an infinity beyond the largest
    double ([round]).  The two zeros are not distinguished: a zero is +0. *)

Inductive Num :=
| NaN
| Infinity (negative : bool)
| Finite (q : Q).

Definition pow2 (e : Z) : Q := 2 ^ e.

(** The binary exponent of a positive rational: [2^e <= x < 2^(e+1)]. *)
Definition ilog2 (x : Q) : Z :=
  let y := Qred x in
  let a := (Z.log2 (Qnum y) - Z.log2 (Zpos (Qden y)))%Z in
  if Qle_bool (pow2 a) y then a else (a - 1)%Z.

(** The nearest integer, the even one on a tie. *)
Definition rne (x : Q) : Z :=
  let n := Qfloor x in
  match Qcompare (x - inject_Z n) (1 # 2) with
  | Lt => n
  | Gt => (n + 1)%Z
  | Eq => if Z.even n then n else (n + 1)%Z
  end.

(** The exponent of the smallest normal double, 2^-1022. *)
Definition emin : Z := (-1022)%Z.

(** The exponent of the binade of [x], and the spacing of the doubles in
    it: 53 significant bits, and the fixed spacing 2^-1074 below 2^-1022. *)
Definition expo (x : Q) : Z := Z.max (ilog2 (Qabs x)) emin.

Definition ulp (x : Q) : Q := pow2 (expo x - 52).

(** The multiple of the spacing nearest to [x], ties to even. *)
Definition fl (x : Q) : Q := inject_Z (rne (x / ulp x)) * ulp x.

(** The result of an operation whose exact value is [x]. *)
Definition round (x : Q) : Num :=
  let y := fl x in
  if Qle_bool (pow2 1024) (Qabs y) then Infinity (Qltb x 0) else Finite y.

(** [x] is the value of a finite double. *)
Definition isDouble (x : Q) : bool :=
  Qeq_bool (fl x) x && Qltb (Qabs x) (pow2 1024).

Definition negativeQ (q : Q) : bool := Qltb q 0.

(** [x / y] *)
Definition fdiv (x y : Num) : Num :=
  match x, y with
  | NaN, _ | _, NaN => NaN
  | Infinity _, Infinity _ => NaN
  | Infinity s, Finite b => Infinity (xorb s (negativeQ b))
  | Finite _, Infinity _ => Finite 0
  | Finite a, Finite b =>
      if Qeq_bool b 0
      then if Qeq_bool a 0 then NaN else Infinity (negativeQ a)
      else round (a / b)
  end.

(** [x * y] *)
Definition fmul (x y : Num) : Num :=
  match x, y with
  | NaN, _ | _, NaN => NaN
  | Infinity s, Infinity t => Infinity (xorb s t)
  | Infinity s, Finite b =>
      if Qeq_bool b 0 then NaN else Infinity (xorb s (negativeQ b))
  | Finite a, Infinity t =>
      if Qeq_bool a 0 then NaN else Infinity (xorb (negativeQ a) t)
  | Finite a, Finite b => round (a * b)
  end.

(** [x - y] *)
Definition fsub (x y : Num) : Num :=
  match x, y with
  | NaN, _ | _, NaN => NaN
  | Infinity s, Infinity t => if Bool.eqb s t then NaN else Infinity s
  | Infinity s, Finite _ => Infinity s
  | Finite _, Infinity t => Infinity (negb t)
  | Finite a, Finite b => round (a - b)
  end.

(** [x <= y]; false when either side is [NaN]. *)
Definition fle (x y : Num) : bool :=
  match x, y with
  | NaN, _ | _, NaN => false
  | Infinity s, Infinity t => s || negb t
  | Infinity s, Finite _ => s
  | Finite _, Infinity t => negb t
  | Finite a, Finite b => Qleb a b
  end.

(** [x >= y] *)
Definition fge (x y : Num) : bool := fle y x.

(** [x > y] *)
Definition fgt (x y : Num) : bool :=
  match x, y with
  | NaN, _ | _, NaN => false
  | _, _ => negb (fle x y)
  end.

(** [x === y] *)
Definition feq (x y : Num) : bool :=
  match x, y with
  | Infinity s, Infinity t => Bool.eqb s t
  | Finite a, Finite b => Qeq_bool a b
  | _, _ => false
  end.

(** [Math.min(x, y)] *)
Definition fmin (x y : Num) : Num :=
  match x, y with
  | NaN, _ | _, NaN => NaN
  | _, _ => if fle x y then x else y
  end.

(** ** Module constants *)

Record BaseDimensions := {
  base_width : Q;
  base_height : Q;
  base_aspectRatio : Q
}.

(** Templates are designed for 16:9 landscape. *)
Definition BASE_DIMENSIONS : BaseDimensions :=
  {| base_width := 1920; base_height := 1080; base_aspectRatio := 16 / 9 |}.

(** ** The dimension solver *)

Inductive Orientation := landscape | portrait.

Record Dimensions := {
  dim_width : Q;
  dim_height : Q;
  dim_scale : Q;
  dim_orientation : Orientation;
  dim_offsetX : Q;
  dim_offsetY : Q
}.

(** The [forceOrientation] argument is [null] (the default) or a string.
    [strictEq v s] is [v === s]; [falsy v] is [!v], true for [null] and for
    the empty string. *)
Definition strictEq (v : option string) (s : string) : bool :=
  match v with
  | Some t => String.eqb t s
  | None => false
  end.

Definition falsy (v : option string) : bool :=
  match v with
  | Some t => String.eqb t EmptyString
  | None => true
  end.

Definition getOptimalDimensions
    (viewportWidth viewportHeight : Q) (forceOrientation : option string)
    : Dimensions :=
  let currentAspectRatio := viewportWidth / viewportHeight in
  let isLandscape := Qgtb currentAspectRatio 1 in
  let '(targetWidth, targetHeight, orientation) :=
    if strictEq forceOrientation "landscape"
       || (falsy forceOrientation && isLandscape)
    then
      (* Landscape mode *)
      if Qgeb currentAspectRatio (base_aspectRatio BASE_DIMENSIONS)
      then (* wider than 16:9 - fit to height *)
        (viewportHeight * base_aspectRatio BASE_DIMENSIONS,
         viewportHeight, landscape)
      else (* narrower than 16:9 - fit to width *)
        (viewportWidth,
         viewportWidth / base_aspectRatio BASE_DIMENSIONS, landscape)
    else
      (* Portrait mode - rotate base dimensions *)
      let portraitAspectRatio :=
        base_height BASE_DIMENSIONS / base_width BASE_DIMENSIONS in
      if Qgeb currentAspectRatio portraitAspectRatio
      then (viewportHeight * portraitAspectRatio, viewportHeight, portrait)
      else (viewportWidth, viewportWidth / portraitAspectRatio, portrait)
  in
  let scale := Qmin (targetWidth / base_width BASE_DIMENSIONS)
                    (targetHeight / base_height BASE_DIMENSIONS) in
  {| dim_width := targetWidth;
     dim_height := targetHeight;
     dim_scale := scale;
     dim_orientation := orientation;
     dim_offsetX := (viewportWidth - targetWidth) / 2;
     dim_offsetY := (viewportHeight - targetHeight) / 2 |}.

(** The orientation the solver resolves, and the aspect ratio it fits to. *)
Definition resolvesLandscape (w h : Q) (force : option string) : bool :=
  strictEq force "landscape" || (falsy force && Qgtb (w / h) 1).

Definition targetAspectRatio (o : Orientation) : Q :=
  match o with
  | landscape => base_aspectRatio BASE_DIMENSIONS
  | portrait => base_height BASE_DIMENSIONS / base_width BASE_DIMENSIONS
  end.

(** The solver with the arithmetic of the code.  A numeric literal is the
    double nearest to it; 16/9 is computed once, when the module is
    loaded. *)
Module Binary64.

Record BaseDimensions := {
  base_width : Num;
  base_height : Num;
  base_aspectRatio : Num
}.

Definition BASE_DIMENSIONS : BaseDimensions :=
  {| base_width := Finite 1920; base_height := Finite 1080;
     base_aspectRatio := fdiv (Finite 16) (Finite 9) |}.

Record Dimensions := {
  dim_width : Num;
  dim_height : Num;
  dim_scale : Num;
  dim_orientation : Orientation;
  dim_offsetX : Num;
  dim_offsetY : Num
}.

Definition getOptimalDimensions
    (viewportWidth viewportHeight : Num) (forceOrientation : option string)
    : Dimensions :=
  let currentAspectRatio := fdiv viewportWidth viewportHeight in
  let isLandscape := fgt currentAspectRatio (Finite 1) in
  let '(targetWidth, targetHeight, orientation) :=
    if strictEq forceOrientation "landscape"
       || (falsy forceOrientation && isLandscape)
    then
      (* Landscape mode *)
      if fge currentAspectRatio (base_aspectRatio BASE_DIMENSIONS)
      then (* wider than 16:9 - fit to height *)
        (fmul viewportHeight (base_aspectRatio BASE_DIMENSIONS),
         viewportHeight, landscape)
      else (* narrower than 16:9 - fit to width *)
        (viewportWidth,
         fdiv viewportWidth (base_aspectRatio BASE_DIMENSIONS), landscape)
    else
      (* Portrait mode - rotate base dimensions *)
      let portraitAspectRatio :=
        fdiv (base_height BASE_DIMENSIONS) (base_width BASE_DIMENSIONS) in
      if fge currentAspectRatio portraitAspectRatio
      then (fmul viewportHeight portraitAspectRatio, viewportHeight, portrait)
      else (viewportWidth, fdiv viewportWidth portraitAspectRatio, portrait)
  in
  let scale := fmin (fdiv targetWidth (base_width BASE_DIMENSIONS))
                    (fdiv targetHeight (base_height BASE_DIMENSIONS)) in
  {| dim_width := targetWidth;
     dim_height := targetHeight;
     dim_scale := scale;
     dim_orientation := orientation;
     dim_offsetX := fdiv (fsub viewportWidth targetWidth) (Finite 2);
     dim_offsetY := fdiv (fsub viewportHeight targetHeight) (Finite 2) |}.

(** The aspect ratio the solver compares with and fits to. *)
Definition targetAspectRatio (o : Orientation) : Num :=
  match o with
  | landscape => base_aspectRatio BASE_DIMENSIONS
  | portrait => fdiv (base_height BASE_DIMENSIONS) (base_width BASE_DIMENSIONS)
  end.

End Binary64.

(** ** Scale properties *)

Record TypographyStep := { ts_vw : Q; ts_min : Q; ts_max : Q }.

(** Typography scale using viewport units. *)
Definition TYPOGRAPHY_SCALE : list (string * TypographyStep) :=
  [ ("xs",  {| ts_vw := 1.5; ts_min := 12; ts_max := 18 |});
    ("sm",  {| ts_vw := 2.0; ts_min := 14; ts_max := 24 |});
    ("md",  {| ts_vw := 3.0; ts_min := 18; ts_max := 36 |});
    ("lg",  {| ts_vw := 4.0; ts_min := 24; ts_max := 48 |});
    ("xl",  {| ts_vw := 5.0; ts_min := 32; ts_max := 64 |});
    ("xxl", {| ts_vw := 6.0; ts_min := 40; ts_max := 80 |}) ]%string.

(** A CSS [clamp(<min>px, <preferred><unit>, <max>px)] value, kept as the
    three interpolated numbers and the unit instead of the rendered text. *)
Record Clamp := {
  clamp_min : Q;
  clamp_preferred : Q;
  clamp_unit : string;
  clamp_max : Q
}.

(** [Number.prototype.toFixed(2)]: the nearest multiple of 1/100, the larger
    one in magnitude on a tie. *)
Definition toFixed2 (x : Q) : Q :=
  let r (y : Q) := inject_Z (Qfloor (y * 100 + 1 / 2)) / 100 in
  if Qltb x 0 then - r (- x) else r x.

(** [unit.includes('h')] *)
Fixpoint includes (c : Ascii.ascii) (s : string) : bool :=
  match s with
  | EmptyString => false
  | String a rest => Ascii.eqb a c || includes c rest
  end.

(** [baseViewport || fallback]: [null] and [0] are falsy. *)
Definition orElse (v : option Q) (fallback : Q) : Q :=
  match v with
  | Some q => if Qeq_bool q 0 then fallback else q
  | None => fallback
  end.

(** The quotient and the product by 100 are each rounded to a double;
    halving and doubling a double are exact. *)
Definition pixelsToViewport (pixels : Q) (unit : string)
    (baseViewport : option Q) : Clamp :=
  let base := orElse baseViewport
                (if includes "h"%char unit
                 then base_height BASE_DIMENSIONS
                 else base_width BASE_DIMENSIONS) in
  let vwValue := fl (fl (pixels / base) * 100) in
  (* Never smaller than 8px or 50% of original *)
  let minPx := Qmax (pixels * 0.5) 8 in
  (* Never larger than 200% of original *)
  let maxPx := pixels * 2 in
  {| clamp_min := minPx; clamp_preferred := toFixed2 vwValue;
     clamp_unit := unit; clamp_max := maxPx |}.

Fixpoint lookup {A} (k : string) (m : list (string * A)) : option A :=
  match m with
  | [] => None
  | (k', v) :: rest => if String.eqb k' k then Some v else lookup k rest
  end.

(** [TYPOGRAPHY_SCALE[scale] || TYPOGRAPHY_SCALE.md], for a [scale] that is
    a key of the table or the name of no property at all.  A name that
    every object inherits, such as 'constructor', is outside: the lookup
    finds the inherited value and the three numbers are [NaN]. *)
Definition responsiveFontSize (scale : string) (multiplier : Q) : Clamp :=
  let config :=
    match lookup scale TYPOGRAPHY_SCALE with
    | Some c => c
    | None => {| ts_vw := 3.0; ts_min := 18; ts_max := 36 |} (* .md *)
    end in
  {| clamp_min := ts_min config * multiplier;
     clamp_preferred := ts_vw config * multiplier;
     clamp_unit := "vw";
     clamp_max := ts_max config * multiplier |}.

(** Values of the generated custom properties. *)
Inductive PropValue :=
| PxValue (q : Q)                    (* `${q}px` *)
| NumValue (q : Q)
| OrientationValue (o : Orientation)
| ClampValue (c : Clamp).

(** [properties[k] = v] on a plain object: an existing key keeps its place,
    a new key is added last. *)
Fixpoint setProperty {A} (k : string) (v : A) (m : list (string * A))
    : list (string * A) :=
  match m with
  | [] => [(k, v)]
  | (k', v') :: rest =>
      if String.eqb k' k then (k', v) :: rest
      else (k', v') :: setProperty k v rest
  end.

Record ScaleOptions := {
  enableTextScaling : option bool;      (* default true *)
  textScaleMultiplier : option Q;       (* default 1 *)
  enableSpacingScale : option bool      (* default true *)
}.

Definition default {A} (v : option A) (d : A) : A :=
  match v with Some a => a | None => d end.

(** The decimal rendering of a loop counter inside a template literal. *)
Definition natToString (n : nat) : string :=
  NilZero.string_of_uint (Nat.to_uint n).

Definition generateScaleProperties (dimensions : Dimensions)
    (options : ScaleOptions) : list (string * PropValue) :=
  let enableTextScaling := default (enableTextScaling options) true in
  let textScaleMultiplier := default (textScaleMultiplier options) 1 in
  let enableSpacingScale := default (enableSpacingScale options) true in
  let properties :=
    [ ("--display-width", PxValue (dim_width dimensions));
      ("--display-height", PxValue (dim_height dimensions));
      ("--display-scale", NumValue (dim_scale dimensions));
      ("--display-offset-x", PxValue (dim_offsetX dimensions));
      ("--display-offset-y", PxValue (dim_offsetY dimensions));
      ("--display-orientation",
       OrientationValue (dim_orientation dimensions)) ]%string in
  (* Add typography custom properties *)
  let properties :=
    if enableTextScaling then
      fold_left
        (fun props scale =>
           setProperty ("--font-" ++ scale)%string
             (ClampValue (responsiveFontSize scale textScaleMultiplier)) props)
        (map fst TYPOGRAPHY_SCALE) properties
    else properties in
  (* Add spacing scale *)
  if enableSpacingScale then
    let spacingBase := 8 in
    fold_left
      (fun props i =>
         setProperty ("--spacing-" ++ natToString i)%string
           (ClampValue
              (pixelsToViewport (spacingBase * inject_Z (Z.of_nat i))
                 "vmin" None))
           props)
      (seq 1 10) properties
  else properties.

(** ** The text fitter

    The element is the DOM node being fitted.  Its computed font size and
    line height are what [getComputedStyle] reports; writing an inline style
    updates them.  [clientWidth], [clientHeight], [scrollWidth] and
    [scrollHeight] are supplied by the host's layout.

    Sizes are exact rationals here: the products of the loop by
    [1 - step] and the quotient reported as the reduction are not rounded
    to doubles. *)

Record Element := {
  fontSize : Q;                     (* parseFloat(computed font-size) *)
  lineHeight : option Q;            (* parseFloat(computed line-height);
                                       [None] is NaN, as for 'normal' *)
  whiteSpace : string;
  wordBreak : string;
  overflowWrap : string;
  clientWidth : Q;
  clientHeight : Q;
  textContent : string;
  dataset_originalFontSize : option Q;
  dataset_originalLineHeight : option Q
}.

(** The host rendering surface.  A layout read may depend on the element's
    current style and on how many reads came before it, so a host that
    answers inconsistently, or adversarially, is a host. *)
Record Host := {
  scrollWidth : nat -> Element -> Q;
  scrollHeight : nat -> Element -> Q
}.

Inductive Read :=
| ReadWidth (v : Q)
| ReadHeight (v : Q).

(** The element together with the layout reads made so far, latest first. *)
Record Dom := {
  dom_element : Element;
  dom_reads : list Read
}.

(** State monad over [Dom]. *)
Definition M (A : Type) : Type := Dom -> A * Dom.

Definition ret {A} (a : A) : M A := fun d => (a, d).

Definition bind {A B} (m : M A) (f : A -> M B) : M B :=
  fun d => let (a, d') := m d in f a d'.

Declare Scope fit_scope.
Delimit Scope fit_scope with fit.
Notation "x <- m ;; k" := (bind m (fun x => k))
  (at level 61, m at next level, right associativity) : fit_scope.
Notation "m ;;; k" := (bind m (fun _ => k))
  (at level 61, right associativity) : fit_scope.

Definition getElement : M Element := fun d => (dom_element d, d).

Definition update (f : Element -> Element) : M unit :=
  fun d => (tt, {| dom_element := f (dom_element d); dom_reads := dom_reads d |}).

Definition readScrollWidth (host : Host) : M Q :=
  fun d =>
    let v := scrollWidth host (List.length (dom_reads d)) (dom_element d) in
    (v, {| dom_element := dom_element d;
           dom_reads := ReadWidth v :: dom_reads d |}).

Definition readScrollHeight (host : Host) : M Q :=
  fun d =>
    let v := scrollHeight host (List.length (dom_reads d)) (dom_element d) in
    (v, {| dom_element := dom_element d;
           dom_reads := ReadHeight v :: dom_reads d |}).

Definition setFontSize (v : Q) (e : Element) : Element :=
  {| fontSize := v; lineHeight := lineHeight e;
     whiteSpace := whiteSpace e; wordBreak := wordBreak e;
     overflowWrap := overflowWrap e;
     clientWidth := clientWidth e; clientHeight := clientHeight e;
     textContent := textContent e;
     dataset_originalFontSize := dataset_originalFontSize e;
     dataset_originalLineHeight := dataset_originalLineHeight e |}.

Definition setLineHeight (v : Q) (e : Element) : Element :=
  {| fontSize := fontSize e; lineHeight := Some v;
     whiteSpace := whiteSpace e; wordBreak := wordBreak e;
     overflowWrap := overflowWrap e;
     clientWidth := clientWidth e; clientHeight := clientHeight e;
     textContent := textContent e;
     dataset_originalFontSize := dataset_originalFontSize e;
     dataset_originalLineHeight := dataset_originalLineHeight e |}.

Definition setWhiteSpace (v : string) (e : Element) : Element :=
  {| fontSize := fontSize e; lineHeight := lineHeight e;
     whiteSpace := v; wordBreak := wordBreak e;
     overflowWrap := overflowWrap e;
     clientWidth := clientWidth e; clientHeight := clientHeight e;
     textContent := textContent e;
     dataset_originalFontSize := dataset_originalFontSize e;
     dataset_originalLineHeight := dataset_originalLineHeight e |}.

(** [whiteSpace = 'normal'; wordBreak = 'break-word';
     overflowWrap = 'break-word'] *)
Definition enableWrapping (e : Element) : Element :=
  {| fontSize := fontSize e; lineHeight := lineHeight e;
     whiteSpace := "normal"; wordBreak := "break-word";
     overflowWrap := "break-word";
     clientWidth := clientWidth e; clientHeight := clientHeight e;
     textContent := textContent e;
     dataset_originalFontSize := dataset_originalFontSize e;
     dataset_originalLineHeight := dataset_originalLineHeight e |}.

Definition storeOriginals (fs lh : Q) (e : Element) : Element :=
  {| fontSize := fontSize e; lineHeight := lineHeight e;
     whiteSpace := whiteSpace e; wordBreak := wordBreak e;
     overflowWrap := overflowWrap e;
     clientWidth := clientWidth e; clientHeight := clientHeight e;
     textContent := textContent e;
     dataset_originalFontSize := Some fs;
     dataset_originalLineHeight := Some lh |}.

Record FitOptions := {
  maxReduction : option Q;        (* default 0.7 *)
  minFontSize : option Q;         (* default 12 *)
  preferWordWrap : option bool;   (* default true *)
  respectLineHeight : option bool;(* default true *)
  step : option Q                 (* default 0.02 *)
}.

Inductive Method := word_wrap | font_reduction | hybrid.

Record FitInfo := {
  fit_method : Method;
  fit_fontSize : Q;
  fit_reduction : Q;
  fit_fits : bool;
  fit_attempts : option nat       (* absent from the word-wrap result *)
}.

Definition maxAttempts : nat := 50.

Section ShrinkLoop.
Local Open Scope fit_scope.

Variable host : Host.
Variables containerWidth minAllowedSize step_ : Q.
Variable respectLineHeight_ : bool.
Variables originalFontSize originalLineHeight : Q.

(** The [while] loop.  [remaining] is [maxAttempts - attempts], so the
    test [attempts < maxAttempts] is [remaining <> 0]; the conjuncts are
    evaluated left to right and [scrollWidth] is read on every test. *)
Fixpoint shrinkLoop (remaining : nat) (currentFontSize : Q) (attempts : nat)
    : M (Q * nat) :=
  sw <- readScrollWidth host ;;
  if Qgtb sw containerWidth && Qgtb currentFontSize minAllowedSize then
    match remaining with
    | O => ret (currentFontSize, attempts)
    | S remaining' =>
        let currentFontSize := currentFontSize * (1 - step_) in
        update (setFontSize currentFontSize) ;;;
        (if respectLineHeight_ then
           let lineHeightRatio := originalLineHeight / originalFontSize in
           update (setLineHeight (currentFontSize * lineHeightRatio))
         else ret tt) ;;;
        shrinkLoop remaining' currentFontSize (S attempts)
    end
  else ret (currentFontSize, attempts).
End ShrinkLoop.

(** [a && b] on two layout reads: the second is made only if the first
    comparison holds. *)
Definition fitsBothAxes (host : Host) (containerWidth containerHeight : Q)
    : M bool :=
  (sw <- readScrollWidth host ;;
   if Qleb sw containerWidth then
     sh <- readScrollHeight host ;;
     ret (Qleb sh containerHeight)
   else ret false)%fit.

(** The first phase: try word wrapping if enabled.  The answer is whether
    wrapping solved the problem. *)
Definition tryWordWrap (host : Host) (preferWordWrap : bool)
    (originalText : string) (containerWidth containerHeight : Q) : M bool :=
  (if preferWordWrap && includes " "%char originalText then
     update enableWrapping ;;;
     fitsBothAxes host containerWidth containerHeight
   else ret false)%fit.

(** The second phase: font reduction, then wrapping as a fallback. *)
Definition reduceFont (host : Host)
    (maxReduction minFontSize step : Q) (preferWordWrap respectLineHeight : bool)
    (originalFontSize originalLineHeight containerWidth containerHeight : Q)
    : M FitInfo :=
  (update (setWhiteSpace "nowrap") ;;;
   let minAllowedSize := Qmax minFontSize (originalFontSize * maxReduction) in
   loop <- shrinkLoop host containerWidth minAllowedSize step
             respectLineHeight originalFontSize originalLineHeight
             maxAttempts originalFontSize 0 ;;
   let '(currentFontSize, attempts) := loop in
   let reduction := (originalFontSize - currentFontSize) / originalFontSize in
   sw <- readScrollWidth host ;;
   let fits := Qleb sw containerWidth in
   (* still does not fit: enable word wrapping as fallback *)
   (if negb fits && preferWordWrap then update enableWrapping
    else ret tt) ;;;
   finalFits <- fitsBothAxes host containerWidth containerHeight ;;
   ret {| fit_method := if fits then font_reduction else hybrid;
          fit_fontSize := currentFontSize;
          fit_reduction := reduction;
          fit_fits := finalFits;
          fit_attempts := Some attempts |})%fit.

(** The function on an element that is present. *)
Definition fitElement (host : Host) (options : FitOptions) : M FitInfo :=
  (let maxReduction := default (maxReduction options) 0.7 in
   let minFontSize := default (minFontSize options) 12 in
   let preferWordWrap := default (preferWordWrap options) true in
   let respectLineHeight := default (respectLineHeight options) true in
   let step := default (step options) 0.02 in
   element <- getElement ;;
   (* Get original computed styles *)
   let originalFontSize := fontSize element in
   let originalLineHeight :=
     orElse (lineHeight element) (originalFontSize * 1.2) in
   (* Store original values if not already stored *)
   (match dataset_originalFontSize element with
    | None => update (storeOriginals originalFontSize originalLineHeight)
    | Some _ => ret tt
    end) ;;;
   let containerWidth := clientWidth element in
   let containerHeight := clientHeight element in
   let originalText := textContent element in
   wrapped <- tryWordWrap host preferWordWrap originalText
                containerWidth containerHeight ;;
   if wrapped then
     ret {| fit_method := word_wrap; fit_fontSize := originalFontSize;
            fit_reduction := 0; fit_fits := true; fit_attempts := None |}
   else
     reduceFont host maxReduction minFontSize step preferWordWrap
       respectLineHeight originalFontSize originalLineHeight
       containerWidth containerHeight)%fit.

(** [intelligentTextFit(element, options)]: [None] for a [null] element is
    the [return null]; otherwise the result and the element as it is left. *)
Definition intelligentTextFit (host : Host) (element : option Dom)
    (options : FitOptions) : option (FitInfo * Dom) :=
  match element with
  | None => None
  | Some d => Some (fitElement host options d)
  end.

(** ** Applying the scaling to a container *)

Record Window := { innerWidth : Q; innerHeight : Q }.

(** [translate(${x}px, ${y}px) scale(${s})] *)
Record Transform := { translateX : Q; translateY : Q; scaleBy : Q }.

Record Container := {
  style_properties : list (string * PropValue);
  style_transform : option Transform;
  style_transformOrigin : option string;
  textElements : list Dom      (* what the selector query matches *)
}.

Record Options := {
  viewportWidth : option Q;           (* default window.innerWidth *)
  viewportHeight : option Q;          (* default window.innerHeight *)
  forceOrientation : option string;   (* default null *)
  enableSmartTextFit : option bool;   (* default true *)
  textFitOptions : option FitOptions; (* default {} *)
  scaleOptions : ScaleOptions;        (* the keys generateScaleProperties reads *)
  debounceMs : option nat             (* default 150 *)
}.

Record ScalingResult := {
  res_dimensions : Dimensions;
  res_properties : list (string * PropValue);
  res_transform : Transform
}.

Definition noFitOptions : FitOptions :=
  {| maxReduction := None; minFontSize := None; preferWordWrap := None;
     respectLineHeight := None; step := None |}.

(** The white space and line terminators that [trim] strips.  A string is
    UTF-8 text: six of them are single bytes (TAB, LF, VT, FF, CR, SP), one
    takes two bytes (U+00A0) and the others three (U+1680, U+2000 to
    U+200A, U+2028, U+2029, U+202F, U+205F, U+3000, U+FEFF). *)
Definition isSpace (c : ascii) : bool :=
  Ascii.eqb c " " || Ascii.eqb c "009" || Ascii.eqb c "010"
  || Ascii.eqb c "011" || Ascii.eqb c "012" || Ascii.eqb c "013".

Definition isSpace2 (c1 c2 : ascii) : bool :=
  Ascii.eqb c1 "194" && Ascii.eqb c2 "160".

Definition isSpace3 (c1 c2 c3 : ascii) : bool :=
  let n3 := nat_of_ascii c3 in
  (Ascii.eqb c1 "225" && Ascii.eqb c2 "154" && Ascii.eqb c3 "128")
  || (Ascii.eqb c1 "226" && Ascii.eqb c2 "128"
      && (((128 <=? n3) && (n3 <=? 138))%nat
          || Ascii.eqb c3 "168" || Ascii.eqb c3 "169" || Ascii.eqb c3 "175"))
  || (Ascii.eqb c1 "226" && Ascii.eqb c2 "129" && Ascii.eqb c3 "159")
  || (Ascii.eqb c1 "227" && Ascii.eqb c2 "128" && Ascii.eqb c3 "128")
  || (Ascii.eqb c1 "239" && Ascii.eqb c2 "187" && Ascii.eqb c3 "191").

(** [element.textContent && element.textContent.trim()]: some character
    is not white space. *)
Fixpoint nonBlank (s : string) : bool :=
  match s with
  | EmptyString => false
  | String c1 rest1 =>
      if isSpace c1 then nonBlank rest1
      else
        match rest1 with
        | EmptyString => true
        | String c2 rest2 =>
            if isSpace2 c1 c2 then nonBlank rest2
            else
              match rest2 with
              | EmptyString => true
              | String c3 rest3 =>
                  if isSpace3 c1 c2 c3 then nonBlank rest3 else true
              end
        end
  end.

Definition applyResponsiveScaling (host : Host) (window : Window)
    (container : option Container) (options : Options)
    : option (ScalingResult * Container) :=
  match container with
  | None => None
  | Some c =>
      let viewportWidth := default (viewportWidth options) (innerWidth window) in
      let viewportHeight := default (viewportHeight options) (innerHeight window) in
      let forceOrientation := forceOrientation options in
      let enableSmartTextFit := default (enableSmartTextFit options) true in
      let textFitOptions := default (textFitOptions options) noFitOptions in
      (* Calculate optimal dimensions *)
      let dimensions :=
        getOptimalDimensions viewportWidth viewportHeight forceOrientation in
      (* Generate CSS custom properties *)
      let properties :=
        generateScaleProperties dimensions (scaleOptions options) in
      (* Apply properties to container *)
      let styled :=
        fold_left (fun m kv => setProperty (fst kv) (snd kv) m)
          properties (style_properties c) in
      (* Apply transform for centering and scaling *)
      let transform :=
        {| translateX := dim_offsetX dimensions;
           translateY := dim_offsetY dimensions;
           scaleBy := dim_scale dimensions |} in
      (* Apply smart text fitting to all text elements *)
      let fitted :=
        if enableSmartTextFit then
          map (fun d =>
                 if nonBlank (textContent (dom_element d))
                 then snd (fitElement host textFitOptions d) else d)
              (textElements c)
        else textElements c in
      Some ({| res_dimensions := dimensions;
               res_properties := properties;
               res_transform := transform |},
            {| style_properties := styled;
               style_transform := Some transform;
               style_transformOrigin := Some "top left"%string;
               textElements := fitted |})
  end.

(** ** The responsive observer

    Time is counted in milliseconds.  The observer owns one timer slot
    ([resizeTimeout], the deadline of the pending [setTimeout]) and two
    window listeners.  [updates] records the argument of every call of the
    callback, latest first. *)

Record Observer := {
  now : nat;
  window : Window;
  container : option Container;
  resizeTimeout : option nat;
  resizeListener : bool;
  orientationListener : bool;
  updates : list (option ScalingResult)
}.

Record ObserverArgs := {
  arg_host : Host;
  arg_callback : bool;          (* is a callback supplied? *)
  arg_options : Options
}.

(** [clearTimeout(resizeTimeout); resizeTimeout = setTimeout(..., debounceMs + extraDelay)] *)
Definition scheduleResize (args : ObserverArgs) (extraDelay : nat)
    (o : Observer) : Observer :=
  let debounceMs := default (debounceMs (arg_options args)) 150%nat in
  {| now := now o; window := window o; container := container o;
     resizeTimeout := Some (now o + (debounceMs + extraDelay))%nat;
     resizeListener := resizeListener o;
     orientationListener := orientationListener o;
     updates := updates o |}.

Definition handleResize (args : ObserverArgs) (o : Observer) : Observer :=
  scheduleResize args 0 o.

Definition handleOrientationChange (args : ObserverArgs) (o : Observer)
    : Observer :=
  (* Allow the viewport to settle before recalculating sizes *)
  scheduleResize args 100 o.

(** The body of the timer: apply the scaling, then call the callback. *)
Definition timerFires (args : ObserverArgs) (o : Observer) : Observer :=
  let r := applyResponsiveScaling (arg_host args) (window o) (container o)
             (arg_options args) in
  {| now := now o; window := window o;
     container := match r with Some (_, c) => Some c | None => container o end;
     resizeTimeout := None;
     resizeListener := resizeListener o;
     orientationListener := orientationListener o;
     updates := if arg_callback args
                then option_map fst r :: updates o else updates o |}.

Definition createResponsiveObserver (args : ObserverArgs) (t0 : nat)
    (w : Window) (c : option Container) : Observer :=
  (* listen for resize events and orientation changes, then the
     initial application *)
  handleResize args
    {| now := t0; window := w; container := c; resizeTimeout := None;
       resizeListener := true; orientationListener := true;
       updates := [] |}.

(** The cleanup function that is returned. *)
Definition cleanup (o : Observer) : Observer :=
  {| now := now o; window := window o; container := container o;
     resizeTimeout := None;
     resizeListener := false; orientationListener := false;
     updates := updates o |}.

(** What can happen to an observer. *)
Inductive Event :=
| Elapse (dt : nat)                     (* time passes; a due timer fires *)
| Resize (w : Window)                   (* the window is resized *)
| OrientationChange (w : Window)        (* the device is rotated *)
| Release.                              (* the cleanup function is called *)

Definition setWindow (w : Window) (o : Observer) : Observer :=
  {| now := now o; window := w; container := container o;
     resizeTimeout := resizeTimeout o;
     resizeListener := resizeListener o;
     orientationListener := orientationListener o;
     updates := updates o |}.

Definition advance (dt : nat) (o : Observer) : Observer :=
  {| now := (now o + dt)%nat; window := window o; container := container o;
     resizeTimeout := resizeTimeout o;
     resizeListener := resizeListener o;
     orientationListener := orientationListener o;
     updates := updates o |}.

Definition handle (args : ObserverArgs) (o : Observer) (e : Event) : Observer :=
  match e with
  | Elapse dt =>
      match resizeTimeout o with
      | Some deadline =>
          if (deadline <=? now o + dt)%nat
          then advance dt (timerFires args o)
          else advance dt o
      | None => advance dt o
      end
  | Resize w =>
      let o := setWindow w o in
      if resizeListener o then handleResize args o else o
  | OrientationChange w =>
      let o := setWindow w o in
      if orientationListener o then handleOrientationChange args o else o
  | Release => cleanup o
  end.

Definition run (args : ObserverArgs) (o : Observer) (events : list Event)
    : Observer :=
  fold_left (handle args) events o.

(** A burst: signals, each preceded by the time since the previous one. *)
Inductive Signal := SigResize (w : Window) | SigOrientation (w : Window).

Definition signalEvent (s : Signal) : Event :=
  match s with
  | SigResize w => Resize w
  | SigOrientation w => OrientationChange w
  end.

Definition signalWindow (s : Signal) : Window :=
  match s with SigResize w | SigOrientation w => w end.

Fixpoint burstEvents (burst : list (nat * Signal)) : list Event :=
  match burst with
  | [] => []
  | (gap, s) :: rest => Elapse gap :: signalEvent s :: burstEvents rest
  end.

Fixpoint finalWindow (w0 : Window) (burst : list (nat * Signal)) : Window :=
  match burst with
  | [] => w0
  | (_, s) :: rest => finalWindow (signalWindow s) rest
  end.

(** ** The attribute-driven caller (RunnerDisplayEnhanced.smartTextFit)

    The element's [data-*] attributes, with the numeric ones already passed
    through [parseInt] ([None] is a missing attribute or NaN). *)

Record FitAttributes := {
  data_text_fit : option string;
  data_min_font_size : option Z;
  data_max_reduction : option Z
}.

Record SmartElement := {
  se_dom : Dom;
  se_attributes : FitAttributes;
  se_classList : list string
}.

Inductive SmartResult :=
| CssWrap                       (* { method: 'css-wrap', fits: true } *)
| CssEllipsis                   (* { method: 'css-ellipsis', fits: true } *)
| NoFitting                     (* { method: 'none', fits: true } *)
| Fitted (r : FitInfo).

Definition orElseZ (v : option Z) (fallback : Z) : Z :=
  match v with
  | Some z => if Z.eqb z 0 then fallback else z
  | None => fallback
  end.

Definition orElseString (v : option string) (fallback : string) : string :=
  match v with
  | Some s => if String.eqb s EmptyString then fallback else s
  | None => fallback
  end.

(** [{ a, b, c, ...options }]: a key present in [options] wins. *)
Definition spread (base options : FitOptions) : FitOptions :=
  let pick {A} (o b : option A) := match o with Some _ => o | None => b end in
  {| maxReduction := pick (maxReduction options) (maxReduction base);
     minFontSize := pick (minFontSize options) (minFontSize base);
     preferWordWrap := pick (preferWordWrap options) (preferWordWrap base);
     respectLineHeight :=
       pick (respectLineHeight options) (respectLineHeight base);
     step := pick (step options) (step base) |}.

Definition withPreferWordWrap (b : bool) (o : FitOptions) : FitOptions :=
  {| maxReduction := maxReduction o; minFontSize := minFontSize o;
     preferWordWrap := Some b; respectLineHeight := respectLineHeight o;
     step := step o |}.

Definition classRemove (names : list string) (cl : list string) : list string :=
  filter (fun c => negb (existsb (String.eqb c) names)) cl.

Definition classAdd (name : string) (cl : list string) : list string :=
  if existsb (String.eqb name) cl then cl else cl ++ [name].

Definition smartTextFit (host : Host) (element : option SmartElement)
    (options : FitOptions) : option (SmartResult * SmartElement) :=
  match element with
  | None => None
  | Some el =>
      let attrs := se_attributes el in
      let textFitMode := orElseString (data_text_fit attrs) "auto" in
      let minFontSize := orElseZ (data_min_font_size attrs) 12 in
      let maxReduction := orElseZ (data_max_reduction attrs) 30 in
      let fitOptions :=
        spread
          {| maxReduction := Some (inject_Z maxReduction / 100);
             minFontSize := Some (inject_Z minFontSize);
             preferWordWrap :=
               Some (String.eqb textFitMode "wrap"
                     || String.eqb textFitMode "auto");
             respectLineHeight := None; step := None |}
          options in
      let classes :=
        classRemove ["text-fit-shrink"; "text-fit-wrap"; "text-fit-ellipsis"]%string
          (se_classList el) in
      let withClasses cl d :=
        {| se_dom := d; se_attributes := attrs; se_classList := cl |} in
      let fit cl fitOptions :=
        let (r, d) := fitElement host fitOptions (se_dom el) in
        Some (Fitted r, withClasses cl d) in
      if String.eqb textFitMode "shrink" then
        fit (classAdd "text-fit-shrink" classes)
            (withPreferWordWrap false fitOptions)
      else if String.eqb textFitMode "wrap" then
        Some (CssWrap, withClasses (classAdd "text-fit-wrap" classes) (se_dom el))
      else if String.eqb textFitMode "ellipsis" then
        Some (CssEllipsis,
              withClasses (classAdd "text-fit-ellipsis" classes) (se_dom el))
      else if String.eqb textFitMode "none" then
        Some (NoFitting, withClasses classes (se_dom el))
      else
        (* Auto mode - intelligent fitting *)
        fit classes fitOptions
  end.

(** ** What the specification states, and inputs for the examples *)

(** What the specification says of the scale: the comparison is made with
    the reference rectangle rotated by 90 degrees in portrait. *)
Definition rotatedReferenceScale (d : Binary64.Dimensions) : Num :=
  match Binary64.dim_orientation d with
  | landscape =>
      fmin (fdiv (Binary64.dim_width d) (Finite 1920))
           (fdiv (Binary64.dim_height d) (Finite 1080))
  | portrait =>
      fmin (fdiv (Binary64.dim_width d) (Finite 1080))
           (fdiv (Binary64.dim_height d) (Finite 1920))
  end.


(** The aspect ratio of the reference design in an orientation, as the
    exact quotient the specification writes. *)
Definition referenceAspect (o : Orientation) : Q :=
  match o with
  | landscape => 1920 / 1080
  | portrait => 1080 / 1920
  end.

(** The failure taxonomy the specification names for the solver's
    contract, and the solver as the specification describes it: a viewport
    with a side that is zero or negative is refused, every other one is
    fitted.  The source has no such values and no such test:
    [getOptimalDimensions] returns its record on every path. *)
Inductive FailureKind := InvalidViewport | InvalidPolicy | MeasurementUnavailable.

Inductive SolveResult :=
| Fit (d : Binary64.Dimensions)
| Failure (k : FailureKind).

Definition solveAsSpecified (w h : Num) (force : option string)
    : SolveResult :=
  if fle w (Finite 0) || fle h (Finite 0)
  then Failure InvalidViewport
  else Fit (Binary64.getOptimalDimensions w h force).

(** What the specification says of the automatic orientation, with its
    tie rule. *)
Definition autoOrientationWithLandscapeTie (w h : Q) : Prop :=
  let d := getOptimalDimensions w h None in
  (dim_orientation d = landscape <-> 1 < w / h)
  /\ (w / h == 1 -> dim_orientation d = landscape).

Definition spacingStep (props : list (string * PropValue)) (i : nat)
    : option PropValue :=
  lookup ("--spacing-" ++ natToString i)%string props.

(** What the specification says of step [i]: floor baseSpacing*i*0.5 and
    ceiling baseSpacing*i*1.5 around a [vmin] value, baseSpacing = 8. *)
Definition spacingStepAsSpecified (props : list (string * PropValue))
    (i : nat) : Prop :=
  exists c,
    spacingStep props i = Some (ClampValue c)
    /\ clamp_min c == 8 * inject_Z (Z.of_nat i) * 0.5
    /\ clamp_unit c = "vmin"%string
    /\ clamp_max c == 8 * inject_Z (Z.of_nat i) * 1.5.

Definition defaultScaleOptions : ScaleOptions :=
  {| enableTextScaling := None; textScaleMultiplier := None;
     enableSpacingScale := None |}.

(** The floor of the specification: a reduction fraction and an absolute
    minimum, the larger of the two bounds winning. *)
Definition specifiedFloor (minFontSizePixels originalSize maxReductionFraction : Q)
    : Q :=
  Qmax minFontSizePixels (originalSize * (1 - maxReductionFraction)).

(** The floor the loop tests: [Math.max(minFontSize, originalFontSize * maxReduction)]. *)
Definition minAllowedSizeOf (options : FitOptions) (originalFontSize : Q) : Q :=
  Qmax (default (minFontSize options) 12)
       (originalFontSize * default (maxReduction options) 0.7).



(** Hosts used in the examples. *)

(** Content of a fixed size, whatever the font size (a replaced child, or
    a child with a set width). *)
Definition fixedSizeHost (w h : Q) : Host :=
  {| scrollWidth := fun _ _ => w;
     scrollHeight := fun _ _ => h |}.

(** A single line whose width is ten times the font size. *)
Definition proportionalHost : Host :=
  {| scrollWidth := fun _ e => fontSize e * 10;
     scrollHeight := fun _ e => fontSize e * 1.2 |}.

(** Two lines are enough when wrapping is on; a single line is too wide. *)
Definition wrappingHost : Host :=
  {| scrollWidth := fun _ e =>
       if String.eqb (whiteSpace e) "normal" then clientWidth e
       else clientWidth e + 50;
     scrollHeight := fun _ e => fontSize e * 2.4 |}.

Definition textElement (text : string) (size width height : Q) : Dom :=
  {| dom_element :=
       {| fontSize := size; lineHeight := None;
          whiteSpace := "nowrap"; wordBreak := "normal";
          overflowWrap := "normal";
          clientWidth := width; clientHeight := height;
          textContent := text;
          dataset_originalFontSize := None;
          dataset_originalLineHeight := None |};
     dom_reads := [] |}.

Definition policy (maxReduction_ minFontSize_ : Q) (preferWordWrap_ : bool)
    : FitOptions :=
  {| maxReduction := Some maxReduction_; minFontSize := Some minFontSize_;
     preferWordWrap := Some preferWordWrap_; respectLineHeight := None;
     step := None |}.

Definition debounceOf (args : ObserverArgs) : nat :=
  default (debounceMs (arg_options args)) 150%nat.

(** Listeners detached and no timer pending. *)
Definition released (o : Observer) : Prop :=
  resizeTimeout o = None
  /\ resizeListener o = false /\ orientationListener o = false.

(** Listeners attached and a timer pending that was set at the current
    time. *)
Definition armed (args : ObserverArgs) (o : Observer) : Prop :=
  resizeListener o = true /\ orientationListener o = true
  /\ exists deadline,
       resizeTimeout o = Some deadline
       /\ (now o + debounceOf args <= deadline
           <= now o + debounceOf args + 100)%nat.

(** Listeners attached and no timer pending. *)
Definition idle (o : Observer) : Prop :=
  resizeListener o = true /\ orientationListener o = true
  /\ resizeTimeout o = None.

Definition sameFit (a b : Dimensions) : Prop :=
  dim_width a == dim_width b /\ dim_height a == dim_height b
  /\ dim_scale a == dim_scale b /\ dim_orientation a = dim_orientation b
  /\ dim_offsetX a == dim_offsetX b /\ dim_offsetY a == dim_offsetY b.

(** What the specification says of a burst: one update, and it carries the
    fit of the final viewport. *)
Definition burstYieldsFitOfFinalViewport (args : ObserverArgs) (t0 : nat)
    (w0 : Window) (c : Container) (burst : list (nat * Signal)) (quiet : nat)
    : Prop :=
  let final := finalWindow w0 burst in
  exists r,
    updates (run args (createResponsiveObserver args t0 w0 (Some c))
               (burstEvents burst ++ [Elapse quiet]))
    = [Some r]
    /\ sameFit (res_dimensions r)
         (getOptimalDimensions (innerWidth final) (innerHeight final)
            (forceOrientation (arg_options args))).

(** A display that follows the window, one whose options fix the viewport
    (as the template viewer passes its container size), and a rotation
    followed by two resizes. *)
Definition emptyContainer : Container :=
  {| style_properties := []; style_transform := None;
     style_transformOrigin := None; textElements := [] |}.

Definition optionsWithViewport (vw vh : option Q) : Options :=
  {| viewportWidth := vw; viewportHeight := vh; forceOrientation := None;
     enableSmartTextFit := Some true; textFitOptions := None;
     scaleOptions := defaultScaleOptions; debounceMs := Some 150%nat |}.

Definition followingDisplay : ObserverArgs :=
  {| arg_host := proportionalHost; arg_callback := true;
     arg_options := optionsWithViewport None None |}.

Definition pinnedDisplay : ObserverArgs :=
  {| arg_host := proportionalHost; arg_callback := true;
     arg_options := optionsWithViewport (Some 800) (Some 600) |}.

Definition rotationBurst : list (nat * Signal) :=
  [ (40%nat, SigOrientation {| innerWidth := 1080; innerHeight := 1920 |});
    (120%nat, SigResize {| innerWidth := 1000; innerHeight := 1800 |});
    (149%nat, SigResize {| innerWidth := 1920; innerHeight := 1080 |}) ].

(** ** More vocabulary for the properties *)

(** The target ratios as rationals: 16/9 rounded to a double, and 9/16. *)
Definition ratio64 (o : Orientation) : Q :=
  match o with
  | landscape => fl (16 / 9)
  | portrait => fl (1080 / 1920)
  end.

(** The two tests of the solver on finite arguments: the orientation it
    resolves, and whether it fits to the height. *)
Definition resolvedOrientation (w h : Q) (f : option string) : Orientation :=
  if strictEq f "landscape"
     || (falsy f && fgt (fdiv (Finite w) (Finite h)) (Finite 1))
  then landscape else portrait.

Definition fitsToHeight (w h : Q) (f : option string) : bool :=
  fge (fdiv (Finite w) (Finite h))
      (Finite (ratio64 (resolvedOrientation w h f))).

(** [b] is the finite number [c] times the finite number [a]. *)
Definition scaledNum (c : Q) (a b : Num) : Prop :=
  match a, b with
  | Finite x, Finite y => y == c * x
  | _, _ => False
  end.

(** Zero, or of a magnitude between 2^-600 and 2^600: far enough from the
    subnormal numbers and from the largest double to stay between them
    when scaled by 2^k with |k| <= 400. *)
Definition moderate (x : Q) : Prop :=
  x == 0 \/ (pow2 (-600) <= Qabs x /\ Qabs x <= pow2 600).

(** The base [pixelsToViewport] divides by. *)
Definition baseViewportOf (unit : string) (baseViewport : option Q) : Q :=
  orElse baseViewport
    (if includes "h"%char unit
     then base_height BASE_DIMENSIONS
     else base_width BASE_DIMENSIONS).

(** Consecutive entries do not decrease under [f]. *)
Fixpoint ascendingBy {A} (f : A -> Q) (l : list A) : Prop :=
  match l with
  | x :: ((y :: _) as rest) => f x <= f y /\ ascendingBy f rest
  | _ => True
  end.

(** A list of keys without repetition, as a test. *)
Fixpoint distinctKeys (keys : list string) : bool :=
  match keys with
  | [] => true
  | k :: rest => negb (existsb (String.eqb k) rest) && distinctKeys rest
  end.

(** [Object.entries(properties).forEach(... setProperty ...)] on a style. *)
Definition writeProperties {A} (properties m : list (string * A))
    : list (string * A) :=
  fold_left (fun m kv => setProperty (fst kv) (snd kv) m) properties m.

(** Powers of a step factor. *)
Fixpoint qpow (q : Q) (n : nat) : Q :=
  match n with
  | O => 1
  | S k => q * qpow q k
  end.

(** The element once the original values are stored, if they were not. *)
Definition afterStore (d : Dom) : Dom :=
  let e := dom_element d in
  match dataset_originalFontSize e with
  | Some _ => d
  | None =>
      {| dom_element :=
           storeOriginals (fontSize e)
             (orElse (lineHeight e) (fontSize e * 1.2)) e;
         dom_reads := dom_reads d |}
  end.

(** Everything the fitter leaves alone while it changes sizes. *)
Definition sameBox (e e' : Element) : Prop :=
  whiteSpace e' = whiteSpace e /\ wordBreak e' = wordBreak e
  /\ overflowWrap e' = overflowWrap e
  /\ clientWidth e' = clientWidth e /\ clientHeight e' = clientHeight e
  /\ textContent e' = textContent e
  /\ dataset_originalFontSize e' = dataset_originalFontSize e
  /\ dataset_originalLineHeight e' = dataset_originalLineHeight e.

(** The reads of [d'] are those of [d] with later ones added. *)
Definition readsExtend (d d' : Dom) : Prop :=
  exists later, dom_reads d' = later ++ dom_reads d.

(** The three classes [smartTextFit] manages, and the one a mode adds. *)
Definition textFitClasses : list string :=
  ["text-fit-shrink"; "text-fit-wrap"; "text-fit-ellipsis"]%string.

Definition classOfMode (mode : string) : option string :=
  if String.eqb mode "shrink" then Some "text-fit-shrink"%string
  else if String.eqb mode "wrap" then Some "text-fit-wrap"%string
  else if String.eqb mode "ellipsis" then Some "text-fit-ellipsis"%string
  else None.

(** The mode read from [data-text-fit]. *)
Definition modeOf (el : SmartElement) : string :=
  orElseString (data_text_fit (se_attributes el)) "auto".

Definition withMode (mode : string) (el : SmartElement) : SmartElement :=
  {| se_dom := se_dom el;
     se_attributes :=
       {| data_text_fit := Some mode;
          data_min_font_size := data_min_font_size (se_attributes el);
          data_max_reduction := data_max_reduction (se_attributes el) |};
     se_classList := se_classList el |}.

(** Both listeners registered, a timer pending or not. *)
Definition attached (o : Observer) : Prop :=
  resizeListener o = true /\ orientationListener o = true.

(** The settle delay a signal adds to the debounce delay. *)
Definition settleDelay (s : Signal) : nat :=
  match s with
  | SigResize _ => 0
  | SigOrientation _ => 100
  end.

Definition isSignal (e : Event) : bool :=
  match e with
  | Resize _ | OrientationChange _ => true
  | _ => false
  end.

(** Calls made so far, plus one for a timer that is pending. *)
Definition callsDue (o : Observer) : nat :=
  List.length (updates o)
  + match resizeTimeout o with Some _ => 1 | None => 0 end.

(** ** Block placement in the editor (useGrapesEditor.js)

    The editor as far as placement reads it: the canvas iframe's bounding
    rectangle and document when they exist, what [Canvas.getZoom()] answers
    ([None] when it is missing, throws or is not a number), the coordinates
    of the last drop, and the number of components in the wrapper. *)

Record Rect := { rect_left : Q; rect_top : Q }.

Record CanvasDocument := {
  documentElement_scrollLeft : Q;
  body_scrollLeft : Q;
  documentElement_scrollTop : Q;
  body_scrollTop : Q
}.

Record Position := {
  pos_x : Q;
  pos_y : Q;
  pos_zoom : option Q        (* only the stored drop coordinates carry it *)
}.

Record Editor := {
  frameRect : option Rect;
  canvasDocument : option CanvasDocument;
  zoomReading : option Q;
  lastDropCoordinates : option Position;
  existingComponents : nat
}.

Record MouseEvent := { clientX : Q; clientY : Q }.

Definition DEFAULT_COMPONENT_WIDTH : Q := 100.
Definition DEFAULT_COMPONENT_HEIGHT : Q := 50.

Definition getCanvasZoom (editor : Editor) : Q :=
  match zoomReading editor with
  | Some zoom => if Qgtb zoom 0 then zoom / 100 else 1
  | None => 1
  end.

(** [a || b] on numbers. *)
Definition numberOr (a b : Q) : Q := if Qeq_bool a 0 then b else a.

Definition setLastDropCoordinates (v : option Position) (editor : Editor)
    : Editor :=
  {| frameRect := frameRect editor;
     canvasDocument := canvasDocument editor;
     zoomReading := zoomReading editor;
     lastDropCoordinates := v;
     existingComponents := existingComponents editor |}.

(** [Math.floor] *)
Definition floorQ (x : Q) : Q := inject_Z (Qfloor x).

Definition centerPlacement (editor : Editor) (targetWidth targetHeight : Q)
    : Position :=
  (* Center placement *)
  let x := floorQ (targetWidth / 2) - DEFAULT_COMPONENT_WIDTH / 2 in
  let y := floorQ (targetHeight / 2) - DEFAULT_COMPONENT_HEIGHT / 2 in
  (* Small offset for multiple components to avoid exact overlap *)
  if (0 <? existingComponents editor)%nat then
    let offset :=
      inject_Z (Z.of_nat (existingComponents editor mod 10)) * 20 in
    {| pos_x := x + offset; pos_y := y + offset; pos_zoom := None |}
  else {| pos_x := x; pos_y := y; pos_zoom := None |}.

(** The position, and the editor as the call leaves it. *)
Definition calculateBlockPosition (editor : Editor)
    (targetWidth targetHeight : Q) (event : option MouseEvent)
    : Position * Editor :=
  let fallback :=
    (* use stored drop coordinates if available *)
    match lastDropCoordinates editor with
    | Some coords =>
        (* Clear after use so we don't reuse stale data *)
        (coords, setLastDropCoordinates None editor)
    | None =>
        (centerPlacement editor targetWidth targetHeight, editor)
    end in
  match event with
  | Some event =>
      match frameRect editor, canvasDocument editor with
      | Some iframeRect, Some canvasDoc =>
          (* mouse position relative to iframe *)
          let mouseX := clientX event - rect_left iframeRect in
          let mouseY := clientY event - rect_top iframeRect in
          (* Account for iframe scroll if any *)
          let scrollLeft :=
            numberOr (numberOr (documentElement_scrollLeft canvasDoc)
                               (body_scrollLeft canvasDoc)) 0 in
          let scrollTop :=
            numberOr (numberOr (documentElement_scrollTop canvasDoc)
                               (body_scrollTop canvasDoc)) 0 in
          let zoom := getCanvasZoom editor in
          let x := Qmax 0 ((mouseX + scrollLeft) / zoom
                           - DEFAULT_COMPONENT_WIDTH / 2) in
          let y := Qmax 0 ((mouseY + scrollTop) / zoom
                           - DEFAULT_COMPONENT_HEIGHT / 2) in
          ({| pos_x := x; pos_y := y; pos_zoom := None |}, editor)
      | _, _ => fallback
      end
  | None => fallback
  end.

(** The drop handler of the canvas: [offsetX], [offsetY] are [None] when
    they are not numbers. *)
Definition handleDrop (editor : Editor) (offsetX offsetY : option Q) : Editor :=
  let zoom := getCanvasZoom editor in
  let offsetX := default offsetX 0 in
  let offsetY := default offsetY 0 in
  let x := offsetX / zoom in
  let y := offsetY / zoom in
  setLastDropCoordinates
    (Some {| pos_x := x; pos_y := y; pos_zoom := Some zoom |}) editor.

Definition withComponents (n : nat) (editor : Editor) : Editor :=
  {| frameRect := frameRect editor;
     canvasDocument := canvasDocument editor;
     zoomReading := zoomReading editor;
     lastDropCoordinates := lastDropCoordinates editor;
     existingComponents := n |}.

Definition emptyEditor : Editor :=
  {| frameRect := Some {| rect_left := 300; rect_top := 80 |};
     canvasDocument :=
       Some {| documentElement_scrollLeft := 0; body_scrollLeft := 0;
               documentElement_scrollTop := 40; body_scrollTop := 0 |};
     zoomReading := Some 50;
     lastDropCoordinates := None;
     existingComponents := 0 |}.

(** ** Converting authored styles (responsiveScaling.js,
    responsiveGrapesIntegration.js)

    A style object maps property names to strings.  [parseFloat] and the
    rendering of a number inside a template literal are the language's own;
    the functions below take them as parameters. *)

(** [x <= c] for a finite [c]. *)
Definition numLeb (x : Num) (c : Q) : bool :=
  match x with
  | NaN => false
  | Infinity negative => negative
  | Finite q => Qleb q c
  end.

Definition isNaN (x : Num) : bool :=
  match x with NaN => true | _ => false end.

(** [s.includes(p)] for strings. *)
Fixpoint startsWith (p s : string) : bool :=
  match p, s with
  | EmptyString, _ => true
  | String a p', String b s' => Ascii.eqb a b && startsWith p' s'
  | String _ _, EmptyString => false
  end.

Fixpoint includesString (p s : string) : bool :=
  startsWith p s
  || match s with
     | EmptyString => false
     | String _ s' => includesString p s'
     end.

(** The chain of comparisons that picks a step of the typography scale; it
    occurs in [convertToResponsiveStyles] and three times in the editor
    integration. *)
Definition scaleForPixels (pixels : Num) : string :=
  if numLeb pixels 16 then "xs"
  else if numLeb pixels 20 then "sm"
  else if numLeb pixels 32 then "md"
  else if numLeb pixels 48 then "lg"
  else if numLeb pixels 64 then "xl"
  else "xxl".

(** The value of a key when it is present and not the empty string. *)
Definition truthyValue (k : string) (m : list (string * string))
    : option string :=
  match lookup k m with
  | Some v => if String.eqb v EmptyString then None else Some v
  | None => None
  end.

Record Component := {
  comp_type : string;
  comp_attributes : list (string * string);
  comp_style : list (string * string)
}.

(** [attrs['data-placeholder'] || component.get('type') === 'text'] *)
Definition isTextComponent (c : Component) : bool :=
  match truthyValue "data-placeholder" (comp_attributes c) with
  | Some _ => true
  | None => String.eqb (comp_type c) "text"
  end.

Definition responsiveTextAttributes : list (string * string) :=
  [ ("data-text-fit", "auto"); ("data-min-font-size", "12");
    ("data-max-reduction", "30") ]%string.

Definition setStyle (style : list (string * string)) (c : Component)
    : Component :=
  {| comp_type := comp_type c; comp_attributes := comp_attributes c;
     comp_style := style |}.

Definition addAttributes (attrs : list (string * string)) (c : Component)
    : Component :=
  {| comp_type := comp_type c;
     comp_attributes := writeProperties attrs (comp_attributes c);
     comp_style := comp_style c |}.

Section StyleConversion.
Variable parseFloat : string -> Num.
Variable numberToString : Q -> string.

(** [`clamp(${min}px, ${preferred}vw, ${max}px)`] *)
Definition renderClamp (c : Clamp) : string :=
  ("clamp(" ++ numberToString (clamp_min c) ++ "px, "
   ++ numberToString (clamp_preferred c) ++ clamp_unit c ++ ", "
   ++ numberToString (clamp_max c) ++ "px)")%string.

Definition convertToResponsiveStyles (styles : list (string * string))
    : list (string * string) :=
  (* Convert font-size *)
  match truthyValue "font-size" styles with
  | Some fontSize_ =>
      let pixels := parseFloat fontSize_ in
      if negb (isNaN pixels) then
        (* Determine scale based on size *)
        let scale := scaleForPixels pixels in
        setProperty "font-size"
          ("var(--font-" ++ scale ++ ", "
           ++ renderClamp (responsiveFontSize scale 1) ++ ")")%string
          styles
      else styles
  | None => styles
  end.

(** [convertToResponsive(component)] of the object the integration
    returns. *)
Definition convertToResponsive (component : option Component)
    : bool * option Component :=
  match component with
  | None => (false, None)
  | Some c =>
      let c := setStyle (convertToResponsiveStyles (comp_style c)) c in
      (* Add responsive text attributes for text components *)
      let c := if isTextComponent c
               then addAttributes responsiveTextAttributes c else c in
      (true, Some c)
  end.

(** One turn of the loop of [optimizeAllText]: the component, and whether
    it was counted. *)
Definition optimizeText (c : Component) : Component * bool :=
  if isTextComponent c then
    match truthyValue "font-size" (comp_style c) with
    | Some fontSize_ =>
        if includesString "px" fontSize_ then
          let pixels := parseFloat fontSize_ in
          let scale := scaleForPixels pixels in
          let c := setStyle
                     (setProperty "font-size"
                        ("var(--font-" ++ scale ++ ")")%string (comp_style c))
                     c in
          (addAttributes responsiveTextAttributes c, true)
        else (c, false)
    | None => (c, false)
    end
  else (c, false).

(** [optimizeAllText()]: the count returned and the components as left. *)
Definition optimizeAllText (components : list Component)
    : nat * list Component :=
  let results := map optimizeText components in
  (List.length (filter snd results), map fst results).
End StyleConversion.

(** ** The status report (responsiveGrapesIntegration.js) *)

Definition usesResponsiveUnits (value : string) : bool :=
  negb (String.eqb value EmptyString)
  && (includesString "var(--" value || includesString "vw" value
      || includesString "vh" value || includesString "clamp" value).

Definition hasResponsiveStyles (c : Component) : bool :=
  existsb usesResponsiveUnits (map snd (comp_style c)).

Record ResponsiveStatus := {
  totalComponents : nat;
  responsiveComponents : nat;
  textComponents : nat;
  responsiveTextComponents : nat;
  responsivePercentage : Z;
  textResponsivePercentage : Z
}.

(** [Math.round]: the nearest integer, the larger one on a tie. *)
Definition roundQ (x : Q) : Z := Qfloor (x + 1 / 2).

(** [whole > 0 ? Math.round((part / whole) * 100) : 0], the quotient and
    the product rounded to doubles. *)
Definition percentage (part whole : nat) : Z :=
  if (0 <? whole)%nat
  then roundQ (fl (fl (inject_Z (Z.of_nat part) / inject_Z (Z.of_nat whole))
                   * 100))
  else 0%Z.

Definition countIf {A} (f : A -> bool) (l : list A) : nat :=
  List.length (filter f l).

Definition getResponsiveStatus (components : list Component)
    : ResponsiveStatus :=
  let isResponsiveText c :=
    isTextComponent c
    && match truthyValue "data-text-fit" (comp_attributes c) with
       | Some _ => hasResponsiveStyles c
       | None => false
       end in
  let total := List.length components in
  let responsive := countIf hasResponsiveStyles components in
  let text := countIf isTextComponent components in
  let responsiveText := countIf isResponsiveText components in
  {| totalComponents := total;
     responsiveComponents := responsive;
     textComponents := text;
     responsiveTextComponents := responsiveText;
     responsivePercentage := percentage responsive total;
     textResponsivePercentage := percentage responsiveText text |}.

(** Stand-ins for the two builtins in the examples: they read and print
    whole numbers of pixels. *)
Fixpoint readDigits (s : string) (acc : option Z) : option Z :=
  match s with
  | String c rest =>
      let n := Z.of_nat (nat_of_ascii c) in
      if ((48 <=? n) && (n <=? 57))%Z
      then readDigits rest (Some (default acc 0%Z * 10 + (n - 48))%Z)
      else acc
  | EmptyString => acc
  end.

Definition parseWholeNumber (s : string) : Num :=
  match readDigits s None with
  | Some z => Finite (inject_Z z)
  | None => NaN
  end.

Definition printWholePart (q : Q) : string :=
  NilZero.string_of_int (Z.to_int (Qfloor q)).

Definition textComponent (fontSize_ : string) : Component :=
  {| comp_type := "text";
     comp_attributes := [];
     comp_style := [("color", "white"); ("font-size", fontSize_)]%string |}.

(** The position of a step in the typography scale, xs first. *)
Fixpoint indexOf (k : string) (keys : list string) : nat :=
  match keys with
  | [] => 0
  | k' :: rest => if String.eqb k' k then 0 else S (indexOf k rest)
  end.

Definition stepRank (scale : string) : nat :=
  indexOf scale (map fst TYPOGRAPHY_SCALE).

(** * Properties *)

(** ** Comparison operators *)

Lemma Qleb_spec x y : reflect (x <= y) (Qleb x y).
Proof.
  unfold Qleb. destruct (Qle_bool x y) eqn:E; constructor.
  - now apply Qle_bool_iff.
  - intro H. apply Qle_bool_iff in H. congruence.
Qed.

Lemma Qgeb_spec x y : reflect (y <= x) (Qgeb x y).
Proof. exact (Qleb_spec y x). Qed.

Lemma Qgtb_spec x y : reflect (y < x) (Qgtb x y).
Proof.
  unfold Qgtb. destruct (Qle_bool x y) eqn:E; simpl; constructor.
  - apply Qle_bool_iff in E. lra.
  - destruct (Qlt_le_dec y x) as [H|H]; [exact H|].
    apply Qle_bool_iff in H. congruence.
Qed.

Lemma Qltb_spec x y : reflect (x < y) (Qltb x y).
Proof. exact (Qgtb_spec y x). Qed.

(** ** Rounding to binary64 *)

Lemma pow2_pos e : 0 < pow2 e.
Proof. apply Qpower_0_lt. reflexivity. Qed.

Lemma pow2_add a b : pow2 (a + b) == pow2 a * pow2 b.
Proof. apply Qpower_plus. discriminate. Qed.

Lemma pow2_succ a : pow2 (a + 1) == 2 * pow2 a.
Proof. rewrite pow2_add. change (pow2 1) with 2. ring. Qed.

Lemma pow2_sub a b : pow2 (a - b) == pow2 a / pow2 b.
Proof. apply Qpower_minus. discriminate. Qed.

Lemma pow2_le a b : (a <= b)%Z -> pow2 a <= pow2 b.
Proof. intro H. apply Qpower_le_compat_l; [exact H|discriminate]. Qed.

Lemma pow2_lt a b : (a < b)%Z -> pow2 a < pow2 b.
Proof. intro H. apply Qpower_lt_compat_l; [exact H|reflexivity]. Qed.

Lemma pow2_Z a : (0 <= a)%Z -> pow2 a == inject_Z (2 ^ a).
Proof. intro H. unfold pow2. rewrite Zpower_Qpower by exact H. reflexivity. Qed.

Lemma ilog2_spec x : 0 < x -> pow2 (ilog2 x) <= x /\ x < pow2 (ilog2 x + 1).
Proof.
  intro Hx. unfold ilog2.
  assert (Hy : 0 < Qred x) by (rewrite Qred_correct; exact Hx).
  assert (Exy : Qred x == x) by apply Qred_correct.
  destruct (Qred x) as [n d] eqn:E. cbn [Qnum Qden].
  assert (Hn : (0 < n)%Z).
  { unfold Qlt in Hy. simpl in Hy. lia. }
  set (A := Z.log2 n). set (B := Z.log2 (Z.pos d)).
  destruct (Z.log2_spec n Hn) as [HA1 HA2]. fold A in HA1, HA2.
  destruct (Z.log2_spec (Z.pos d) eq_refl) as [HB1 HB2]. fold B in HB1, HB2.
  assert (HA0 : (0 <= A)%Z) by apply Z.log2_nonneg.
  assert (HB0 : (0 <= B)%Z) by apply Z.log2_nonneg.
  assert (Hxd : n # d == inject_Z n / inject_Z (Z.pos d)) by apply Qmake_Qdiv.
  assert (PA := pow2_pos A). assert (PB := pow2_pos B).
  assert (QA1 : pow2 A <= inject_Z n).
  { rewrite pow2_Z by exact HA0. rewrite <- Zle_Qle. exact HA1. }
  assert (QA2 : inject_Z n < 2 * pow2 A).
  { rewrite <- pow2_succ. rewrite pow2_Z by lia. rewrite <- Zlt_Qlt. exact HA2. }
  assert (QB1 : pow2 B <= inject_Z (Z.pos d)).
  { rewrite pow2_Z by exact HB0. rewrite <- Zle_Qle. exact HB1. }
  assert (QB2 : inject_Z (Z.pos d) < 2 * pow2 B).
  { rewrite <- pow2_succ. rewrite pow2_Z by lia. rewrite <- Zlt_Qlt. exact HB2. }
  set (N := inject_Z n) in *. set (D := inject_Z (Z.pos d)) in *.
  assert (HD : 0 < D) by lra.
  assert (Hup : n # d < pow2 (A - B + 1)).
  { rewrite Hxd, pow2_succ, pow2_sub. apply Qlt_shift_div_r; [exact HD|].
    assert (E1 : 2 * (pow2 A / pow2 B) * D == 2 * pow2 A * (D / pow2 B))
      by (field; lra).
    rewrite E1.
    assert (1 <= D / pow2 B) by (apply Qle_shift_div_l; lra).
    nra. }
  assert (Hlo : pow2 (A - B - 1) < n # d).
  { rewrite Hxd. replace (A - B - 1)%Z with (A - (B + 1))%Z by lia.
    rewrite pow2_sub, pow2_succ. apply Qlt_shift_div_l; [exact HD|].
    assert (E1 : pow2 A / (2 * pow2 B) * D == pow2 A * (D / (2 * pow2 B)))
      by (field; lra).
    rewrite E1.
    assert (D / (2 * pow2 B) < 1) by (apply Qlt_shift_div_r; lra).
    nra. }
  destruct (Qle_bool (pow2 (A - B)) (n # d)) eqn:T.
  - apply Qle_bool_iff in T. rewrite <- Exy. split; assumption.
  - assert (T' : n # d < pow2 (A - B)).
    { destruct (Qlt_le_dec (n # d) (pow2 (A - B))) as [H|H]; [exact H|].
      apply Qle_bool_iff in H. congruence. }
    rewrite <- Exy. replace (A - B - 1 + 1)%Z with (A - B)%Z by lia.
    split; [apply Qlt_le_weak; exact Hlo | exact T'].
Qed.

Lemma ilog2_unique x e : pow2 e <= x -> x < pow2 (e + 1) -> ilog2 x = e.
Proof.
  intros H1 H2. assert (Hx : 0 < x) by (pose proof (pow2_pos e); lra).
  destruct (ilog2_spec x Hx) as [S1 S2].
  assert (L1 : (ilog2 x < e + 1)%Z).
  { apply (Qpower_lt_compat_l_inv 2); [|reflexivity]. fold (pow2 (ilog2 x)) (pow2 (e + 1)). lra. }
  assert (L2 : (e < ilog2 x + 1)%Z).
  { apply (Qpower_lt_compat_l_inv 2); [|reflexivity]. fold (pow2 e) (pow2 (ilog2 x + 1)). lra. }
  lia.
Qed.

Lemma ilog2_le x y : 0 < x -> x <= y -> (ilog2 x <= ilog2 y)%Z.
Proof.
  intros Hx Hxy. destruct (ilog2_spec x Hx) as [S1 _].
  destruct (ilog2_spec y ltac:(lra)) as [_ S2].
  assert (L : (ilog2 x < ilog2 y + 1)%Z).
  { apply (Qpower_lt_compat_l_inv 2); [|reflexivity].
    fold (pow2 (ilog2 x)) (pow2 (ilog2 y + 1)). lra. }
  lia.
Qed.

Lemma ilog2_comp x y : x == y -> ilog2 x = ilog2 y.
Proof. intro H. unfold ilog2. rewrite (Qred_complete x y H). reflexivity. Qed.

(** *** The nearest integer *)

Lemma rne_cases x :
  let n := Qfloor x in
  (rne x = n /\ x - inject_Z n <= 1 # 2)
  \/ (rne x = (n + 1)%Z /\ 1 # 2 <= x - inject_Z n).
Proof.
  cbv zeta. unfold rne.
  destruct (Qcompare (x - inject_Z (Qfloor x)) (1 # 2)) eqn:C.
  - apply Qeq_alt in C. destruct (Z.even (Qfloor x)); [left|right]; split; try reflexivity; lra.
  - apply Qlt_alt in C. left. split; [reflexivity|lra].
  - apply Qgt_alt in C. right. split; [reflexivity|lra].
Qed.

Lemma floor_bounds x : inject_Z (Qfloor x) <= x /\ x < inject_Z (Qfloor x) + 1.
Proof.
  split; [apply Qfloor_le|].
  pose proof (Qlt_floor x) as H. rewrite inject_Z_plus in H. exact H.
Qed.

Lemma rne_error x : Qabs (inject_Z (rne x) - x) <= 1 # 2.
Proof.
  destruct (floor_bounds x) as [F1 F2].
  apply Qabs_Qle_condition.
  destruct (rne_cases x) as [[-> H]|[-> H]].
  - split; lra.
  - rewrite inject_Z_plus. change (inject_Z 1) with 1. split; lra.
Qed.

Lemma rne_Z n : rne (inject_Z n) = n.
Proof.
  unfold rne. rewrite Qfloor_Z.
  assert (E : inject_Z n - inject_Z n == 0) by ring.
  assert (C : Qcompare (inject_Z n - inject_Z n) (1 # 2) = Lt).
  { apply -> Qlt_alt. rewrite E. reflexivity. }
  rewrite C. reflexivity.
Qed.

Lemma rne_comp x y : x == y -> rne x = rne y.
Proof.
  intro H. unfold rne. rewrite (Qfloor_comp x y H).
  assert (E : x - inject_Z (Qfloor y) == y - inject_Z (Qfloor y)) by (rewrite H; reflexivity).
  rewrite (Qcompare_comp _ _ E _ _ (Qeq_refl (1 # 2))). reflexivity.
Qed.

Lemma rne_le x y : x <= y -> (rne x <= rne y)%Z.
Proof.
  intro H. pose proof (Qfloor_resp_le x y H) as Hf.
  destruct (floor_bounds x) as [X1 X2]. destruct (floor_bounds y) as [Y1 Y2].
  destruct (Z.eq_dec (Qfloor x) (Qfloor y)) as [E|E].
  - unfold rne. rewrite E.
    destruct (Qcompare (x - inject_Z (Qfloor y)) (1 # 2)) eqn:Cx;
    destruct (Qcompare (y - inject_Z (Qfloor y)) (1 # 2)) eqn:Cy;
    try (destruct (Z.even (Qfloor y))); try lia;
    repeat match goal with
    | H : Qcompare _ _ = Eq |- _ => apply Qeq_alt in H
    | H : Qcompare _ _ = Lt |- _ => apply Qlt_alt in H
    | H : Qcompare _ _ = Gt |- _ => apply Qgt_alt in H
    end; lra.
  - assert (L : (Qfloor x + 1 <= Qfloor y)%Z) by lia.
    destruct (rne_cases x) as [[-> _]|[-> _]];
    destruct (rne_cases y) as [[-> _]|[-> _]]; lia.
Qed.

Lemma inject_Z_pred a : inject_Z (a - 1) == inject_Z a - 1.
Proof.
  unfold Z.sub. rewrite inject_Z_plus. reflexivity.
Qed.

Lemma rne_opp x : rne (- x) = (- rne x)%Z.
Proof.
  destruct (floor_bounds x) as [X1 X2].
  destruct (Qeq_dec x (inject_Z (Qfloor x))) as [E|E].
  - rewrite (rne_comp x _ E).
    assert (E' : - x == inject_Z (- Qfloor x)) by (rewrite inject_Z_opp, <- E; reflexivity).
    rewrite (rne_comp _ _ E'). rewrite !rne_Z. reflexivity.
  - assert (Hf : Qfloor (- x) = (- Qfloor x - 1)%Z).
    { symmetry. apply Z.le_antisymm.
      - assert (L : inject_Z (- Qfloor x - 1) <= - x).
        { rewrite inject_Z_pred, inject_Z_opp. lra. }
        apply Qfloor_resp_le in L. rewrite Qfloor_Z in L. exact L.
      - destruct (floor_bounds (- x)) as [N1 N2].
        assert (L : inject_Z (Qfloor (- x)) < inject_Z (- Qfloor x)).
        { rewrite inject_Z_opp. lra. }
        rewrite <- Zlt_Qlt in L. lia. }
    unfold rne. rewrite Hf.
    assert (Ef : - x - inject_Z (- Qfloor x - 1) == 1 - (x - inject_Z (Qfloor x))).
    { rewrite inject_Z_pred, inject_Z_opp. ring. }
    rewrite (Qcompare_comp _ _ Ef _ _ (Qeq_refl (1 # 2))).
    set (r := x - inject_Z (Qfloor x)) in *.
    destruct (Qcompare r (1 # 2)) eqn:C.
    + apply Qeq_alt in C.
      assert (C' : Qcompare (1 - r) (1 # 2) = Eq) by (apply -> Qeq_alt; lra).
      rewrite C'.
      replace (- Qfloor x - 1)%Z with (- (Qfloor x + 1))%Z by lia.
      rewrite Z.even_opp.
      replace (Qfloor x + 1)%Z with (Z.succ (Qfloor x)) by lia.
      rewrite Z.even_succ, <- Z.negb_even.
      destruct (Z.even (Qfloor x)); simpl; lia.
    + apply Qlt_alt in C.
      assert (C' : Qcompare (1 - r) (1 # 2) = Gt) by (apply -> Qgt_alt; lra).
      rewrite C'. lia.
    + apply Qgt_alt in C.
      assert (C' : Qcompare (1 - r) (1 # 2) = Lt) by (apply -> Qlt_alt; lra).
      rewrite C'. lia.
Qed.

(** *** The nearest double *)

Lemma ulp_expo x : ulp x = pow2 (expo x - 52).
Proof. reflexivity. Qed.

Lemma ulp_pos x : 0 < ulp x.
Proof. apply pow2_pos. Qed.

Lemma ulp_comp x y : x == y -> ulp x = ulp y.
Proof.
  intro H. unfold ulp, expo. rewrite (ilog2_comp (Qabs x) (Qabs y)); [reflexivity|].
  rewrite H. reflexivity.
Qed.

Lemma fl_comp x y : x == y -> fl x == fl y.
Proof.
  intro H. unfold fl. rewrite (ulp_comp x y H).
  rewrite (rne_comp (x / ulp y) (y / ulp y)); [reflexivity|].
  apply Qmult_comp; [exact H|reflexivity].
Qed.

Lemma fl_zero x : x == 0 -> fl x == 0.
Proof.
  intro H. unfold fl.
  rewrite (rne_comp (x / ulp x) (inject_Z 0)).
  - rewrite rne_Z. ring.
  - change (inject_Z 0) with 0. unfold Qdiv.
    transitivity (0 * / ulp x); [apply Qmult_comp; [exact H|reflexivity]|ring].
Qed.

Lemma fl_opp x : fl (- x) == - fl x.
Proof.
  unfold fl.
  assert (U : ulp (- x) = ulp x).
  { unfold ulp, expo. rewrite (ilog2_comp (Qabs (- x)) (Qabs x)); [reflexivity|].
    apply Qabs_opp. }
  rewrite U.
  rewrite (rne_comp (- x / ulp x) (- (x / ulp x))).
  - rewrite rne_opp, inject_Z_opp. ring.
  - unfold Qdiv. ring.
Qed.

Lemma fl_nonneg x : 0 <= x -> 0 <= fl x.
Proof.
  intro H. unfold fl. pose proof (ulp_pos x) as U.
  apply Qmult_le_0_compat; [|lra].
  assert (L : inject_Z 0 <= x / ulp x).
  { change (inject_Z 0) with 0. apply Qle_shift_div_l; [exact U|lra]. }
  apply rne_le in L. rewrite rne_Z in L. rewrite Zle_Qle in L. exact L.
Qed.

Lemma expo_pos x : 0 < x -> expo x = Z.max (ilog2 x) emin.
Proof.
  intro H. unfold expo. rewrite (ilog2_comp (Qabs x) x); [reflexivity|].
  apply Qabs_pos. lra.
Qed.

Lemma pow2_53 : pow2 53 == inject_Z (2 ^ 53).
Proof. apply pow2_Z. lia. Qed.

Lemma pow2_52 : pow2 52 == inject_Z (2 ^ 52).
Proof. apply pow2_Z. lia. Qed.

Lemma fl_upper x : 0 < x -> fl x <= pow2 (expo x + 1).
Proof.
  intro Hx. destruct (ilog2_spec x Hx) as [_ S2].
  pose proof (ulp_pos x) as U. unfold fl.
  assert (Hle : pow2 (ilog2 x + 1) <= pow2 (expo x + 1)).
  { apply pow2_le. rewrite (expo_pos x Hx). lia. }
  assert (Ep : pow2 (expo x + 1) == inject_Z (2 ^ 53) * ulp x).
  { rewrite <- pow2_53, ulp_expo, <- pow2_add. apply Qpower_comp; [reflexivity|lia]. }
  rewrite Ep. apply Qmult_le_compat_r; [|lra].
  assert (L : x / ulp x <= inject_Z (2 ^ 53)).
  { apply Qle_shift_div_r; [exact U|]. rewrite <- Ep. lra. }
  apply rne_le in L. rewrite rne_Z in L. rewrite <- Zle_Qle. exact L.
Qed.

Lemma fl_lower x : 0 < x -> (emin <= ilog2 x)%Z -> pow2 (ilog2 x) <= fl x.
Proof.
  intros Hx He. destruct (ilog2_spec x Hx) as [S1 _].
  pose proof (ulp_pos x) as U. unfold fl.
  assert (Ee : expo x = ilog2 x) by (rewrite (expo_pos x Hx); lia).
  assert (Ep : pow2 (ilog2 x) == inject_Z (2 ^ 52) * ulp x).
  { rewrite <- pow2_52, ulp_expo, <- pow2_add. apply Qpower_comp; [reflexivity|lia]. }
  rewrite Ep. apply Qmult_le_compat_r; [|lra].
  assert (L : inject_Z (2 ^ 52) <= x / ulp x).
  { apply Qle_shift_div_l; [exact U|]. rewrite <- Ep. exact S1. }
  apply rne_le in L. rewrite rne_Z in L. rewrite <- Zle_Qle. exact L.
Qed.

Lemma fl_le_pos x y : 0 < x -> x <= y -> fl x <= fl y.
Proof.
  intros Hx Hxy. assert (Hy : 0 < y) by lra.
  pose proof (ilog2_le x y Hx Hxy) as Hl.
  assert (Ex := expo_pos x Hx). assert (Ey := expo_pos y Hy).
  destruct (Z.eq_dec (expo x) (expo y)) as [E|E].
  - unfold fl. assert (U : ulp x = ulp y) by (rewrite !ulp_expo, E; reflexivity).
    rewrite U. pose proof (ulp_pos y) as Up.
    apply Qmult_le_compat_r; [|lra].
    rewrite <- Zle_Qle. apply rne_le.
    apply Qmult_le_compat_r; [exact Hxy|].
    apply Qlt_le_weak, Qinv_lt_0_compat, Up.
  - assert (Hlt : (expo x < expo y)%Z) by lia.
    assert (Hey : (emin <= ilog2 y)%Z) by lia.
    assert (Eyy : expo y = ilog2 y) by lia.
    apply Qle_trans with (pow2 (expo x + 1)); [apply fl_upper; exact Hx|].
    apply Qle_trans with (pow2 (ilog2 y)); [apply pow2_le; lia|].
    apply fl_lower; assumption.
Qed.

Lemma fl_nonpos x : x <= 0 -> fl x <= 0.
Proof.
  intro H. assert (H' : 0 <= - x) by lra.
  apply fl_nonneg in H'. rewrite fl_opp in H'. lra.
Qed.

(** Rounding is monotone. *)
Lemma fl_le x y : x <= y -> fl x <= fl y.
Proof.
  intro H. destruct (Qlt_le_dec 0 x) as [Hx|Hx].
  - apply fl_le_pos; assumption.
  - destruct (Qlt_le_dec y 0) as [Hy|Hy].
    + assert (L : fl (- y) <= fl (- x)) by (apply fl_le_pos; lra).
      rewrite !fl_opp in L. lra.
    + apply Qle_trans with 0; [apply fl_nonpos|apply fl_nonneg]; assumption.
Qed.

Lemma fl_error x : Qabs (fl x - x) <= ulp x / 2.
Proof.
  pose proof (ulp_pos x) as U. pose proof (rne_error (x / ulp x)) as R.
  unfold fl.
  assert (E : inject_Z (rne (x / ulp x)) * ulp x - x
              == (inject_Z (rne (x / ulp x)) - x / ulp x) * ulp x)
    by (field; lra).
  rewrite E, Qabs_Qmult, (Qabs_pos (ulp x)) by lra.
  assert (E2 : ulp x / 2 == (1 # 2) * ulp x) by (field).
  rewrite E2. apply Qmult_le_compat_r; [exact R|lra].
Qed.

(** In the normal range the relative error is at most 2^-53. *)
Lemma fl_relative_error x :
  pow2 emin <= Qabs x -> Qabs (fl x - x) <= pow2 (-53) * Qabs x.
Proof.
  intro H. pose proof (pow2_pos emin) as P.
  assert (Ha : 0 < Qabs x) by lra.
  destruct (ilog2_spec (Qabs x) Ha) as [S1 S2].
  assert (He : (emin <= ilog2 (Qabs x))%Z).
  { assert (L : (emin < ilog2 (Qabs x) + 1)%Z).
    { apply (Qpower_lt_compat_l_inv 2); [|reflexivity].
      fold (pow2 emin) (pow2 (ilog2 (Qabs x) + 1)). lra. }
    lia. }
  apply Qle_trans with (ulp x / 2); [apply fl_error|].
  unfold ulp, expo. rewrite Z.max_l by exact He.
  assert (E : pow2 (ilog2 (Qabs x) - 52) / 2 == pow2 (-53) * pow2 (ilog2 (Qabs x))).
  { rewrite <- pow2_add.
    replace (ilog2 (Qabs x) - 52)%Z with (-53 + ilog2 (Qabs x) + 1)%Z by lia.
    rewrite pow2_succ. field. }
  rewrite E. apply (proj2 (Qmult_le_l _ _ _ (pow2_pos (-53)))). exact S1.
Qed.

(** Everywhere, the error is at most 2^-53 of the value plus 2^-1075. *)
Lemma fl_error_bound x :
  Qabs (fl x - x) <= pow2 (-53) * Qabs x + pow2 (-1075).
Proof.
  pose proof (pow2_pos (-53)) as P53. pose proof (pow2_pos (-1075)) as P1075.
  pose proof (Qabs_nonneg x) as A.
  destruct (Qeq_dec x 0) as [Z0|Z0].
  { assert (E : fl x - x == 0) by (rewrite (fl_zero x Z0), Z0; ring).
    rewrite E. change (Qabs 0) with 0. nra. }
  assert (Ha : 0 < Qabs x).
  { destruct (Qlt_le_dec 0 x) as [H|H].
    - rewrite Qabs_pos; lra.
    - rewrite Qabs_neg; lra. }
  destruct (Qlt_le_dec (Qabs x) (pow2 emin)) as [H|H].
  - apply Qle_trans with (ulp x / 2); [apply fl_error|].
    assert (He : (Z.max (ilog2 (Qabs x)) emin = emin)%Z).
    { destruct (ilog2_spec (Qabs x) Ha) as [S1 S2].
      assert (L : (ilog2 (Qabs x) < emin)%Z).
      { apply (Qpower_lt_compat_l_inv 2); [|reflexivity].
        fold (pow2 (ilog2 (Qabs x))) (pow2 emin). lra. }
      lia. }
    unfold ulp, expo. rewrite He.
    assert (E : pow2 (emin - 52) / 2 == pow2 (-1075)).
    { change (emin - 52)%Z with (-1075 + 1)%Z. rewrite pow2_succ. field. }
    rewrite E. nra.
  - pose proof (fl_relative_error x H). lra.
Qed.

Lemma eps_value : pow2 (-53) == 1 # 9007199254740992.
Proof. reflexivity. Qed.

Lemma pow2_75 : pow2 (-75) == 1 # 37778931862957161709568.
Proof. reflexivity. Qed.

Lemma pow2_51 : pow2 (-51) == 1 # 2251799813685248.
Proof. reflexivity. Qed.

Lemma pow2_52' : pow2 (-52) == 1 # 4503599627370496.
Proof. reflexivity. Qed.

Lemma fl_above z a :
  0 <= a -> z <= a -> fl z <= a + pow2 (-53) * a + pow2 (-1075).
Proof.
  intros Ha Hz. apply fl_le in Hz.
  pose proof (fl_error_bound a) as B. rewrite (Qabs_pos a Ha) in B.
  apply Qabs_Qle_condition in B. lra.
Qed.

Lemma fl_below z a :
  0 <= a -> - a <= z -> - (a + pow2 (-53) * a + pow2 (-1075)) <= fl z.
Proof.
  intros Ha Hz. apply fl_le in Hz. rewrite fl_opp in Hz.
  pose proof (fl_error_bound a) as B. rewrite (Qabs_pos a Ha) in B.
  apply Qabs_Qle_condition in B. lra.
Qed.

Lemma fl_near x :
  0 <= x ->
  x - pow2 (-53) * x - pow2 (-1075) <= fl x
  /\ fl x <= x + pow2 (-53) * x + pow2 (-1075).
Proof.
  intro H. pose proof (fl_error_bound x) as B. rewrite (Qabs_pos x H) in B.
  apply Qabs_Qle_condition in B. split; lra.
Qed.

(** The smallest normal double is a double. *)
Lemma fl_pow2_emin : fl (pow2 emin) == pow2 emin.
Proof. vm_compute. reflexivity. Qed.

Lemma fl_one : fl 1 == 1.
Proof. vm_compute. reflexivity. Qed.

Lemma normal_of_rounded q r :
  0 < q -> 1 # 2 <= r -> fl q == r -> pow2 emin <= Qabs q.
Proof.
  intros Hq Hr E. rewrite Qabs_pos by lra.
  destruct (Qlt_le_dec q (pow2 emin)) as [L|L]; [exfalso|exact L].
  assert (L' : q <= pow2 emin) by lra.
  apply fl_le in L'. rewrite fl_pow2_emin, E in L'.
  assert (S : pow2 emin < 1 # 2) by reflexivity. lra.
Qed.

Lemma tiny_below w : pow2 (-1000) <= w -> pow2 (-1075) <= pow2 (-75) * w.
Proof.
  intro H. change (-1075)%Z with (-75 + -1000)%Z. rewrite pow2_add.
  apply (proj2 (Qmult_le_l _ _ _ (pow2_pos (-75)))). exact H.
Qed.

Lemma pow2_1000_small : pow2 1000 * 4 < pow2 1024.
Proof. reflexivity. Qed.

(** Some doubles: 16/9 and 0.1 as every binary64 system has them, a tie
    that goes to the even neighbour, the smallest subnormal, and the
    largest double, above which a result is an infinity. *)
Example fl_examples :
  fl (16 / 9) == 2001599834386887 / inject_Z (2 ^ 50)
  /\ fl 0.1 == 3602879701896397 / inject_Z (2 ^ 55)
  /\ fl (inject_Z (2 ^ 53 + 1)) == inject_Z (2 ^ 53)
  /\ fl (inject_Z (2 ^ 53 + 3)) == inject_Z (2 ^ 53 + 4)
  /\ fl (pow2 (-1074) * 0.6) == pow2 (-1074)
  /\ fl (pow2 (-1074) * 0.5) == 0
  /\ round (pow2 1024 - pow2 971) = Finite (pow2 1024 - pow2 971)
  /\ round (pow2 1024 - pow2 970) = Infinity false
  /\ fdiv (Finite 1) (Finite 0) = Infinity false
  /\ fdiv (Finite 0) (Finite 0) = NaN
  /\ fge NaN (Finite 1) = false /\ fgt (Infinity false) (Finite 1) = true.
Proof. vm_compute. repeat split. Qed.

(** *** Doubles and the results of operations *)

Lemma isDouble_spec x :
  isDouble x = true <-> fl x == x /\ Qabs x < pow2 1024.
Proof.
  unfold isDouble. rewrite andb_true_iff, Qeq_bool_iff.
  split; intros [H1 H2]; (split; [exact H1|]).
  - destruct (Qltb_spec (Qabs x) (pow2 1024)); [assumption|discriminate].
  - destruct (Qltb_spec (Qabs x) (pow2 1024)); [reflexivity|contradiction].
Qed.

Lemma isDouble_0 : isDouble 0 = true.
Proof. vm_compute. reflexivity. Qed.

Lemma isDouble_opp v : isDouble v = true -> isDouble (- v) = true.
Proof.
  intro D. apply isDouble_spec in D. destruct D as [F B].
  apply isDouble_spec. split.
  - rewrite fl_opp, F. reflexivity.
  - rewrite Qabs_opp. exact B.
Qed.

(** A rounded value below the overflow threshold is a finite double. *)
Lemma round_finite x : Qabs (fl x) < pow2 1024 -> round x = Finite (fl x).
Proof.
  intro H. unfold round.
  destruct (Qle_bool (pow2 1024) (Qabs (fl x))) eqn:E; [|reflexivity].
  apply Qle_bool_iff in E. lra.
Qed.

Lemma round_bounded x B :
  Qabs (fl x) <= B -> B < pow2 1024 -> round x = Finite (fl x).
Proof. intros H1 H2. apply round_finite. lra. Qed.

Lemma round_between x lo hi :
  isDouble lo = true -> isDouble hi = true -> lo <= x -> x <= hi ->
  round x = Finite (fl x) /\ lo <= fl x /\ fl x <= hi.
Proof.
  intros Hlo Hhi H1 H2.
  apply isDouble_spec in Hlo. apply isDouble_spec in Hhi.
  destruct Hlo as [Flo Blo]. destruct Hhi as [Fhi Bhi].
  assert (L1 : lo <= fl x) by (rewrite <- Flo; apply fl_le; exact H1).
  assert (L2 : fl x <= hi) by (rewrite <- Fhi; apply fl_le; exact H2).
  split; [|split; assumption].
  apply round_finite.
  assert (A1 : - pow2 1024 < lo).
  { apply Qabs_Qlt_condition in Blo. tauto. }
  assert (A2 : hi < pow2 1024).
  { apply Qabs_Qlt_condition in Bhi. tauto. }
  apply Qabs_Qlt_condition. split; lra.
Qed.

(** Rounding a value between a double and zero gives a finite double. *)
Lemma round_within v x :
  isDouble v = true -> Qabs x <= Qabs v -> round x = Finite (fl x).
Proof.
  intros D H. apply Qabs_Qle_condition in H.
  destruct (Qlt_le_dec v 0) as [N|N].
  - rewrite Qabs_neg in H by lra.
    assert (L1 : v <= x) by lra. assert (L2 : x <= - v) by lra.
    exact (proj1 (round_between x v (- v) D (isDouble_opp v D) L1 L2)).
  - rewrite Qabs_pos in H by lra.
    exact (proj1 (round_between x (- v) v (isDouble_opp v D) D (proj1 H) (proj2 H))).
Qed.

Lemma round_positive_cases x :
  0 < x -> round x = Finite (fl x) \/ round x = Infinity false.
Proof.
  intro H. unfold round.
  destruct (Qle_bool (pow2 1024) (Qabs (fl x))); [right|left; reflexivity].
  destruct (Qltb_spec x 0); [lra|reflexivity].
Qed.

Lemma round_negative_cases x :
  x < 0 -> (round x = Finite (fl x) /\ fl x <= 0) \/ round x = Infinity true.
Proof.
  intro H. unfold round.
  destruct (Qle_bool (pow2 1024) (Qabs (fl x))).
  - right. destruct (Qltb_spec x 0); [reflexivity|contradiction].
  - left. split; [reflexivity|]. apply fl_nonpos. lra.
Qed.

Lemma round_zero x : x == 0 -> round x = Finite (fl x) /\ fl x == 0.
Proof.
  intro H. pose proof (fl_zero x H) as F. split; [|exact F].
  apply round_finite. rewrite F. reflexivity.
Qed.

Lemma fdiv_finite a b : ~ b == 0 -> fdiv (Finite a) (Finite b) = round (a / b).
Proof.
  intro H. unfold fdiv. destruct (Qeq_bool b 0) eqn:E; [|reflexivity].
  apply Qeq_bool_iff in E. contradiction.
Qed.

Lemma half_within v : Qabs (v / 2) <= Qabs v.
Proof.
  assert (E : v / 2 == v * (1 # 2)) by field.
  rewrite E, Qabs_Qmult. change (Qabs (1 # 2)) with (1 # 2).
  pose proof (Qabs_nonneg v). lra.
Qed.

(** A positive double is a whole multiple of its spacing, and of every
    smaller spacing. *)
Lemma double_multiple x y :
  0 < y -> y <= x -> fl x == x ->
  exists n : Z, x == inject_Z n * ulp y.
Proof.
  intros Hy Hxy F. assert (Hx : 0 < x) by lra.
  assert (Le : (expo y <= expo x)%Z).
  { rewrite (expo_pos x Hx), (expo_pos y Hy).
    pose proof (ilog2_le y x Hy Hxy). lia. }
  exists (rne (x / ulp x) * 2 ^ (expo x - expo y))%Z.
  rewrite inject_Z_mult, <- pow2_Z by lia.
  rewrite <- F at 1. unfold fl.
  rewrite <- Qmult_assoc. apply Qmult_comp; [reflexivity|].
  rewrite !ulp_expo, <- pow2_add. apply Qpower_comp; [reflexivity|lia].
Qed.

(** Two distinct positive doubles differ by at least the spacing of the
    smaller one, which is more than 2^-53 of it. *)
Lemma double_gap x y :
  0 < y -> y < x -> fl x == x -> fl y == y ->
  y + pow2 (-53) * y < x.
Proof.
  intros Hy Hxy Fx Fy.
  destruct (double_multiple x y Hy (Qlt_le_weak _ _ Hxy) Fx) as [n En].
  destruct (double_multiple y y Hy (Qle_refl y) Fy) as [m Em].
  pose proof (ulp_pos y) as U.
  assert (Hnm : (m < n)%Z).
  { rewrite Zlt_Qlt.
    apply (proj1 (Qmult_lt_r _ _ (ulp y) U)). rewrite <- En, <- Em. exact Hxy. }
  assert (Hg : y + ulp y <= x).
  { set (u := ulp y) in *. clearbody u.
    assert (L : inject_Z m + 1 <= inject_Z n).
    { change 1 with (inject_Z 1). rewrite <- inject_Z_plus, <- Zle_Qle. lia. }
    apply (Qmult_le_compat_r _ _ u) in L; [|lra]. lra. }
  assert (Hu : pow2 (-53) * y < ulp y).
  { destruct (ilog2_spec y Hy) as [_ S2].
    assert (B : y < pow2 (expo y + 1)).
    { apply Qlt_le_trans with (pow2 (ilog2 y + 1)); [exact S2|].
      apply pow2_le. rewrite (expo_pos y Hy). lia. }
    rewrite ulp_expo.
    replace (expo y - 52)%Z with (-53 + (expo y + 1))%Z by lia.
    rewrite pow2_add.
    apply (proj2 (Qmult_lt_l _ _ (pow2 (-53)) (pow2_pos (-53)))). exact B. }
  lra.
Qed.

(** Rounding keeps a quotient of two distinct doubles away from 1. *)
Lemma fl_above_one q : 1 + pow2 (-53) < q -> 1 < fl q.
Proof.
  intro H. pose proof (pow2_pos (-53)) as P.
  assert (Hm : fl (Qmin q (3 # 2)) <= fl q) by (apply fl_le, Q.le_min_l).
  apply Qlt_le_trans with (fl (Qmin q (3 # 2))); [|exact Hm].
  set (m := Qmin q (3 # 2)).
  assert (M1 : 1 + pow2 (-53) < m).
  { unfold m. apply Q.min_glb_lt; [exact H|]. rewrite eps_value. reflexivity. }
  assert (M2 : m <= 3 # 2) by apply Q.le_min_r.
  assert (E0 : ilog2 (Qabs m) = 0%Z).
  { apply ilog2_unique; rewrite Qabs_pos by lra.
    - change (pow2 0) with 1. lra.
    - change (pow2 (0 + 1)) with 2. lra. }
  unfold fl, ulp, expo. rewrite E0. change (Z.max 0 emin - 52)%Z with (-52)%Z.
  pose proof (rne_error (m / pow2 (-52))) as R.
  apply Qabs_Qle_condition in R. destruct R as [R _].
  assert (Em : m / pow2 (-52) == m * inject_Z (2 ^ 52)).
  { rewrite pow2_52'. change (inject_Z (2 ^ 52)) with 4503599627370496. field. }
  assert (Lm : inject_Z (2 ^ 52) < inject_Z (rne (m / pow2 (-52)))).
  { rewrite Em in R at 2. rewrite eps_value in M1.
    change (inject_Z (2 ^ 52)) with 4503599627370496 in *. lra. }
  rewrite <- Zlt_Qlt in Lm.
  assert (Lm' : inject_Z (2 ^ 52) + 1 <= inject_Z (rne (m / pow2 (-52)))).
  { change 1 with (inject_Z 1). rewrite <- inject_Z_plus, <- Zle_Qle. lia. }
  change (inject_Z (2 ^ 52)) with 4503599627370496 in Lm'.
  set (k := rne (m / pow2 (-52))) in *. clearbody k.
  rewrite pow2_52'. lra.
Qed.

(** *** Scaling by a power of two, and the doubles as fixed points *)

Lemma ilog2_pow2 e : ilog2 (pow2 e) = e.
Proof. apply ilog2_unique; [apply Qle_refl|apply pow2_lt; lia]. Qed.

Lemma ilog2_scale k x : 0 < x -> ilog2 (pow2 k * x) = (ilog2 x + k)%Z.
Proof.
  intro H. destruct (ilog2_spec x H) as [S1 S2].
  pose proof (pow2_pos k) as P.
  apply ilog2_unique.
  - rewrite pow2_add, (Qmult_comm (pow2 (ilog2 x))).
    apply Qmult_le_l; assumption.
  - replace (ilog2 x + k + 1)%Z with (k + (ilog2 x + 1))%Z by lia.
    rewrite pow2_add. apply Qmult_lt_l; assumption.
Qed.

Lemma normal_ilog2 x : pow2 emin <= x -> (emin <= ilog2 x)%Z.
Proof.
  intro H. pose proof (ilog2_le (pow2 emin) x (pow2_pos emin) H) as L.
  rewrite ilog2_pow2 in L. exact L.
Qed.

Lemma fl_scale_pos k x :
  pow2 emin <= x -> pow2 emin <= pow2 k * x ->
  fl (pow2 k * x) == pow2 k * fl x.
Proof.
  intros N1 N2. pose proof (pow2_pos emin) as P0. pose proof (pow2_pos k) as Pk.
  assert (Hx : 0 < x) by lra.
  assert (Hy : 0 < pow2 k * x) by lra.
  assert (E1 : expo x = ilog2 x).
  { rewrite (expo_pos x Hx). pose proof (normal_ilog2 x N1). lia. }
  assert (E2 : expo (pow2 k * x) = (ilog2 x + k)%Z).
  { rewrite (expo_pos _ Hy). pose proof (normal_ilog2 _ N2) as L.
    rewrite ilog2_scale in L |- * by exact Hx. lia. }
  assert (U : ulp (pow2 k * x) == pow2 k * ulp x).
  { rewrite !ulp_expo, E1, E2.
    replace (ilog2 x + k - 52)%Z with (k + (ilog2 x - 52))%Z by lia.
    apply pow2_add. }
  pose proof (ulp_pos x) as Ux.
  assert (Q : pow2 k * x / ulp (pow2 k * x) == x / ulp x).
  { rewrite U. field. split; lra. }
  unfold fl. rewrite (rne_comp _ _ Q), U. ring.
Qed.

Lemma fl_scale k x :
  x == 0 \/ (pow2 emin <= Qabs x /\ pow2 emin <= pow2 k * Qabs x) ->
  fl (pow2 k * x) == pow2 k * fl x.
Proof.
  intros [Z|[N1 N2]].
  - assert (Z' : pow2 k * x == 0) by (rewrite Z; ring).
    rewrite (fl_zero _ Z'), (fl_zero _ Z). ring.
  - destruct (Qlt_le_dec x 0) as [L|L].
    + rewrite Qabs_neg in N1, N2 by lra.
      pose proof (fl_scale_pos k (- x) N1 N2) as F.
      assert (E : pow2 k * - x == - (pow2 k * x)) by ring.
      rewrite (fl_comp _ _ E), !fl_opp in F.
      apply Qopp_comp in F. rewrite Qopp_involutive in F. rewrite F. ring.
    + rewrite Qabs_pos in N1, N2 by lra. apply fl_scale_pos; assumption.
Qed.

(** A power of two from 2^-1022 on is a double. *)
Lemma fl_pow2 e : (emin <= e)%Z -> fl (pow2 e) == pow2 e.
Proof.
  intro H.
  assert (E : pow2 e == pow2 (e - emin) * pow2 emin).
  { rewrite <- pow2_add. apply Qpower_comp; [reflexivity|lia]. }
  rewrite (fl_comp _ _ E), fl_scale_pos.
  - rewrite fl_pow2_emin, E. reflexivity.
  - apply Qle_refl.
  - rewrite <- E. apply pow2_le. exact H.
Qed.

(** A whole multiple of a spacing that is no finer than its own. *)
Lemma fl_multiple y n g :
  y == inject_Z n * pow2 g -> (expo y - 52 <= g)%Z -> fl y == y.
Proof.
  intros E L. pose proof (ulp_pos y) as U.
  assert (Q : y / ulp y == inject_Z (n * 2 ^ (g - (expo y - 52)))).
  { rewrite inject_Z_mult, <- pow2_Z by lia.
    rewrite ulp_expo in *. set (e := (expo y - 52)%Z) in *. clearbody e.
    rewrite pow2_sub, E. field. lra. }
  unfold fl. rewrite (rne_comp _ _ Q), rne_Z, <- Q. field. lra.
Qed.

Lemma fl_idem_pos x : 0 < x -> fl (fl x) == fl x.
Proof.
  intro Hx. pose proof (fl_upper x Hx) as Up.
  pose proof (fl_nonneg x (Qlt_le_weak _ _ Hx)) as F0.
  assert (Le : (emin <= expo x)%Z) by (unfold expo; lia).
  destruct (Qlt_le_dec 0 (fl x)) as [P|P].
  - destruct (Qlt_le_dec (fl x) (pow2 (expo x + 1))) as [B|B].
    + apply (fl_multiple (fl x) (rne (x / ulp x)) (expo x - 52)).
      * unfold fl. rewrite ulp_expo. reflexivity.
      * rewrite (expo_pos _ P).
        destruct (ilog2_spec _ P) as [S1 _].
        assert (ilog2 (fl x) < expo x + 1)%Z; [|lia].
        destruct (Z.lt_ge_cases (ilog2 (fl x)) (expo x + 1)) as [C|C]; [exact C|].
        apply pow2_le in C. lra.
    + assert (E : fl x == pow2 (expo x + 1)) by lra.
      rewrite (fl_comp _ _ E), fl_pow2 by lia. symmetry. exact E.
  - assert (E : fl x == 0) by lra.
    rewrite (fl_zero _ E). symmetry. exact E.
Qed.

(** Rounding twice is rounding once. *)
Lemma fl_idem x : fl (fl x) == fl x.
Proof.
  destruct (Q_dec x 0) as [[N|P]|Z].
  - assert (Hx : 0 < - x) by lra.
    pose proof (fl_idem_pos _ Hx) as F.
    assert (E : fl x == - fl (- x)) by (rewrite fl_opp; ring).
    rewrite (fl_comp _ _ E), fl_opp, F. symmetry. exact E.
  - apply fl_idem_pos. exact P.
  - assert (E : fl x == 0) by (apply fl_zero; exact Z).
    rewrite (fl_zero _ E). symmetry. exact E.
Qed.

Lemma fl_abs x : Qabs (fl x) == fl (Qabs x).
Proof.
  destruct (Qlt_le_dec x 0) as [N|P].
  - assert (E : Qabs x == - x) by (apply Qabs_neg; lra).
    rewrite (fl_comp _ _ E), fl_opp.
    apply Qabs_neg. apply fl_nonpos. lra.
  - assert (E : Qabs x == x) by (apply Qabs_pos; exact P).
    rewrite (fl_comp _ _ E). apply Qabs_pos. apply fl_nonneg. exact P.
Qed.

(** Rounding keeps a value between two powers of two. *)
Lemma fl_between lo hi x :
  (emin <= lo)%Z -> (emin <= hi)%Z ->
  pow2 lo <= Qabs x -> Qabs x <= pow2 hi ->
  pow2 lo <= Qabs (fl x) /\ Qabs (fl x) <= pow2 hi.
Proof.
  intros L H B1 B2. rewrite fl_abs. split.
  - rewrite <- (fl_pow2 lo L). apply fl_le. exact B1.
  - rewrite <- (fl_pow2 hi H). apply fl_le. exact B2.
Qed.

Lemma fl_between_pos lo hi x :
  (emin <= lo)%Z -> (emin <= hi)%Z -> pow2 lo <= x -> x <= pow2 hi ->
  pow2 lo <= fl x /\ fl x <= pow2 hi.
Proof.
  intros L H B1 B2. split.
  - rewrite <- (fl_pow2 lo L). apply fl_le. exact B1.
  - rewrite <- (fl_pow2 hi H). apply fl_le. exact B2.
Qed.

Lemma isDouble_fl x : Qabs (fl x) < pow2 1024 -> isDouble (fl x) = true.
Proof. intro B. apply isDouble_spec. split; [apply fl_idem|exact B]. Qed.

Lemma half_pow2 a : pow2 (a - 1) == pow2 a * (1 # 2).
Proof.
  pose proof (pow2_succ (a - 1)) as S.
  replace (a - 1 + 1)%Z with a in S by lia. rewrite S. ring.
Qed.

Lemma double_pow2 a : pow2 (a + 1) == pow2 a * 2.
Proof. rewrite pow2_succ. ring. Qed.

Lemma moderate_fl x : moderate x -> moderate (fl x).
Proof.
  intros [Z|[B1 B2]]; [left; apply fl_zero; exact Z|right].
  apply fl_between; try assumption; unfold emin; lia.
Qed.

Lemma moderate_pos x : pow2 (-600) <= x -> x <= pow2 600 -> moderate x.
Proof.
  intros B1 B2. right. pose proof (pow2_pos (-600)).
  rewrite Qabs_pos by lra. split; assumption.
Qed.

Lemma moderate_range lo hi x :
  (-600 <= lo)%Z -> (hi <= 600)%Z -> pow2 lo <= x -> x <= pow2 hi ->
  moderate x.
Proof.
  intros L H B1 B2. apply moderate_pos.
  - apply Qle_trans with (pow2 lo); [apply pow2_le; exact L|exact B1].
  - apply Qle_trans with (pow2 hi); [exact B2|apply pow2_le; exact H].
Qed.

Lemma round_moderate x : moderate x -> round x = Finite (fl x).
Proof.
  intro M. apply moderate_fl in M. apply round_finite.
  destruct M as [Z|[_ B]].
  - rewrite Z. reflexivity.
  - apply Qle_lt_trans with (pow2 600); [exact B|apply pow2_lt; lia].
Qed.

(** An operation whose exact result is scaled by 2^k gives a result
    scaled by 2^k. *)
Lemma moderate_scale k x y :
  (-400 <= k <= 400)%Z -> moderate x -> y == pow2 k * x ->
  round y = Finite (fl y) /\ fl y == pow2 k * fl x.
Proof.
  intros K M E. pose proof (pow2_pos k) as Pk.
  assert (F : fl y == pow2 k * fl x).
  { rewrite (fl_comp _ _ E). apply fl_scale.
    destruct M as [Z|[B1 B2]]; [left; exact Z|right]. split.
    - apply Qle_trans with (pow2 (-600)); [apply pow2_le; unfold emin; lia|exact B1].
    - apply Qle_trans with (pow2 k * pow2 (-600)).
      + rewrite <- pow2_add. apply pow2_le. unfold emin. lia.
      + apply Qmult_le_l; assumption. }
  split; [|exact F].
  apply round_finite. rewrite F, Qabs_Qmult, (Qabs_pos (pow2 k)) by lra.
  apply moderate_fl in M. destruct M as [Z|[_ B]].
  - rewrite Z. change (Qabs 0) with 0. rewrite Qmult_0_r. apply pow2_pos.
  - apply Qle_lt_trans with (pow2 k * pow2 600).
    + apply Qmult_le_l; assumption.
    + rewrite <- pow2_add. apply pow2_lt. lia.
Qed.

Lemma round_scaled k x y :
  (-400 <= k <= 400)%Z -> moderate x -> y == pow2 k * x ->
  scaledNum (pow2 k) (round x) (round y).
Proof.
  intros K M E. destruct (moderate_scale k x y K M E) as [R F].
  rewrite (round_moderate x M), R. exact F.
Qed.

Lemma Qleb_morphism a a' b b' : a == a' -> b == b' -> Qleb a b = Qleb a' b'.
Proof.
  intros Ha Hb. unfold Qleb. apply eq_true_iff_eq.
  rewrite !Qle_bool_iff, Ha, Hb. reflexivity.
Qed.

Lemma fmin_scaled c a b a' b' :
  0 < c -> scaledNum c a a' -> scaledNum c b b' ->
  scaledNum c (fmin a b) (fmin a' b').
Proof.
  intros C A B.
  destruct a as [| |x], a' as [| |x'], b as [| |y], b' as [| |y'];
    try contradiction.
  simpl in A, B. unfold fmin, fle.
  assert (E : Qleb x' y' = Qleb x y).
  { rewrite (Qleb_morphism _ _ _ _ A B). unfold Qleb. apply eq_true_iff_eq.
    rewrite !Qle_bool_iff. split; intro L.
    - apply (Qmult_le_l _ _ c C). exact L.
    - apply Qmult_le_l; assumption. }
  rewrite E. destruct (Qleb x y); assumption.
Qed.

(** ** The dimension solver *)

Example solve_1920_1080 :
  let d := getOptimalDimensions 1920 1080 None in
  dim_orientation d = landscape /\ dim_width d == 1920 /\ dim_height d == 1080
  /\ dim_scale d == 1 /\ dim_offsetX d == 0 /\ dim_offsetY d == 0.
Proof. vm_compute. repeat split. Qed.

Example solve_1080_1920 :
  let d := getOptimalDimensions 1080 1920 None in
  dim_orientation d = portrait /\ dim_width d == 1080 /\ dim_height d == 1920
  /\ dim_scale d == 9 / 16 /\ dim_offsetX d == 0 /\ dim_offsetY d == 0.
Proof. vm_compute. repeat split. Qed.

Example solve_2560_1080_pillarbox :
  let d := getOptimalDimensions 2560 1080 None in
  dim_orientation d = landscape /\ dim_width d == 1920 /\ dim_height d == 1080
  /\ dim_offsetX d == 320 /\ dim_offsetY d == 0.
Proof. vm_compute. repeat split. Qed.

Lemma orientation_resolved (w h : Q) (f : option string) :
  dim_orientation (getOptimalDimensions w h f)
  = if resolvesLandscape w h f then landscape else portrait.
Proof.
  unfold getOptimalDimensions, resolvesLandscape.
  destruct (strictEq f "landscape" || (falsy f && Qgtb (w / h) 1));
    [ destruct (Qgeb (w / h) (base_aspectRatio BASE_DIMENSIONS))
    | destruct (Qgeb (w / h) (base_height BASE_DIMENSIONS / base_width BASE_DIMENSIONS)) ];
    reflexivity.
Qed.

Lemma over_landscape_ratio (x : Q) : x / (16 / 9) == x * (9 / 16).
Proof. field. Qed.

Lemma over_portrait_ratio (x : Q) : x / (1080 / 1920) == x * (1920 / 1080).
Proof. field. Qed.

Lemma over_positive (x : Q) (p : positive) : x / (Zpos p # 1) == x * (1 # p).
Proof.
  unfold Qdiv. apply Qmult_comp; [reflexivity|]. reflexivity.
Qed.

(** Divisions by constants become products, which linear arithmetic
    handles. *)
Ltac products :=
  repeat (rewrite over_landscape_ratio || rewrite over_portrait_ratio
          || rewrite over_positive).

Ltac products_in H :=
  repeat (rewrite over_landscape_ratio in H || rewrite over_portrait_ratio in H
          || rewrite over_positive in H).

Lemma falsy_not_landscape (f : option string) :
  falsy f = true -> strictEq f "landscape" = false.
Proof.
  destruct f as [s|]; simpl; [|reflexivity].
  intro H. apply String.eqb_eq in H. subst s. reflexivity.
Qed.

(** C3, as the code has it.  With no forced orientation and a viewport of
    positive width and height, the solver resolves landscape if and only if
    width/height > 1; at a ratio of exactly 1 it resolves portrait. *)
Theorem auto_orientation (w h : Q) (f : option string) :
  0 < w -> 0 < h -> falsy f = true ->
  let d := getOptimalDimensions w h f in
  (dim_orientation d = landscape <-> 1 < w / h)
  /\ (w / h == 1 -> dim_orientation d = portrait).
Proof.
  intros Hw Hh Hf. cbv zeta. rewrite orientation_resolved.
  unfold resolvesLandscape. rewrite (falsy_not_landscape f Hf), Hf. simpl.
  destruct (Qgtb_spec (w / h) 1) as [H|H]; split.
  - split; intro; [assumption|reflexivity].
  - intro E. rewrite E in H. lra.
  - split; intro H'; [discriminate H'|contradiction].
  - reflexivity.
Qed.

Lemma auto_orientation_witness :
  0 < 1000 /\ 0 < 1000 /\ falsy None = true /\
  let d := getOptimalDimensions 1000 1000 None in
  (dim_orientation d = landscape <-> 1 < 1000 / 1000)
  /\ (1000 / 1000 == 1 -> dim_orientation d = portrait).
Proof.
  split; [reflexivity|]. split; [reflexivity|]. split; [reflexivity|].
  apply (auto_orientation 1000 1000 None); reflexivity.
Defined.

(** C3 as stated fails at the tie: a square 1000 x 1000 viewport has
    aspect ratio exactly 1 and is resolved as portrait, not landscape. *)
Lemma square_viewport_is_portrait :
  1000 / 1000 == 1
  /\ dim_orientation (getOptimalDimensions 1000 1000 None) = portrait
  /\ ~ autoOrientationWithLandscapeTie 1000 1000.
Proof.
  split; [reflexivity|]. split; [reflexivity|].
  intros [_ H]. specialize (H eq_refl). discriminate H.
Qed.

(** ** The dimension solver in binary64 *)

Lemma targetAspectRatio_eq o : Binary64.targetAspectRatio o = Finite (ratio64 o).
Proof. destruct o; vm_compute; reflexivity. Qed.

Lemma ratio64_double o : isDouble (ratio64 o) = true.
Proof. destruct o; vm_compute; reflexivity. Qed.

Lemma ratio64_value o :
  ratio64 o == match o with
               | landscape => 2001599834386887 # 1125899906842624
               | portrait => 9 # 16
               end.
Proof. destruct o; vm_compute; reflexivity. Qed.

Lemma ratio64_bounds o : 1 # 2 <= ratio64 o /\ ratio64 o <= 2.
Proof. rewrite ratio64_value. destruct o; split; vm_compute; discriminate. Qed.

Lemma over_ratio64 o x :
  x / ratio64 o
  == x * match o with
         | landscape => 1125899906842624 # 2001599834386887
         | portrait => 16 # 9
         end.
Proof. rewrite ratio64_value. destruct o; field. Qed.

Lemma referenceAspect_value o :
  referenceAspect o == match o with landscape => 16 # 9 | portrait => 9 # 16 end.
Proof. destruct o; reflexivity. Qed.

Lemma solver_eq w h f :
  Binary64.getOptimalDimensions (Finite w) (Finite h) f
  = let r := Finite (ratio64 (resolvedOrientation w h f)) in
    let W := if fitsToHeight w h f then fmul (Finite h) r else Finite w in
    let H := if fitsToHeight w h f then Finite h else fdiv (Finite w) r in
    {| Binary64.dim_width := W;
       Binary64.dim_height := H;
       Binary64.dim_scale := fmin (fdiv W (Finite 1920)) (fdiv H (Finite 1080));
       Binary64.dim_orientation := resolvedOrientation w h f;
       Binary64.dim_offsetX := fdiv (fsub (Finite w) W) (Finite 2);
       Binary64.dim_offsetY := fdiv (fsub (Finite h) H) (Finite 2) |}.
Proof.
  unfold Binary64.getOptimalDimensions, fitsToHeight, resolvedOrientation.
  destruct (strictEq f "landscape"
            || (falsy f && fgt (fdiv (Finite w) (Finite h)) (Finite 1))).
  - change (Binary64.base_aspectRatio Binary64.BASE_DIMENSIONS)
      with (Binary64.targetAspectRatio landscape).
    rewrite targetAspectRatio_eq.
    destruct (fge (fdiv (Finite w) (Finite h)) (Finite (ratio64 landscape)));
      reflexivity.
  - change (fdiv (Binary64.base_height Binary64.BASE_DIMENSIONS)
                 (Binary64.base_width Binary64.BASE_DIMENSIONS))
      with (Binary64.targetAspectRatio portrait).
    rewrite targetAspectRatio_eq.
    destruct (fge (fdiv (Finite w) (Finite h)) (Finite (ratio64 portrait)));
      reflexivity.
Qed.

Section TargetRatio.
Variable r : Q.
Hypothesis r_double : isDouble r = true.
Hypothesis r_bounds : 1 # 2 <= r /\ r <= 2.

(** The test [currentAspectRatio >= r] fails only when the exact quotient
    is below [r]; the fit to the width is then no higher than the
    viewport. *)
Lemma fit_to_width_branch w h :
  0 < w -> 0 < h -> isDouble h = true ->
  fge (fdiv (Finite w) (Finite h)) (Finite r) = false ->
  w < h * r
  /\ fdiv (Finite w) (Finite r) = Finite (fl (w / r))
  /\ 0 <= fl (w / r) /\ fl (w / r) <= h.
Proof.
  intros Hw Hh Dh T.
  apply isDouble_spec in r_double. destruct r_double as [Fr Br].
  rewrite fdiv_finite in T by lra.
  assert (Hq : 0 < w / h) by (apply Qlt_shift_div_l; lra).
  assert (Hlt : w < h * r).
  { destruct (Qlt_le_dec w (h * r)) as [L|L]; [exact L|exfalso].
    assert (Lq : r <= w / h) by (apply Qle_shift_div_l; lra).
    apply fl_le in Lq. rewrite Fr in Lq.
    destruct (round_positive_cases (w / h) Hq) as [E|E]; rewrite E in T.
    - unfold fge, fle in T. destruct (Qleb_spec r (fl (w / h))); [discriminate|contradiction].
    - discriminate T. }
  split; [exact Hlt|].
  assert (Lr : w / r <= h) by (apply Qle_shift_div_r; lra).
  assert (L0 : 0 <= w / r) by (apply Qle_shift_div_l; lra).
  destruct (round_between (w / r) 0 h isDouble_0 Dh L0 Lr) as [E [B1 B2]].
  rewrite fdiv_finite by lra. rewrite E. repeat split; assumption.
Qed.

(** When the test holds, either the viewport is at least as wide as the
    target shape, or the quotient was rounded up onto the ratio. *)
Lemma fit_to_height_branch w h :
  0 < w -> 0 < h ->
  fge (fdiv (Finite w) (Finite h)) (Finite r) = true ->
  h * r <= w
  \/ (w < h * r /\ fl (w / h) == r
      /\ feq (fdiv (Finite w) (Finite h)) (Finite r) = true).
Proof.
  intros Hw Hh T.
  apply isDouble_spec in r_double. destruct r_double as [Fr Br].
  destruct (Qlt_le_dec w (h * r)) as [L|L]; [right|left; exact L].
  rewrite fdiv_finite in T |- * by lra.
  assert (Hq : 0 < w / h) by (apply Qlt_shift_div_l; lra).
  assert (Lq : w / h <= r) by (apply Qle_shift_div_r; lra).
  apply fl_le in Lq. rewrite Fr in Lq.
  assert (Bq : Qabs (fl (w / h)) < pow2 1024).
  { assert (0 <= fl (w / h)) by (apply fl_nonneg; lra).
    rewrite Qabs_pos by assumption.
    apply Qle_lt_trans with 2; [lra|reflexivity]. }
  rewrite (round_finite _ Bq) in T |- *.
  unfold fge, fle in T. destruct (Qleb_spec r (fl (w / h))) as [G|G]; [|discriminate].
  assert (E : fl (w / h) == r) by lra.
  repeat split; [exact L|exact E|]. unfold feq. apply Qeq_bool_iff. exact E.
Qed.

Lemma fit_to_height_exact w h :
  0 < h -> isDouble w = true -> h * r <= w ->
  fmul (Finite h) (Finite r) = Finite (fl (h * r))
  /\ 0 <= fl (h * r) /\ fl (h * r) <= w.
Proof.
  intros Hh Dw L.
  assert (L0 : 0 <= h * r) by nra.
  destruct (round_between (h * r) 0 w isDouble_0 Dw L0 L) as [E [B1 B2]].
  unfold fmul. rewrite E. repeat split; assumption.
Qed.

End TargetRatio.

(** Half the difference between a viewport side and a fitted side that is
    no larger is a finite double that is not negative. *)
Lemma offset_nonneg v V :
  isDouble v = true -> 0 <= V -> V <= v ->
  exists Y, fdiv (fsub (Finite v) (Finite V)) (Finite 2) = Finite Y /\ 0 <= Y.
Proof.
  intros Dv H0 H1.
  assert (L0 : 0 <= v - V) by lra. assert (L1 : v - V <= v) by lra.
  destruct (round_between (v - V) 0 v isDouble_0 Dv L0 L1) as [E [B1 B2]].
  unfold fsub. rewrite E. rewrite fdiv_finite by discriminate.
  assert (M0 : 0 <= fl (v - V) / 2) by (apply Qle_shift_div_l; lra).
  assert (M1 : fl (v - V) / 2 <= v) by (apply Qle_shift_div_r; lra).
  destruct (round_between _ 0 v isDouble_0 Dv M0 M1) as [E2 [C1 C2]].
  rewrite E2. eexists. split; [reflexivity|exact C1].
Qed.

Lemma offset_zero v :
  isDouble v = true ->
  exists Y, fdiv (fsub (Finite v) (Finite v)) (Finite 2) = Finite Y /\ Y == 0.
Proof.
  intro Dv. unfold fsub.
  assert (Z0 : v - v == 0) by ring.
  assert (F0 : fl (v - v) == 0) by (apply fl_zero; exact Z0).
  assert (B : Qabs (fl (v - v)) < pow2 1024) by (rewrite F0; reflexivity).
  rewrite (round_finite _ B). rewrite fdiv_finite by discriminate.
  assert (Z1 : fl (v - v) / 2 == 0) by (rewrite F0; reflexivity).
  assert (F1 : fl (fl (v - v) / 2) == 0) by (apply fl_zero; exact Z1).
  assert (B1 : Qabs (fl (fl (v - v) / 2)) < pow2 1024) by (rewrite F1; reflexivity).
  rewrite (round_finite _ B1). eexists. split; [reflexivity|exact F1].
Qed.

(** Half the distance from a viewport side to a fitted side that is zero. *)
Lemma offset_of_zero v V :
  isDouble v = true -> V == 0 ->
  exists X, fdiv (fsub (Finite v) (Finite V)) (Finite 2) = Finite X
            /\ X == fl (v / 2).
Proof.
  intros D Z. pose proof D as D'. apply isDouble_spec in D'. destruct D' as [F B].
  assert (E : v - V == v) by (rewrite Z; ring).
  assert (Ef : fl (v - V) == v) by (rewrite (fl_comp _ _ E); exact F).
  unfold fsub. rewrite (round_within v (v - V) D) by (rewrite E; lra).
  rewrite fdiv_finite by discriminate.
  assert (E2 : fl (v - V) / 2 == v / 2) by (rewrite Ef; reflexivity).
  rewrite (round_within v (fl (v - V) / 2) D) by (rewrite E2; apply half_within).
  eexists. split; [reflexivity|]. apply fl_comp. exact E2.
Qed.

(** When the quotient was rounded up onto the ratio, the fit to the height
    is wider than the viewport by at most 2^-51 of its width. *)
Lemma fit_to_height_rounded r w h :
  1 # 2 <= r -> r <= 2 -> 0 < h ->
  pow2 (-1000) <= w -> w <= pow2 1000 ->
  w < h * r -> fl (w / h) == r ->
  exists W X,
    W = fl (h * r)
    /\ fmul (Finite h) (Finite r) = Finite W
    /\ fdiv (fsub (Finite w) (Finite W)) (Finite 2) = Finite X
    /\ 0 <= W /\ W <= w * (1 + pow2 (-51))
    /\ - (w * pow2 (-51)) <= X.
Proof.
  intros R1 R2 Hh W1 W2 L E.
  assert (Hw : 0 < w) by (pose proof (pow2_pos (-1000)); lra).
  assert (Hq : 0 < w / h) by (apply Qlt_shift_div_l; lra).
  pose proof (fl_relative_error (w / h) (normal_of_rounded _ _ Hq R1 E)) as B.
  rewrite (Qabs_pos (w / h)) in B by lra.
  apply Qabs_Qle_condition in B. destruct B as [_ B].
  assert (B' : r * h <= (w / h + pow2 (-53) * (w / h)) * h).
  { apply Qmult_le_compat_r; [|lra]. rewrite <- E. lra. }
  assert (Eq : (w / h + pow2 (-53) * (w / h)) * h == w + pow2 (-53) * w)
    by (field; lra).
  rewrite Eq in B'. clear Eq B.
  assert (Y0 : 0 <= h * r) by nra.
  assert (Ya : h * r <= w + pow2 (-53) * w) by lra.
  assert (A0 : 0 <= w + pow2 (-53) * w) by (pose proof (pow2_pos (-53)); nra).
  pose proof (fl_above (h * r) _ A0 Ya) as U.
  pose proof (fl_nonneg (h * r) Y0) as U0.
  pose proof (tiny_below w W1) as T.
  pose proof (pow2_pos (-1075)) as T0.
  pose proof pow2_1000_small as Big.
  set (W := fl (h * r)) in *.
  assert (Wb : W <= w * (1 + pow2 (-51))).
  { rewrite pow2_51. rewrite eps_value in U. rewrite pow2_75 in T. lra. }
  exists W.
  assert (Z1 : - (w * pow2 (-51)) <= w - W) by lra.
  assert (Z2 : w - W <= w) by lra.
  assert (A1 : 0 <= w * pow2 (-51)) by (pose proof (pow2_pos (-51)); nra).
  pose proof (fl_below (w - W) _ A1 Z1) as V1.
  pose proof (fl_above (w - W) w (Qlt_le_weak _ _ Hw) Z2) as V2.
  set (Z := fl (w - W)) in *.
  assert (H1 : - ((w * pow2 (-51) + pow2 (-53) * (w * pow2 (-51)) + pow2 (-1075)) / 2)
               <= Z / 2).
  { apply Qle_shift_div_l; [reflexivity|].
    assert (Ex : - ((w * pow2 (-51) + pow2 (-53) * (w * pow2 (-51)) + pow2 (-1075)) / 2) * 2
                 == - (w * pow2 (-51) + pow2 (-53) * (w * pow2 (-51)) + pow2 (-1075)))
      by field.
    rewrite Ex. exact V1. }
  assert (H2 : Z / 2 <= w).
  { apply Qle_shift_div_r; [reflexivity|].
    rewrite eps_value in V2. rewrite pow2_75 in T. lra. }
  assert (A2 : 0 <= (w * pow2 (-51) + pow2 (-53) * (w * pow2 (-51)) + pow2 (-1075)) / 2).
  { apply Qle_shift_div_l; [reflexivity|].
    rewrite pow2_51, eps_value in *. lra. }
  pose proof (fl_below (Z / 2) _ A2 H1) as X1.
  pose proof (fl_above (Z / 2) w (Qlt_le_weak _ _ Hw) H2) as X2.
  exists (fl (Z / 2)).
  assert (EW : fmul (Finite h) (Finite r) = Finite W).
  { unfold fmul. apply round_bounded with (w * 2).
    - fold W. rewrite Qabs_pos by exact U0. rewrite pow2_51 in Wb. lra.
    - lra. }
  rewrite EW.
  assert (EZ : fsub (Finite w) (Finite W) = Finite Z).
  { unfold fsub. apply round_bounded with (w * 2).
    - fold Z. apply Qabs_Qle_condition.
      rewrite pow2_51, eps_value in V1. rewrite eps_value in V2.
      rewrite pow2_75 in T. split; lra.
    - lra. }
  rewrite EZ. rewrite fdiv_finite by discriminate.
  assert (EX : round (Z / 2) = Finite (fl (Z / 2))).
  { apply round_bounded with (w * 2).
    - apply Qabs_Qle_condition.
      assert (Ex : (w * pow2 (-51) + pow2 (-53) * (w * pow2 (-51)) + pow2 (-1075)) / 2
                   == (w * pow2 (-51) + pow2 (-53) * (w * pow2 (-51)) + pow2 (-1075)) * (1 # 2))
        by field.
      rewrite Ex in X1.
      rewrite pow2_51, eps_value in X1. rewrite eps_value in X2.
      rewrite pow2_75 in T. split; lra.
    - lra. }
  rewrite EX. split; [reflexivity|].
  repeat split; try reflexivity; try assumption.
  assert (Ex : (w * pow2 (-51) + pow2 (-53) * (w * pow2 (-51)) + pow2 (-1075)) / 2
               == (w * pow2 (-51) + pow2 (-53) * (w * pow2 (-51)) + pow2 (-1075)) * (1 # 2))
    by field.
  rewrite Ex in X1.
  rewrite pow2_51, eps_value in X1. rewrite pow2_51. rewrite pow2_75 in T. lra.
Qed.

(** The two sides of the fit, in a viewport whose sides lie between
    2^-1000 and 2^1000: one side is the viewport's, the other is one
    rounded product or quotient away. *)
Lemma fit_sides w h f :
  pow2 (-1000) <= w -> w <= pow2 1000 ->
  pow2 (-1000) <= h -> h <= pow2 1000 ->
  let d := Binary64.getOptimalDimensions (Finite w) (Finite h) f in
  let r := ratio64 (Binary64.dim_orientation d) in
  exists W H,
    Binary64.dim_width d = Finite W /\ Binary64.dim_height d = Finite H
    /\ ((W = fl (h * r) /\ H = h) \/ (W = w /\ H = fl (w / r))).
Proof.
  intros W1 W2 H1 H2. cbv zeta. rewrite solver_eq. cbv zeta.
  cbn [Binary64.dim_width Binary64.dim_height Binary64.dim_orientation].
  set (o := resolvedOrientation w h f).
  pose proof (ratio64_bounds o) as [R1 R2].
  pose proof (pow2_pos (-1000)) as P. pose proof pow2_1000_small as Big.
  pose proof (pow2_pos (-1075)) as T0.
  pose proof (tiny_below w W1) as Tw. pose proof (tiny_below h H1) as Th.
  rewrite pow2_75 in Tw, Th.
  destruct (fitsToHeight w h f).
  - exists (fl (h * ratio64 o)), h. split; [|split; [reflexivity|left; split; reflexivity]].
    unfold fmul. apply round_bounded with (h * 4); [|lra].
    assert (Y0 : 0 <= h * ratio64 o) by nra.
    destruct (fl_near _ Y0) as [N1 N2]. rewrite eps_value in N1, N2.
    rewrite Qabs_pos by (apply fl_nonneg; exact Y0).
    assert (h * ratio64 o <= h * 2) by nra. lra.
  - exists w, (fl (w / ratio64 o)). split; [reflexivity|split; [|right; split; reflexivity]].
    rewrite fdiv_finite by lra. apply round_bounded with (w * 4); [|lra].
    assert (Y0 : 0 <= w / ratio64 o) by (apply Qle_shift_div_l; lra).
    destruct (fl_near _ Y0) as [N1 N2]. rewrite eps_value in N1, N2.
    rewrite Qabs_pos by (apply fl_nonneg; exact Y0).
    assert (w / ratio64 o <= w * 2) by (apply Qle_shift_div_r; nra). lra.
Qed.

(** A quotient rounded onto the ratio is less than 2^-53 below it. *)
Lemma rounded_quotient_near r w h :
  1 # 2 <= r -> 0 < w -> 0 < h -> fl (w / h) == r ->
  h * r <= w + pow2 (-53) * w.
Proof.
  intros R1 Hw Hh E.
  assert (Hq : 0 < w / h) by (apply Qlt_shift_div_l; lra).
  pose proof (fl_relative_error (w / h) (normal_of_rounded _ _ Hq R1 E)) as B.
  rewrite (Qabs_pos (w / h)) in B by lra.
  apply Qabs_Qle_condition in B. destruct B as [_ B].
  assert (B' : r * h <= (w / h + pow2 (-53) * (w / h)) * h).
  { apply Qmult_le_compat_r; [|lra]. rewrite <- E. lra. }
  assert (Eq : (w / h + pow2 (-53) * (w / h)) * h == w + pow2 (-53) * w)
    by (field; lra).
  rewrite Eq in B'. lra.
Qed.

(** The two sides of the fit with the test that chose them: fitting to the
    height, the viewport is at least as wide as the target shape but for
    2^-53; fitting to the width, it is narrower. *)
Lemma fit_branches w h f :
  isDouble w = true -> isDouble h = true ->
  pow2 (-1000) <= w -> w <= pow2 1000 ->
  pow2 (-1000) <= h -> h <= pow2 1000 ->
  let d := Binary64.getOptimalDimensions (Finite w) (Finite h) f in
  let r := ratio64 (Binary64.dim_orientation d) in
  exists W H,
    Binary64.dim_width d = Finite W /\ Binary64.dim_height d = Finite H
    /\ Binary64.dim_scale d
       = fmin (fdiv (Finite W) (Finite 1920)) (fdiv (Finite H) (Finite 1080))
    /\ ((W = fl (h * r) /\ H = h /\ h * r <= w + pow2 (-53) * w)
        \/ (W = w /\ H = fl (w / r) /\ w < h * r)).
Proof.
  intros Dw Dh W1 W2 H1 H2. cbv zeta.
  destruct (fit_sides w h f W1 W2 H1 H2) as [W [H [EW [EH C]]]].
  cbv zeta in C. exists W, H. split; [exact EW|]. split; [exact EH|].
  split.
  { rewrite <- EW, <- EH. rewrite solver_eq. reflexivity. }
  revert EW EH C. rewrite solver_eq. cbv zeta.
  cbn [Binary64.dim_width Binary64.dim_height Binary64.dim_orientation].
  set (o := resolvedOrientation w h f).
  pose proof (ratio64_double o) as Dr.
  pose proof (ratio64_bounds o) as R. destruct R as [R1 R2].
  assert (R := conj R1 R2).
  pose proof (pow2_pos (-1000)) as P. pose proof (pow2_pos (-53)) as P53.
  assert (Hw : 0 < w) by lra. assert (Hh : 0 < h) by lra.
  unfold fitsToHeight. fold o.
  destruct (fge (fdiv (Finite w) (Finite h)) (Finite (ratio64 o))) eqn:T;
    intros EW EH C.
  - left. injection EH as EH.
    destruct (fit_to_height_branch (ratio64 o) Dr R w h Hw Hh T)
      as [L|[L [E _]]].
    + destruct (fit_to_height_exact (ratio64 o) R w h Hh Dw L) as [EW' _].
      rewrite EW' in EW. injection EW as EW.
      repeat split; [symmetry; exact EW|symmetry; exact EH|nra].
    + pose proof (rounded_quotient_near _ w h R1 Hw Hh E) as N.
      destruct (fit_to_height_rounded (ratio64 o) w h R1 R2 Hh W1 W2 L E)
        as [W' [X [EW1 [EW2 _]]]].
      rewrite EW2 in EW. injection EW as EW. rewrite EW1 in EW.
      repeat split; [symmetry; exact EW|symmetry; exact EH|exact N].
  - right. injection EW as EW.
    destruct (fit_to_width_branch (ratio64 o) Dr R w h Hw Hh Dh T)
      as [L [EH' _]].
    rewrite EH' in EH. injection EH as EH.
    repeat split; [symmetry; exact EW|symmetry; exact EH|exact L].
Qed.

(** A quotient by a positive whole number of a value that is not negative
    and below 2^1001. *)
Lemma quotient_finite (x : Q) (p : positive) :
  0 <= x -> x <= pow2 1000 * 2 ->
  fdiv (Finite x) (Finite (Zpos p # 1)) = Finite (fl (x / (Zpos p # 1)))
  /\ x * (1 # p) - pow2 (-53) * (x * (1 # p)) - pow2 (-1075)
     <= fl (x / (Zpos p # 1))
  /\ fl (x / (Zpos p # 1))
     <= x * (1 # p) + pow2 (-53) * (x * (1 # p)) + pow2 (-1075).
Proof.
  intros H0 H1. pose proof pow2_1000_small as Big.
  pose proof (pow2_pos (-1075)) as T0.
  assert (T1 : pow2 (-1075) <= 1) by (vm_compute; discriminate).
  assert (Q0 : 0 <= x / (Z.pos p # 1)).
  { apply Qle_shift_div_l; [reflexivity|lra]. }
  assert (Q1 : x / (Z.pos p # 1) <= x).
  { apply Qle_shift_div_r; [reflexivity|].
    assert (C1 : 1 <= Z.pos p # 1) by (unfold Qle; simpl; lia).
    generalize dependent (Z.pos p # 1). intros c _ C1.
    assert (C2 : 0 <= x * (c - 1)) by (apply Qmult_le_0_compat; lra).
    lra. }
  destruct (fl_near _ Q0) as [N1 N2].
  assert (P1k : 2 <= pow2 1000) by (vm_compute; discriminate).
  split.
  - rewrite fdiv_finite by discriminate.
    apply round_bounded with (pow2 1000 * 3); [|lra].
    rewrite Qabs_pos by (apply fl_nonneg; exact Q0).
    rewrite eps_value in N2. lra.
  - rewrite <- (over_positive x p). split; assumption.
Qed.

Lemma zero_quotient V (p : positive) :
  V == 0 ->
  exists S, fdiv (Finite V) (Finite (Zpos p # 1)) = Finite S /\ S == 0.
Proof.
  intro Z. rewrite fdiv_finite by discriminate.
  assert (E : V / (Zpos p # 1) == 0) by (rewrite Z; reflexivity).
  destruct (round_zero _ E) as [R F]. rewrite R. eexists. split; [reflexivity|exact F].
Qed.

Lemma fmin_zero a b :
  a == 0 -> b == 0 -> fmin (Finite a) (Finite b) = Finite a.
Proof.
  intros A B. unfold fmin, fle.
  destruct (Qleb_spec a b); [reflexivity|lra].
Qed.

(** The test [currentAspectRatio > 1] on doubles decides [width > height]
    exactly. *)
Lemma isLandscape_exact w h :
  0 < w -> 0 < h -> isDouble w = true -> isDouble h = true ->
  fgt (fdiv (Finite w) (Finite h)) (Finite 1) = Qltb h w.
Proof.
  intros Hw Hh Dw Dh.
  apply isDouble_spec in Dw. apply isDouble_spec in Dh.
  destruct Dw as [Fw _]. destruct Dh as [Fh _].
  rewrite fdiv_finite by lra.
  assert (Hq : 0 < w / h) by (apply Qlt_shift_div_l; lra).
  destruct (Qltb_spec h w) as [L|L].
  - pose proof (double_gap w h Hh L Fw Fh) as G.
    assert (Gq : 1 + pow2 (-53) < w / h).
    { apply Qlt_shift_div_l; [exact Hh|]. lra. }
    apply fl_above_one in Gq.
    destruct (round_positive_cases _ Hq) as [E|E]; rewrite E; [|reflexivity].
    unfold fgt, fle. destruct (Qleb_spec (fl (w / h)) 1); [lra|reflexivity].
  - assert (Lq : w / h <= 1) by (apply Qle_shift_div_r; lra).
    apply fl_le in Lq. rewrite fl_one in Lq.
    rewrite round_finite.
    + unfold fgt, fle. destruct (Qleb_spec (fl (w / h)) 1); [reflexivity|contradiction].
    + rewrite Qabs_pos by (apply fl_nonneg; lra).
      apply Qle_lt_trans with 1; [exact Lq|reflexivity].
Qed.




(** C10, as the code has it.  For a viewport whose sides lie between
    2^-1000 and 2^1000 and every orientation preference, the fitted
    rectangle has the aspect ratio of the reference design for the resolved
    orientation up to rounding: width differs from height * (1920/1080) in
    landscape, from height * (1080/1920) in portrait, by at most 2^-51 of
    the width. *)
Theorem fit_keeps_reference_aspect_up_to_rounding (w h : Q) (f : option string) :
  pow2 (-1000) <= w -> w <= pow2 1000 ->
  pow2 (-1000) <= h -> h <= pow2 1000 ->
  let d := Binary64.getOptimalDimensions (Finite w) (Finite h) f in
  exists W H,
    Binary64.dim_width d = Finite W /\ Binary64.dim_height d = Finite H
    /\ Qabs (W - H * referenceAspect (Binary64.dim_orientation d)) <= pow2 (-51) * W.
Proof.
  intros W1 W2 H1 H2. cbv zeta.
  destruct (fit_sides w h f W1 W2 H1 H2) as [W [H [EW [EH C]]]].
  cbv zeta in C. exists W, H. split; [exact EW|]. split; [exact EH|].
  pose proof (pow2_pos (-1000)) as P.
  pose proof (pow2_pos (-1075)) as T0.
  pose proof (tiny_below w W1) as Tw. pose proof (tiny_below h H1) as Th.
  rewrite pow2_75 in Tw, Th.
  rewrite referenceAspect_value, pow2_51.
  set (o := Binary64.dim_orientation (Binary64.getOptimalDimensions (Finite w) (Finite h) f)) in *.
  pose proof (ratio64_bounds o) as [R1 R2].
  destruct C as [[-> ->]|[-> ->]].
  - assert (Y0 : 0 <= h * ratio64 o) by nra.
    destruct (fl_near _ Y0) as [N1 N2]. rewrite eps_value in N1, N2.
    set (W := fl (h * ratio64 o)) in *. clearbody W.
    rewrite ratio64_value in N1, N2.
    apply Qabs_Qle_condition. destruct o; split; lra.
  - assert (Y0 : 0 <= w / ratio64 o) by (apply Qle_shift_div_l; lra).
    destruct (fl_near _ Y0) as [N1 N2]. rewrite eps_value in N1, N2.
    set (H := fl (w / ratio64 o)) in *. clearbody H.
    rewrite over_ratio64 in N1, N2.
    apply Qabs_Qle_condition. destruct o; split; lra.
Qed.

Lemma fit_keeps_reference_aspect_up_to_rounding_witness :
  let w := fl 668.5714285714286 in
  let h := fl 1446.857142857143 in
  pow2 (-1000) <= w /\ w <= pow2 1000 /\ pow2 (-1000) <= h /\ h <= pow2 1000 /\
  let d := Binary64.getOptimalDimensions (Finite w) (Finite h) None in
  exists W H,
    Binary64.dim_width d = Finite W /\ Binary64.dim_height d = Finite H
    /\ Qabs (W - H * referenceAspect (Binary64.dim_orientation d))
       <= pow2 (-51) * W.
Proof.
  cbv zeta.
  split; [vm_compute; discriminate|]. split; [vm_compute; discriminate|].
  split; [vm_compute; discriminate|]. split; [vm_compute; discriminate|].
  apply (fit_keeps_reference_aspect_up_to_rounding
           (fl 668.5714285714286) (fl 1446.857142857143) None);
    vm_compute; discriminate.
Defined.

(** C10 as stated fails: for the viewport 668.5714285714286 x
    1446.857142857143 the fit is to the width, the height is the rounded
    quotient 668.5714285714286 / 0.5625 = 1188.5714285714284, and
    height * (1080/1920) is below the width, in exact arithmetic and as
    the double product 668.5714285714285. *)
Lemma fit_aspect_is_rounded :
  let w := round 668.5714285714286 in
  let h := round 1446.857142857143 in
  let d := Binary64.getOptimalDimensions w h None in
  Binary64.dim_orientation d = portrait
  /\ Binary64.dim_width d = w
  /\ feq (fmul (Binary64.dim_height d) (Finite (1080 / 1920)))
         (Binary64.dim_width d) = false
  /\ exists W H,
       Binary64.dim_width d = Finite W /\ Binary64.dim_height d = Finite H
       /\ H * referenceAspect portrait < W.
Proof.
  cbv zeta. split; [vm_compute; reflexivity|]. split; [vm_compute; reflexivity|].
  split; [vm_compute; reflexivity|].
  eexists. eexists. split; [vm_compute; reflexivity|].
  split; [vm_compute; reflexivity|]. vm_compute. reflexivity.
Qed.

(** C2, as the code has it.  The scale is Math.min(fittedWidth / 1920,
    fittedHeight / 1080), taken against the reference rectangle as designed
    in both orientations.  For a viewport whose sides lie between 2^-1000
    and 2^1000, in portrait the scale is the quotient fittedWidth / 1920,
    and the rotated quotient fittedWidth / 1080 is greater. *)
Theorem scale_against_reference_as_designed (w h : Q) (f : option string) :
  pow2 (-1000) <= w -> w <= pow2 1000 ->
  pow2 (-1000) <= h -> h <= pow2 1000 ->
  let d := Binary64.getOptimalDimensions (Finite w) (Finite h) f in
  Binary64.dim_scale d
  = fmin (fdiv (Binary64.dim_width d) (Binary64.base_width Binary64.BASE_DIMENSIONS))
         (fdiv (Binary64.dim_height d) (Binary64.base_height Binary64.BASE_DIMENSIONS))
  /\ (Binary64.dim_orientation d = portrait ->
      Binary64.dim_scale d
      = fdiv (Binary64.dim_width d)
          (Binary64.base_width Binary64.BASE_DIMENSIONS)
      /\ fgt (fdiv (Binary64.dim_width d)
                (Binary64.base_height Binary64.BASE_DIMENSIONS))
             (Binary64.dim_scale d)
         = true).
Proof.
  intros W1 W2 H1 H2. cbv zeta.
  assert (S : Binary64.dim_scale (Binary64.getOptimalDimensions (Finite w) (Finite h) f)
              = fmin (fdiv (Binary64.dim_width (Binary64.getOptimalDimensions (Finite w) (Finite h) f))
                        (Binary64.base_width Binary64.BASE_DIMENSIONS))
                     (fdiv (Binary64.dim_height (Binary64.getOptimalDimensions (Finite w) (Finite h) f))
                        (Binary64.base_height Binary64.BASE_DIMENSIONS))).
  { rewrite solver_eq. reflexivity. }
  split; [exact S|]. intro Ho. rewrite S.
  destruct (fit_sides w h f W1 W2 H1 H2) as [W [H [EW [EH C]]]].
  cbv zeta in C. rewrite Ho in C. rewrite EW, EH.
  change (Binary64.base_width Binary64.BASE_DIMENSIONS) with (Finite (1920 # 1)).
  change (Binary64.base_height Binary64.BASE_DIMENSIONS) with (Finite (1080 # 1)).
  pose proof (pow2_pos (-1000)) as P.
  pose proof (pow2_pos (-1075)) as T0.
  pose proof (tiny_below w W1) as Tw. pose proof (tiny_below h H1) as Th.
  rewrite pow2_75 in Tw, Th.
  assert (B : 0 <= W /\ W <= pow2 1000 * 2 /\ 0 <= H /\ H <= pow2 1000 * 2
              /\ W * 1080 <= H * 1920
              /\ pow2 (-1075) <= (1 # 18889465931478580854784) * W).
  { destruct C as [[-> ->]|[-> ->]].
    - assert (Y0 : 0 <= h * ratio64 portrait).
      { rewrite ratio64_value. lra. }
      destruct (fl_near _ Y0) as [N1 N2]. rewrite eps_value in N1, N2.
      set (V := fl (h * ratio64 portrait)) in *. clearbody V.
      rewrite ratio64_value in N1, N2. repeat split; lra.
    - assert (Y0 : 0 <= w / ratio64 portrait).
      { rewrite over_ratio64. lra. }
      destruct (fl_near _ Y0) as [N1 N2]. rewrite eps_value in N1, N2.
      set (V := fl (w / ratio64 portrait)) in *. clearbody V.
      rewrite over_ratio64 in N1, N2. repeat split; lra. }
  destruct B as [W0 [Wb [H0 [Hb [L T]]]]].
  destruct (quotient_finite W 1920 W0 Wb) as [Ea [A1 A2]].
  destruct (quotient_finite H 1080 H0 Hb) as [Eb [B1 B2]].
  destruct (quotient_finite W 1080 W0 Wb) as [Ec [C1 C2]].
  rewrite Ea, Eb, Ec.
  assert (Lab : fl (W / (1920 # 1)) <= fl (H / (1080 # 1))).
  { apply fl_le. rewrite !over_positive. lra. }
  assert (Lac : fl (W / (1920 # 1)) < fl (W / (1080 # 1))).
  { rewrite eps_value in A2, C1. lra. }
  assert (M : fmin (Finite (fl (W / (1920 # 1)))) (Finite (fl (H / (1080 # 1))))
              = Finite (fl (W / (1920 # 1)))).
  { unfold fmin, fle. destruct (Qleb_spec (fl (W / (1920 # 1))) (fl (H / (1080 # 1))));
      [reflexivity|contradiction]. }
  rewrite M. split; [reflexivity|].
  unfold fgt, fle.
  destruct (Qleb_spec (fl (W / (1080 # 1))) (fl (W / (1920 # 1)))); [lra|reflexivity].
Qed.

Lemma scale_against_reference_as_designed_witness :
  pow2 (-1000) <= 1080 /\ 1080 <= pow2 1000
  /\ pow2 (-1000) <= 1920 /\ 1920 <= pow2 1000 /\
  let d := Binary64.getOptimalDimensions (Finite 1080) (Finite 1920) None in
  Binary64.dim_scale d
  = fmin (fdiv (Binary64.dim_width d)
            (Binary64.base_width Binary64.BASE_DIMENSIONS))
         (fdiv (Binary64.dim_height d)
            (Binary64.base_height Binary64.BASE_DIMENSIONS))
  /\ (Binary64.dim_orientation d = portrait ->
      Binary64.dim_scale d
      = fdiv (Binary64.dim_width d)
          (Binary64.base_width Binary64.BASE_DIMENSIONS)
      /\ fgt (fdiv (Binary64.dim_width d)
                (Binary64.base_height Binary64.BASE_DIMENSIONS))
             (Binary64.dim_scale d)
         = true).
Proof.
  split; [vm_compute; discriminate|]. split; [vm_compute; discriminate|].
  split; [vm_compute; discriminate|]. split; [vm_compute; discriminate|].
  apply (scale_against_reference_as_designed 1080 1920 None);
    vm_compute; discriminate.
Defined.

(** C2 as stated fails in portrait: for the 1080 x 1920 viewport the fit is
    the whole viewport and the scale is 0.5625, while the rotated
    comparison fittedWidth / referenceDesign.height gives 1. *)
Lemma portrait_scale_is_not_rotated :
  let d := Binary64.getOptimalDimensions (Finite 1080) (Finite 1920) None in
  Binary64.dim_orientation d = portrait
  /\ feq (Binary64.dim_width d) (Finite 1080) = true
  /\ feq (Binary64.dim_height d) (Finite 1920) = true
  /\ feq (Binary64.dim_scale d) (Finite 0.5625) = true
  /\ feq (rotatedReferenceScale d) (Finite 1) = true
  /\ feq (Binary64.dim_scale d) (rotatedReferenceScale d) = false
  /\ feq (Binary64.dim_scale d)
         (fdiv (Binary64.dim_width d)
            (Binary64.base_height Binary64.BASE_DIMENSIONS)) = false.
Proof. vm_compute. repeat split. Qed.

(** C9, as the code has it.  The solver validates nothing and has no
    failure result; for a viewport with a side that is zero or negative it
    returns an ordinary record.  With a width of zero, or a height of zero
    and a positive width, that is the empty rectangle: width, height and
    scale 0, offsets half the viewport sides, landscape when it is forced
    or, with nothing forced, when the width is positive.  With one side
    negative and the other not, or a negative width over a zero height, it
    is the fit to the width: width the viewport width, height the quotient
    width / ratio, offsetX 0, portrait unless landscape is forced.  With
    two negative sides, width and height are not positive.  A zero side is
    +0, as the sizes a browser reports are. *)
Theorem degenerate_viewport_is_fitted (w h : Q) (f : option string) :
  isDouble w = true -> isDouble h = true ->
  let d := Binary64.getOptimalDimensions (Finite w) (Finite h) f in
  (w == 0 \/ (h == 0 /\ 0 < w) ->
   Binary64.dim_orientation d
   = (if strictEq f "landscape" || (falsy f && Qltb 0 w)
      then landscape else portrait)
   /\ exists W H S X Y,
        Binary64.dim_width d = Finite W /\ Binary64.dim_height d = Finite H
        /\ Binary64.dim_scale d = Finite S
        /\ Binary64.dim_offsetX d = Finite X /\ Binary64.dim_offsetY d = Finite Y
        /\ W == 0 /\ H == 0 /\ S == 0
        /\ X == fl (w / 2) /\ Y == fl (h / 2))
  /\ ((w < 0 /\ 0 <= h) \/ (0 < w /\ h < 0) ->
      Binary64.dim_orientation d
      = (if strictEq f "landscape" then landscape else portrait)
      /\ Binary64.dim_width d = Finite w
      /\ Binary64.dim_height d
         = fdiv (Finite w) (Binary64.targetAspectRatio (Binary64.dim_orientation d))
      /\ exists X, Binary64.dim_offsetX d = Finite X /\ X == 0)
  /\ (w < 0 -> h < 0 ->
      fle (Binary64.dim_width d) (Finite 0) = true
      /\ fle (Binary64.dim_height d) (Finite 0) = true).
Proof.
  intros Dw Dh. cbv zeta. rewrite solver_eq. cbv zeta.
  cbn [Binary64.dim_width Binary64.dim_height Binary64.dim_scale
       Binary64.dim_offsetX Binary64.dim_offsetY Binary64.dim_orientation].
  split; [|split].
  - (* the empty rectangle *)
    intros [Zw|[Zh Pw]].
    + (* width zero *)
      assert (Nw : Qltb 0 w = false).
      { destruct (Qltb_spec 0 w); [lra|reflexivity]. }
      assert (Rho : fgt (fdiv (Finite w) (Finite h)) (Finite 1) = false
                    /\ forall o, fge (fdiv (Finite w) (Finite h)) (Finite (ratio64 o)) = false).
      { unfold fdiv. destruct (Qeq_bool h 0) eqn:Eh.
        - apply Qeq_bool_iff in Zw. rewrite Zw. split; [reflexivity|intro; reflexivity].
        - assert (E : w / h == 0) by (rewrite Zw; reflexivity).
          destruct (round_zero _ E) as [R F]. rewrite R. split.
          + unfold fgt, fle. destruct (Qleb_spec (fl (w / h)) 1); [reflexivity|lra].
          + intro o. pose proof (ratio64_bounds o) as [R1 _].
            unfold fge, fle. destruct (Qleb_spec (ratio64 o) (fl (w / h))); [lra|reflexivity]. }
      destruct Rho as [G T].
      assert (Eo : resolvedOrientation w h f = if strictEq f "landscape" then landscape else portrait).
      { unfold resolvedOrientation. rewrite G, andb_false_r, orb_false_r. reflexivity. }
      unfold fitsToHeight. rewrite T. rewrite Nw, andb_false_r, orb_false_r.
      split; [exact Eo|].
      set (r := ratio64 (resolvedOrientation w h f)).
      pose proof (ratio64_bounds (resolvedOrientation w h f)) as [R1 R2]. fold r in R1, R2.
      assert (EH : w / r == 0) by (rewrite Zw; reflexivity).
      destruct (round_zero _ EH) as [RH FH].
      rewrite (fdiv_finite w r) by lra. rewrite RH.
      destruct (zero_quotient w 1920 Zw) as [a [Ea Za]].
      destruct (zero_quotient (fl (w / r)) 1080 FH) as [b [Eb Zb]].
      destruct (offset_of_zero w w Dw Zw) as [X [EX ZX]].
      destruct (offset_of_zero h (fl (w / r)) Dh FH) as [Y [EY ZY]].
      exists w, (fl (w / r)), a, X, Y.
      change (Finite 1920) with (Finite (1920 # 1)).
      change (Finite 1080) with (Finite (1080 # 1)).
      rewrite Ea, Eb, (fmin_zero a b Za Zb), EX, EY.
      repeat split; assumption.
    + (* height zero, width positive *)
      assert (Nw : Qltb 0 w = true).
      { destruct (Qltb_spec 0 w); [reflexivity|contradiction]. }
      assert (Rho : fdiv (Finite w) (Finite h) = Infinity false).
      { unfold fdiv. apply Qeq_bool_iff in Zh. rewrite Zh.
        destruct (Qeq_bool w 0) eqn:Ew; [apply Qeq_bool_iff in Ew; lra|].
        unfold negativeQ. destruct (Qltb_spec w 0); [lra|reflexivity]. }
      unfold fitsToHeight, resolvedOrientation. rewrite Rho. rewrite Nw.
      change (fgt (Infinity false) (Finite 1)) with true.
      split; [reflexivity|].
      set (o := if strictEq f "landscape" || (falsy f && true) then landscape else portrait).
      change (fge (Infinity false) (Finite (ratio64 o))) with true. cbv iota.
      assert (EW : h * ratio64 o == 0) by (rewrite Zh; ring).
      destruct (round_zero _ EW) as [RW FW].
      unfold fmul. rewrite RW.
      destruct (zero_quotient (fl (h * ratio64 o)) 1920 FW) as [a [Ea Za]].
      destruct (zero_quotient h 1080 Zh) as [b [Eb Zb]].
      destruct (offset_of_zero w (fl (h * ratio64 o)) Dw FW) as [X [EX ZX]].
      destruct (offset_of_zero h h Dh Zh) as [Y [EY ZY]].
      exists (fl (h * ratio64 o)), h, a, X, Y.
      change (Finite 1920) with (Finite (1920 # 1)).
      change (Finite 1080) with (Finite (1080 # 1)).
      rewrite Ea, Eb, (fmin_zero a b Za Zb), EX, EY.
      repeat split; assumption.
  - (* one negative side *)
    intro Hn.
    assert (Rho : fgt (fdiv (Finite w) (Finite h)) (Finite 1) = false
                  /\ forall o, fge (fdiv (Finite w) (Finite h)) (Finite (ratio64 o)) = false).
    { unfold fdiv. destruct (Qeq_bool h 0) eqn:Eh.
      - apply Qeq_bool_iff in Eh.
        assert (Nw : w < 0) by (destruct Hn as [[? ?]|[? ?]]; lra).
        destruct (Qeq_bool w 0) eqn:Ew; [apply Qeq_bool_iff in Ew; lra|].
        unfold negativeQ. destruct (Qltb_spec w 0); [|contradiction].
        split; [reflexivity|intro; reflexivity].
      - assert (Nh : ~ h == 0).
        { intro E. apply Qeq_bool_iff in E. congruence. }
        assert (Nq : w / h < 0).
        { destruct Hn as [[? ?]|[? ?]].
          - apply Qlt_shift_div_r; lra.
          - setoid_replace (w / h) with (- (w / - h)) by (field; lra).
            assert (0 < w / - h) by (apply Qlt_shift_div_l; lra). lra. }
        destruct (round_negative_cases _ Nq) as [[R F]|R]; rewrite R.
        + split.
          * unfold fgt, fle. destruct (Qleb_spec (fl (w / h)) 1); [reflexivity|lra].
          * intro o. pose proof (ratio64_bounds o) as [R1 _].
            unfold fge, fle.
            destruct (Qleb_spec (ratio64 o) (fl (w / h))); [lra|reflexivity].
        + split; [reflexivity|intro; reflexivity]. }
    destruct Rho as [G T].
    assert (Eo : resolvedOrientation w h f = if strictEq f "landscape" then landscape else portrait).
    { unfold resolvedOrientation. rewrite G, andb_false_r, orb_false_r. reflexivity. }
    unfold fitsToHeight. rewrite T.
    split; [exact Eo|]. split; [reflexivity|].
    split; [rewrite targetAspectRatio_eq; reflexivity|].
    assert (Z : w - w == 0) by ring.
    destruct (offset_zero w Dw) as [X [EX ZX]].
    exists X. split; assumption.
  - (* two negative sides *)
    intros Nw Nh. unfold fitsToHeight.
    set (r := ratio64 (resolvedOrientation w h f)).
    pose proof (ratio64_bounds (resolvedOrientation w h f)) as [R1 R2]. fold r in R1, R2.
    destruct (fge (fdiv (Finite w) (Finite h)) (Finite r)).
    + split.
      * unfold fmul. assert (N : h * r < 0) by nra.
        destruct (round_negative_cases _ N) as [[R F]|R]; rewrite R.
        -- unfold fle. destruct (Qleb_spec (fl (h * r)) 0); [reflexivity|contradiction].
        -- reflexivity.
      * unfold fle. destruct (Qleb_spec h 0); [reflexivity|lra].
    + split.
      * unfold fle. destruct (Qleb_spec w 0); [reflexivity|lra].
      * rewrite fdiv_finite by lra.
        assert (N : w / r < 0) by (apply Qlt_shift_div_r; lra).
        destruct (round_negative_cases _ N) as [[R F]|R]; rewrite R.
        -- unfold fle. destruct (Qleb_spec (fl (w / r)) 0); [reflexivity|contradiction].
        -- reflexivity.
Qed.

Lemma degenerate_viewport_is_fitted_witness :
  isDouble 1920 = true /\ isDouble 0 = true /\
  let d := Binary64.getOptimalDimensions (Finite 1920) (Finite 0) None in
  (1920 == 0 \/ (0 == 0 /\ 0 < 1920) ->
   Binary64.dim_orientation d
   = (if strictEq None "landscape" || (falsy None && Qltb 0 1920)
      then landscape else portrait)
   /\ exists W H S X Y,
        Binary64.dim_width d = Finite W /\ Binary64.dim_height d = Finite H
        /\ Binary64.dim_scale d = Finite S
        /\ Binary64.dim_offsetX d = Finite X /\ Binary64.dim_offsetY d = Finite Y
        /\ W == 0 /\ H == 0 /\ S == 0
        /\ X == fl (1920 / 2) /\ Y == fl (0 / 2))
  /\ ((1920 < 0 /\ 0 <= 0) \/ (0 < 1920 /\ 0 < 0) ->
      Binary64.dim_orientation d
      = (if strictEq None "landscape" then landscape else portrait)
      /\ Binary64.dim_width d = Finite 1920
      /\ Binary64.dim_height d
         = fdiv (Finite 1920)
             (Binary64.targetAspectRatio (Binary64.dim_orientation d))
      /\ exists X, Binary64.dim_offsetX d = Finite X /\ X == 0)
  /\ (1920 < 0 -> 0 < 0 ->
      fle (Binary64.dim_width d) (Finite 0) = true
      /\ fle (Binary64.dim_height d) (Finite 0) = true).
Proof.
  split; [vm_compute; reflexivity|]. split; [vm_compute; reflexivity|].
  apply (degenerate_viewport_is_fitted 1920 0 None); vm_compute; reflexivity.
Defined.

(** C9 as stated fails: where the specification has the solver fail with
    [InvalidViewport], the code returns a record of numbers.  For a
    viewport of width 1920 and height 0 it is the empty landscape
    rectangle with scale 0 at offsetX 960; for width 0 and height 1080 the
    empty portrait rectangle with scale 0 at offsetY 540. *)
Lemma degenerate_viewport_is_not_rejected :
  (let d := Binary64.getOptimalDimensions (Finite 1920) (Finite 0) None in
   solveAsSpecified (Finite 1920) (Finite 0) None = Failure InvalidViewport
   /\ solveAsSpecified (Finite 1920) (Finite 0) None <> Fit d
   /\ Binary64.dim_orientation d = landscape
   /\ feq (Binary64.dim_width d) (Finite 0) = true
   /\ feq (Binary64.dim_height d) (Finite 0) = true
   /\ feq (Binary64.dim_scale d) (Finite 0) = true
   /\ feq (Binary64.dim_offsetX d) (Finite 960) = true
   /\ feq (Binary64.dim_offsetY d) (Finite 0) = true)
  /\ (let d := Binary64.getOptimalDimensions (Finite 0) (Finite 1080) None in
      solveAsSpecified (Finite 0) (Finite 1080) None = Failure InvalidViewport
      /\ solveAsSpecified (Finite 0) (Finite 1080) None <> Fit d
      /\ Binary64.dim_orientation d = portrait
      /\ feq (Binary64.dim_width d) (Finite 0) = true
      /\ feq (Binary64.dim_height d) (Finite 0) = true
      /\ feq (Binary64.dim_scale d) (Finite 0) = true
      /\ feq (Binary64.dim_offsetX d) (Finite 0) = true
      /\ feq (Binary64.dim_offsetY d) (Finite 540) = true).
Proof.
  cbv zeta.
  split; (split; [reflexivity|]); (split; [discriminate|]);
    vm_compute; repeat split.
Qed.

(** ** The spacing ladder *)

Example pixelsToViewport_24_vw :
  let c := pixelsToViewport 24 "vw" None in
  clamp_min c == 12 /\ clamp_preferred c == 1.25 /\ clamp_max c == 48.
Proof. vm_compute. repeat split. Qed.

(** C8, as the code has it.  For every i from 1 to 10, spacing step i is
    the clamp of [pixelsToViewport(8*i, 'vmin')]: floor max(8*i*0.5, 8),
    preferred value 8*i/1920*100 to two decimals in [vmin], and ceiling
    8*i*2. *)
Theorem spacing_ladder (d : Dimensions) (options : ScaleOptions) (i : nat) :
  (1 <= i <= 10)%nat ->
  default (enableSpacingScale options) true = true ->
  exists c,
    spacingStep (generateScaleProperties d options) i = Some (ClampValue c)
    /\ clamp_min c == Qmax (8 * inject_Z (Z.of_nat i) * 0.5) 8
    /\ clamp_preferred c
       == toFixed2 (8 * inject_Z (Z.of_nat i) / base_width BASE_DIMENSIONS * 100)
    /\ clamp_unit c = "vmin"%string
    /\ clamp_max c == 8 * inject_Z (Z.of_nat i) * 2.
Proof.
  intros Hi Hs. unfold generateScaleProperties. rewrite Hs.
  assert (Hcases : (i = 1 \/ i = 2 \/ i = 3 \/ i = 4 \/ i = 5 \/ i = 6
                    \/ i = 7 \/ i = 8 \/ i = 9 \/ i = 10)%nat) by lia.
  clear Hi.
  repeat (destruct Hcases as [->|Hcases]); try subst i;
    destruct (default (enableTextScaling options) true);
    eexists; (split; [vm_compute; reflexivity|]);
    vm_compute; repeat split.
Qed.

Lemma spacing_ladder_witness :
  (1 <= 3 <= 10)%nat /\
  default (enableSpacingScale defaultScaleOptions) true = true /\
  exists c,
    spacingStep
      (generateScaleProperties (getOptimalDimensions 1920 1080 None)
         defaultScaleOptions) 3
    = Some (ClampValue c)
    /\ clamp_min c == Qmax (8 * inject_Z (Z.of_nat 3) * 0.5) 8
    /\ clamp_preferred c
       == toFixed2 (8 * inject_Z (Z.of_nat 3) / base_width BASE_DIMENSIONS * 100)
    /\ clamp_unit c = "vmin"%string
    /\ clamp_max c == 8 * inject_Z (Z.of_nat 3) * 2.
Proof.
  split; [lia|]. split; [reflexivity|].
  apply (spacing_ladder (getOptimalDimensions 1920 1080 None)
           defaultScaleOptions 3); [lia | reflexivity].
Defined.

(** C8 as stated fails: step 1 is clamp(8px, 0.42vmin, 16px), so its floor
    is 8 and not 8*1*0.5 = 4 and its ceiling is 16 and not 8*1*1.5 = 12;
    step 2 is clamp(8px, 0.83vmin, 32px), ceiling 32 and not 24. *)
Lemma spacing_step_bounds_differ :
  let props := generateScaleProperties (getOptimalDimensions 1920 1080 None)
                 defaultScaleOptions in
  ~ spacingStepAsSpecified props 1
  /\ ~ spacingStepAsSpecified props 2
  /\ (exists c, spacingStep props 1 = Some (ClampValue c)
        /\ clamp_min c == 8 /\ clamp_preferred c == 0.42 /\ clamp_max c == 16)
  /\ (exists c, spacingStep props 2 = Some (ClampValue c)
        /\ clamp_min c == 8 /\ clamp_preferred c == 0.83 /\ clamp_max c == 32).
Proof.
  cbv zeta. repeat split.
  - intros [c [H [_ [_ Hmax]]]]. vm_compute in H.
    injection H as <-. vm_compute in Hmax. discriminate Hmax.
  - intros [c [H [_ [_ Hmax]]]]. vm_compute in H.
    injection H as <-. vm_compute in Hmax. discriminate Hmax.
  - eexists. split; [vm_compute; reflexivity|]. vm_compute. repeat split.
  - eexists. split; [vm_compute; reflexivity|]. vm_compute. repeat split.
Qed.

(** ** The text fitter *)

(** Three 2% steps bring a 36px line into a 339px box. *)
Example three_steps_fit :
  match intelligentTextFit proportionalHost
          (Some (textElement "Alexander" 36 339 50)) (policy 0.3 12 true) with
  | Some (r, _) =>
      fit_method r = font_reduction
      /\ fit_fontSize r == 36 * (0.98 * 0.98 * 0.98)
      /\ fit_fits r = true
      /\ fit_attempts r = Some 3%nat
  | None => False
  end.
Proof. vm_compute. repeat split. Qed.

(** Wrapping alone solves "A B C": no font size change. *)
Example wrap_only :
  match intelligentTextFit wrappingHost
          (Some (textElement "A B C" 20 100 60)) (policy 0.3 12 true) with
  | Some (r, d') =>
      fit_method r = word_wrap
      /\ fit_fontSize r == 20
      /\ fit_reduction r == 0
      /\ fit_fits r = true
      /\ whiteSpace (dom_element d') = "normal"%string
  | None => False
  end.
Proof. vm_compute. repeat split. Qed.

Example null_element (h : Host) (o : FitOptions) :
  intelligentTextFit h None o = None.
Proof. reflexivity. Qed.

(** *** The shrink loop *)

Section ShrinkLoopFacts.
Variable host : Host.
Variables cw minAllowed stp : Q.
Variable rlh : bool.
Variables ofs olh : Q.

Local Abbreviation loop := (shrinkLoop host cw minAllowed stp rlh ofs olh).

Lemma shrinkLoop_zero (cur : Q) (attempts : nat) (d : Dom) :
  loop 0%nat cur attempts d
  = (cur, attempts, snd (readScrollWidth host d)).
Proof.
  cbn. unfold bind, ret. cbn.
  destruct (Qgtb _ cw && Qgtb cur minAllowed); reflexivity.
Qed.

(** One unfolding of the loop with attempts left. *)
Lemma shrinkLoop_succ (k : nat) (cur : Q) (attempts : nat) (d : Dom) :
  let sw := fst (readScrollWidth host d) in
  let d1 := snd (readScrollWidth host d) in
  loop (S k) cur attempts d
  = if Qgtb sw cw && Qgtb cur minAllowed then
      let cur' := cur * (1 - stp) in
      let d2 := snd (update (setFontSize cur') d1) in
      let d3 := if rlh
                then snd (update (setLineHeight (cur' * (olh / ofs))) d2)
                else d2 in
      loop k cur' (S attempts) d3
    else (cur, attempts, d1).
Proof.
  cbn. unfold bind, ret. cbn.
  destruct (Qgtb _ cw && Qgtb cur minAllowed); [|reflexivity].
  destruct rlh; reflexivity.
Qed.


(** With a positive floor and a step between 0 and 1 the size never
    grows, and it ends at most one step below the floor it started
    above. *)
Lemma shrinkLoop_size (k : nat) :
  0 < minAllowed -> 0 <= stp <= 1 ->
  forall cur attempts d,
    let '(cur', _, _) := loop k cur attempts d in
    cur' <= cur /\ Qmin cur (minAllowed * (1 - stp)) <= cur'.
Proof.
  intros Hm Hs. induction k as [|k IH]; intros cur attempts d.
  - rewrite shrinkLoop_zero. split; [lra|apply Q.le_min_l].
  - rewrite shrinkLoop_succ. cbv zeta.
    destruct (Qgtb_spec (fst (readScrollWidth host d)) cw) as [_|_];
      [|cbn; split; [lra|apply Q.le_min_l]].
    destruct (Qgtb_spec cur minAllowed) as [Hc|_];
      [|cbn; split; [lra|apply Q.le_min_l]].
    cbn [andb].
    match goal with
    | |- context [loop k ?c ?a ?s] =>
        specialize (IH c a s); destruct (loop k c a s) as [[c' a'] s']
    end.
    destruct IH as [Hle Hge].
    assert (Hstep : minAllowed * (1 - stp) <= cur * (1 - stp)).
    { apply Qmult_le_compat_r; lra. }
    assert (Hdown : cur * (1 - stp) <= cur).
    { setoid_replace cur with (cur * 1) at 2 by ring.
      apply Qmult_le_l; lra. }
    split; [lra|].
    rewrite Q.min_r in Hge by assumption.
    eapply Qle_trans; [apply Q.le_min_r|exact Hge].
Qed.
End ShrinkLoopFacts.

(** *** The phases of the fitter *)




Lemma reduceFont_size (host : Host) (mr mf stp : Q) (prefer rlh : bool)
    (ofs olh cw ch : Q) (d : Dom) :
  0 < mf -> 0 <= stp <= 1 ->
  let '(r, _) := reduceFont host mr mf stp prefer rlh ofs olh cw ch d in
  fit_fontSize r <= ofs
  /\ Qmin ofs (Qmax mf (ofs * mr) * (1 - stp)) <= fit_fontSize r.
Proof.
  intros Hmf Hs.
  assert (Hfloor : 0 < Qmax mf (ofs * mr)).
  { eapply Qlt_le_trans; [exact Hmf | apply Q.le_max_l]. }
  unfold reduceFont. unfold bind at 1. cbn [update].
  unfold bind at 1.
  match goal with
  | |- context [shrinkLoop ?h ?a ?b ?c ?e ?f ?g ?k ?cur ?n ?s] =>
      pose proof (shrinkLoop_size h a b c e f g k Hfloor Hs cur n s) as HL;
      destruct (shrinkLoop h a b c e f g k cur n s) as [[cur' att] d2]
  end.
  unfold bind at 1. cbn [readScrollWidth]. unfold bind at 1.
  destruct (negb _ && prefer); cbn [update ret]; unfold bind at 1;
    match goal with
    | |- context [fitsBothAxes host cw ch ?s] =>
        destruct (fitsBothAxes host cw ch s) as [b d5]
    end; cbn; exact HL.
Qed.

(** The state in which the first phase starts: the originals are stored,
    nothing else has changed. *)
Lemma fitElement_unfold (host : Host) (options : FitOptions) (d : Dom) :
  exists d0,
    dom_reads d0 = dom_reads d
    /\ fitElement host options d
       = let e := dom_element d in
         let ofs := fontSize e in
         let olh := orElse (lineHeight e) (ofs * 1.2) in
         let '(wrapped, d1) :=
           tryWordWrap host (default (preferWordWrap options) true)
             (textContent e) (clientWidth e) (clientHeight e) d0 in
         if wrapped then
           ({| fit_method := word_wrap; fit_fontSize := ofs;
               fit_reduction := 0; fit_fits := true;
               fit_attempts := None |}, d1)
         else
           reduceFont host (default (maxReduction options) 0.7)
             (default (minFontSize options) 12)
             (default (step options) 0.02)
             (default (preferWordWrap options) true)
             (default (respectLineHeight options) true)
             ofs olh (clientWidth e) (clientHeight e) d1.
Proof.
  unfold fitElement. unfold bind at 1. cbn [getElement]. unfold bind at 1.
  destruct (dataset_originalFontSize (dom_element d)).
  - exists d. split; [reflexivity|]. cbn [ret]. unfold bind at 1.
    destruct (tryWordWrap _ _ _ _ _ d) as [[|] d1]; reflexivity.
  - cbn [update].
    exists {| dom_element :=
                storeOriginals (fontSize (dom_element d))
                  (orElse (lineHeight (dom_element d))
                     (fontSize (dom_element d) * 1.2))
                  (dom_element d);
              dom_reads := dom_reads d |}.
    split; [reflexivity|]. unfold bind at 1.
    destruct (tryWordWrap _ _ _ _ _ _) as [[|] d1]; reflexivity.
Qed.


(** With a positive minimum font size and a step between 0 and 1, the
    fitter never returns a size above the original one, and never one more
    than a single step below the floor the loop tests. *)
Lemma fit_size_bounds (host : Host) (options : FitOptions) (d : Dom) :
  0 < default (minFontSize options) 12 ->
  0 <= default (step options) 0.02 <= 1 ->
  let r := fst (fitElement host options d) in
  let original := fontSize (dom_element d) in
  fit_fontSize r <= original
  /\ Qmin original
       (minAllowedSizeOf options original * (1 - default (step options) 0.02))
     <= fit_fontSize r.
Proof.
  intros Hm Hs.
  destruct (fitElement_unfold host options d) as (d0 & Hd0 & ->). cbv zeta.
  destruct (tryWordWrap _ _ _ _ _ d0) as [[|] d1].
  - cbn. split; [lra | apply Q.le_min_l].
  - match goal with
    | |- context [reduceFont ?h ?a ?b ?c ?p ?q ?e ?f ?g ?i d1] =>
        pose proof (reduceFont_size h a b c p q e f g i d1 Hm Hs) as HR;
        destruct (reduceFont h a b c p q e f g i d1) as [r d']
    end.
    exact HR.
Qed.

Lemma fit_size_bounds_at_defaults :
  let d := textElement "Bartholomew" 32 200 40 in
  let r := fst (fitElement proportionalHost (policy 0.3 30 true) d) in
  fit_fontSize r <= 32
  /\ Qmin 32 (minAllowedSizeOf (policy 0.3 30 true) 32 * (1 - 0.02))
     <= fit_fontSize r.
Proof.
  apply (fit_size_bounds proportionalHost (policy 0.3 30 true)
           (textElement "Bartholomew" 32 200 40));
    [reflexivity | split; discriminate].
Defined.

(** C1 at a failing input.  A 32px single word, ten times the font size
    wide, in a 200px box, with minFontSize 30 and maxReduction 0.3: the
    floor of the claim is max(30, 32*(1-0.3)) = 30 and the loop also tests
    30, yet it steps from 30.118 to 32 * 0.98^4 = 29.516 and returns that
    size, below the floor. *)
Theorem fit_undershoots_minimum_font_size :
  match intelligentTextFit proportionalHost
          (Some (textElement "Bartholomew" 32 200 40)) (policy 0.3 30 true) with
  | Some (r, _) =>
      specifiedFloor 30 32 0.3 == 30
      /\ minAllowedSizeOf (policy 0.3 30 true) 32 == 30
      /\ fit_fontSize r == 32 * (0.98 * 0.98 * 0.98 * 0.98)
      /\ fit_fontSize r < specifiedFloor 30 32 0.3
      /\ fit_attempts r = Some 4%nat
      /\ fit_fits r = false
  | None => False
  end.
Proof. vm_compute. repeat split. Qed.

(** The same input through the attribute-driven caller:
    [data-min-font-size="30"], [data-max-reduction="30"]. *)
Example smartTextFit_undershoots_minimum_font_size :
  match smartTextFit proportionalHost
          (Some {| se_dom := textElement "Bartholomew" 32 200 40;
                   se_attributes :=
                     {| data_text_fit := None;
                        data_min_font_size := Some 30%Z;
                        data_max_reduction := Some 30%Z |};
                   se_classList := [] |})
          noFitOptions with
  | Some (Fitted r, _) =>
      fit_fontSize r < 30 /\ fit_attempts r = Some 4%nat
  | _ => False
  end.
Proof. vm_compute. repeat split. Qed.

(** The loop treats [maxReduction] as the fraction that is kept, not the
    fraction that may be removed: at 100px with maxReduction 0.3 the floor
    of the claim is 70, the loop tests 30, and 50 steps end at
    100 * 0.98^50 = 36.4. *)
Example fit_reduces_beyond_maxReduction :
  match intelligentTextFit proportionalHost
          (Some (textElement "Bartholomew" 100 200 200)) (policy 0.3 12 true) with
  | Some (r, _) =>
      specifiedFloor 12 100 0.3 == 70
      /\ minAllowedSizeOf (policy 0.3 12 true) 100 == 30
      /\ fit_fontSize r < 37
      /\ fit_fontSize r < specifiedFloor 12 100 0.3
      /\ fit_attempts r = Some 50%nat
  | None => False
  end.
Proof. vm_compute. repeat split. Qed.

(** C5 at a failing input.  The same word in the same box with
    preferWordWrap false: the width still overflows after the loop, wrapping
    is not enabled (white-space stays nowrap), and the method reported is
    nonetheless hybrid, not font-reduction. *)
Theorem hybrid_reported_without_wrapping :
  match intelligentTextFit proportionalHost
          (Some (textElement "Bartholomew" 32 200 40)) (policy 0.3 30 false) with
  | Some (r, d') =>
      fit_method r = hybrid
      /\ fit_method r <> font_reduction
      /\ fit_fits r = false
      /\ whiteSpace (dom_element d') = "nowrap"%string
  | None => False
  end.
Proof. vm_compute. repeat split. discriminate. Qed.

(** With preferWordWrap true the same input is reported as hybrid with
    wrapping enabled at the reduced size. *)
Example hybrid_reported_with_wrapping :
  match intelligentTextFit proportionalHost
          (Some (textElement "Bartholomew" 32 200 40)) (policy 0.3 30 true) with
  | Some (r, d') =>
      fit_method r = hybrid
      /\ whiteSpace (dom_element d') = "normal"%string
      /\ fontSize (dom_element d') == 32 * (0.98 * 0.98 * 0.98 * 0.98)
  | None => False
  end.
Proof. vm_compute. repeat split. Qed.

(** The method only records the width test made after the loop; the
    preference is not consulted.  [hybrid] is reported whenever the second
    phase ends with the width still overflowing. *)
Lemma method_ignores_preference (host : Host) (mr mf stp : Q) (rlh : bool)
    (ofs olh cw ch : Q) (d : Dom) :
  (forall n e, cw < scrollWidth host n e) ->
  forall prefer,
    fit_method (fst (reduceFont host mr mf stp prefer rlh ofs olh cw ch d))
    = hybrid.
Proof.
  intros Hover prefer.
  unfold reduceFont. unfold bind at 1. cbn [update]. unfold bind at 1.
  destruct (shrinkLoop _ _ _ _ _ _ _ _ _ _ _) as [[cur' att] d2].
  unfold bind at 1. cbn [readScrollWidth]. unfold bind at 1.
  destruct (Qleb_spec (scrollWidth host (List.length (dom_reads d2))
                         (dom_element d2)) cw) as [H|_].
  - specialize (Hover (List.length (dom_reads d2)) (dom_element d2)). lra.
  - cbn [negb andb].
    destruct prefer; cbn [update ret]; unfold bind at 1;
      destruct (fitsBothAxes _ _ _ _) as [b d5]; reflexivity.
Qed.

Example fixed_width_content_is_hybrid (prefer : bool) :
  fit_method
    (fst (reduceFont (fixedSizeHost 1000 20) 0.7 12 0.02 prefer true
            32 38.4 200 40 (textElement "Bartholomew" 32 200 40)))
  = hybrid.
Proof.
  apply method_ignores_preference. intros n e. reflexivity.
Qed.

(** ** The responsive observer *)

Lemma run_app (args : ObserverArgs) (o : Observer) (xs ys : list Event) :
  run args o (xs ++ ys) = run args (run args o xs) ys.
Proof. unfold run. apply fold_left_app. Qed.

Lemma released_stays_silent (args : ObserverArgs) (events : list Event) :
  forall o, released o ->
    released (run args o events)
    /\ updates (run args o events) = updates o.
Proof.
  induction events as [|e events IH]; intros o Ho; [split; [exact Ho|reflexivity]|].
  destruct Ho as (Ht & Hr & Ho).
  assert (Hstep : released (handle args o e) /\ updates (handle args o e) = updates o).
  { destruct e as [dt|w|w|]; cbn; rewrite ?Ht, ?Hr, ?Ho;
      unfold released; cbn; auto. }
  destruct Hstep as [Hrel Hupd].
  destruct (IH _ Hrel) as [Hrel' Hupd'].
  cbn. split; [exact Hrel'|]. unfold run in Hupd'. rewrite Hupd'. exact Hupd.
Qed.

Lemma cleanup_released (o : Observer) : released (cleanup o).
Proof. unfold released. cbn. auto. Qed.

Lemma created_armed (args : ObserverArgs) (t0 : nat) (w : Window)
    (c : option Container) :
  armed args (createResponsiveObserver args t0 w c).
Proof.
  unfold armed, createResponsiveObserver, handleResize, scheduleResize,
    debounceOf. cbn.
  repeat split. eexists. split; [reflexivity|]. lia.
Qed.

(** A signal inside the debounce window only moves the deadline. *)
Lemma signal_in_window (args : ObserverArgs) (o : Observer) (gap : nat)
    (s : Signal) :
  armed args o -> (gap < debounceOf args)%nat ->
  let o' := handle args (handle args o (Elapse gap)) (signalEvent s) in
  armed args o'
  /\ updates o' = updates o /\ container o' = container o
  /\ window o' = signalWindow s.
Proof.
  intros (Hr & Ho & dl & Ht & Hdl) Hgap.
  destruct o as [t w0 c tm rl ol us]. cbn in Hr, Ho, Ht, Hdl. subst rl ol tm.
  cbn [handle resizeTimeout now].
  assert (Hlate : (dl <=? t + gap)%nat = false) by (apply Nat.leb_gt; lia).
  rewrite Hlate.
  destruct s as [w|w]; cbn; unfold armed; cbn;
    (repeat split; try reflexivity);
    eexists; (split; [reflexivity|]); unfold debounceOf; lia.
Qed.

Lemma burst_in_window (args : ObserverArgs) (burst : list (nat * Signal)) :
  forall o,
    armed args o ->
    Forall (fun g => (fst g < debounceOf args)%nat) burst ->
    let o' := run args o (burstEvents burst) in
    armed args o'
    /\ updates o' = updates o /\ container o' = container o
    /\ window o' = finalWindow (window o) burst.
Proof.
  induction burst as [|[gap s] burst IH]; intros o Ho Hb.
  - cbn. auto.
  - inversion Hb as [|? ? Hgap Hrest]; subst. cbn in Hgap.
    destruct (signal_in_window args o gap s Ho Hgap) as (Ha & Hu & Hc & Hw).
    specialize (IH _ Ha Hrest). cbv zeta in IH.
    destruct IH as (Ha' & Hu' & Hc' & Hw').
    cbn [burstEvents run fold_left finalWindow] in *.
    unfold run in *. split; [exact Ha'|]. repeat split; congruence.
Qed.

(** An armed observer left alone for less than the debounce delay has not
    called back; left alone for the delay plus the settle time it has
    called back once. *)
Lemma armed_then_quiet (args : ObserverArgs) (o : Observer) (quiet : nat) :
  armed args o ->
  ((quiet < debounceOf args)%nat ->
   updates (handle args o (Elapse quiet)) = updates o)
  /\ ((debounceOf args + 100 <= quiet)%nat ->
      handle args o (Elapse quiet) = advance quiet (timerFires args o)).
Proof.
  intros (_ & _ & dl & Ht & Hdl). cbn [handle]. rewrite Ht. split; intro Hq.
  - assert (E : (dl <=? now o + quiet)%nat = false) by (apply Nat.leb_gt; lia).
    rewrite E. reflexivity.
  - assert (E : (dl <=? now o + quiet)%nat = true) by (apply Nat.leb_le; lia).
    rewrite E. reflexivity.
Qed.

Lemma release_silences (args : ObserverArgs) (o : Observer)
    (events : list Event) :
  updates (run args o (Release :: events)) = updates o.
Proof.
  change (run args o (Release :: events)) with (run args (cleanup o) events).
  destruct (released_stays_silent args events (cleanup o) (cleanup_released o))
    as [_ H].
  exact H.
Qed.

(** C7, as the code has it.  Start an observer with a callback on a
    container and let a burst of resize and orientation signals arrive, each
    less than [debounceMs] after the one before.
    - If the cleanup function is then called, before the pending timer
      fires, the callback is never called, whatever happens afterwards; and
      from any state at all, no call is made after a release.
    - While less than [debounceMs] has passed since the last signal, no call
      has been made.
    - Once [debounceMs] + 100 ms have passed, exactly one call has been
      made, and more time adds none.  Its argument is the result of
      [applyResponsiveScaling] computed at that moment: the fit of
      [options.viewportWidth] x [options.viewportHeight] where the options
      give them, and of the window's final size otherwise. *)
Theorem debounced_updates (args : ObserverArgs) (t0 : nat) (w0 : Window)
    (c : Container) (burst : list (nat * Signal)) (quiet : nat)
    (events : list Event) :
  arg_callback args = true ->
  Forall (fun g => (fst g < debounceOf args)%nat) burst ->
  (debounceOf args + 100 <= quiet)%nat ->
  let o0 := createResponsiveObserver args t0 w0 (Some c) in
  let final := finalWindow w0 burst in
  let options := arg_options args in
  updates (run args o0 (burstEvents burst ++ Release :: events)) = []
  /\ (forall o, updates (run args o (Release :: events)) = updates o)
  /\ (forall q, (q < debounceOf args)%nat ->
        updates (run args o0 (burstEvents burst ++ [Elapse q])) = [])
  /\ exists r,
       updates (run args o0 (burstEvents burst ++ [Elapse quiet])) = [Some r]
       /\ (forall more,
             updates (run args o0
                        (burstEvents burst ++ [Elapse quiet; Elapse more]))
             = [Some r])
       /\ res_dimensions r
          = getOptimalDimensions
              (default (viewportWidth options) (innerWidth final))
              (default (viewportHeight options) (innerHeight final))
              (forceOrientation options)
       /\ res_properties r
          = generateScaleProperties (res_dimensions r) (scaleOptions options).
Proof.
  intros Hcb Hburst Hquiet o0 final options.
  destruct (burst_in_window args burst o0
              (created_armed args t0 w0 (Some c)) Hburst)
    as (Harmed & Hupd & Hcont & Hwin).
  change (updates o0) with (@nil (option ScalingResult)) in Hupd.
  change (container o0) with (Some c) in Hcont.
  change (window o0) with w0 in Hwin. fold final in Hwin.
  set (o1 := run args o0 (burstEvents burst)) in *.
  destruct (armed_then_quiet args o1 quiet Harmed) as [_ Hfire].
  specialize (Hfire Hquiet).
  repeat split.
  - rewrite run_app. fold o1. rewrite release_silences. exact Hupd.
  - intro o. apply release_silences.
  - intros q Hq. rewrite run_app. fold o1. cbn [run fold_left].
    destruct (armed_then_quiet args o1 q Harmed) as [Hno _].
    rewrite (Hno Hq). exact Hupd.
  - eexists. split; [|split].
    + rewrite run_app. fold o1. cbn [run fold_left]. rewrite Hfire.
      cbn [advance updates timerFires]. rewrite Hcb, Hupd, Hcont, Hwin.
      cbn [applyResponsiveScaling option_map fst]. reflexivity.
    + intro more. rewrite run_app. fold o1. cbn [run fold_left]. rewrite Hfire.
      cbn [advance updates timerFires handle resizeTimeout].
      rewrite Hcb, Hupd, Hcont, Hwin.
      cbn [applyResponsiveScaling option_map fst]. reflexivity.
    + split; reflexivity.
Qed.

Lemma debounced_updates_witness :
  arg_callback followingDisplay = true
  /\ Forall (fun g => (fst g < debounceOf followingDisplay)%nat) rotationBurst
  /\ (debounceOf followingDisplay + 100 <= 250)%nat
  /\ let o0 := createResponsiveObserver followingDisplay 0
                 {| innerWidth := 800; innerHeight := 600 |}
                 (Some emptyContainer) in
     updates (run followingDisplay o0
                (burstEvents rotationBurst ++ Release :: [Elapse 1000]))
     = []
     /\ exists r,
          updates (run followingDisplay o0
                     (burstEvents rotationBurst ++ [Elapse 250]))
          = [Some r]
          /\ res_dimensions r = getOptimalDimensions 1920 1080 None.
Proof.
  assert (Hb : Forall (fun g => (fst g < debounceOf followingDisplay)%nat)
                 rotationBurst).
  { repeat (constructor; [cbn; lia|]). constructor. }
  assert (Hq : (debounceOf followingDisplay + 100 <= 250)%nat) by (cbn; lia).
  split; [reflexivity|]. split; [exact Hb|]. split; [exact Hq|].
  destruct (debounced_updates followingDisplay 0
              {| innerWidth := 800; innerHeight := 600 |} emptyContainer
              rotationBurst 250 [Elapse 1000] eq_refl Hb Hq)
    as (Hrel & _ & _ & r & Hone & _ & Hdim & _).
  split; [exact Hrel|].
  exists r. split; [exact Hone | exact Hdim].
Defined.

(** C7 as stated fails on its last clause: with [viewportWidth] 800 and
    [viewportHeight] 600 in the options, a burst that ends with the window
    at 1920 x 1080 gives one update, and it carries the fit of 800 x 600
    (width 800, height 450), not the fit of the final viewport. *)
Lemma pinned_viewport_update_is_stale :
  let w0 := {| innerWidth := 800; innerHeight := 600 |} in
  finalWindow w0 rotationBurst = {| innerWidth := 1920; innerHeight := 1080 |}
  /\ (exists r,
        updates (run pinnedDisplay
                   (createResponsiveObserver pinnedDisplay 0 w0
                      (Some emptyContainer))
                   (burstEvents rotationBurst ++ [Elapse 250]))
        = [Some r]
        /\ dim_width (res_dimensions r) == 800
        /\ dim_height (res_dimensions r) == 450)
  /\ ~ burstYieldsFitOfFinalViewport pinnedDisplay 0 w0 emptyContainer
         rotationBurst 250.
Proof.
  cbv zeta. split; [reflexivity|]. split.
  - eexists. split; [vm_compute; reflexivity|]. vm_compute. split; reflexivity.
  - intros (r & Hu & Hw & _). vm_compute in Hu. injection Hu as <-.
    vm_compute in Hw. discriminate Hw.
Qed.

(** The same holds for a burst that reaches an observer at rest, however
    long after the previous update: it adds exactly one call. *)
Lemma burst_after_rest (args : ObserverArgs) (o : Observer) (rest : nat)
    (s : Signal) (burst : list (nat * Signal)) (quiet : nat) :
  idle o -> arg_callback args = true ->
  Forall (fun g => (fst g < debounceOf args)%nat) burst ->
  (debounceOf args + 100 <= quiet)%nat ->
  updates (run args o
             (burstEvents ((rest, s) :: burst) ++ [Elapse quiet]))
  = option_map fst
      (applyResponsiveScaling (arg_host args)
         (finalWindow (window o) ((rest, s) :: burst)) (container o)
         (arg_options args))
    :: updates o.
Proof.
  intros (Hr & Ho & Ht) Hcb Hburst Hquiet.
  set (o1 := handle args (handle args o (Elapse rest)) (signalEvent s)).
  assert (H1 : armed args o1 /\ updates o1 = updates o
               /\ container o1 = container o /\ window o1 = signalWindow s).
  { subst o1. destruct o as [t w0 c tm rl ol us]. cbn in Hr, Ho, Ht.
    subst rl ol tm.
    destruct s as [w|w]; cbn; unfold armed; cbn;
      (repeat split; try reflexivity);
      eexists; (split; [reflexivity|]); unfold debounceOf; lia. }
  destruct H1 as (Ha & Hu & Hc & Hw).
  destruct (burst_in_window args burst o1 Ha Hburst) as (Ha' & Hu' & Hc' & Hw').
  cbn [burstEvents app finalWindow].
  change (run args o (Elapse rest :: signalEvent s :: burstEvents burst ++ [Elapse quiet]))
    with (run args o1 (burstEvents burst ++ [Elapse quiet])).
  rewrite run_app. cbn [run fold_left].
  destruct (armed_then_quiet args _ quiet Ha') as [_ Hfire].
  unfold run in *. rewrite (Hfire Hquiet).
  cbn [advance updates timerFires]. rewrite Hcb, Hu', Hc', Hw', Hu, Hc, Hw.
  reflexivity.
Qed.

(** * Further properties of the code *)

(** ** The dimension solver *)

(** A forced orientation is taken whatever the viewport: the string
    "landscape" gives landscape, and every other non-empty string gives
    portrait, "portrait" and a misspelt "Landscape" alike. *)
Theorem forced_orientation (w h : Q) (s : string) :
  s <> EmptyString ->
  dim_orientation (getOptimalDimensions w h (Some s))
  = if String.eqb s "landscape" then landscape else portrait.
Proof.
  intro Hs. rewrite orientation_resolved. unfold resolvesLandscape.
  cbn [strictEq falsy].
  destruct (String.eqb s "landscape"); [reflexivity|].
  destruct (String.eqb_spec s EmptyString) as [E|_]; [contradiction|].
  reflexivity.
Qed.

Lemma forced_orientation_witness :
  "Landscape"%string <> EmptyString
  /\ dim_orientation (getOptimalDimensions 1920 1080 (Some "Landscape"%string))
     = portrait.
Proof.
  assert (H : "Landscape"%string <> EmptyString) by discriminate.
  split; [exact H|].
  exact (forced_orientation 1920 1080 "Landscape" H).
Defined.

(** X1. The fit is the largest rectangle of the reference aspect in the
    viewport, up to rounding.  For a viewport whose width and height are
    doubles between 2^-1000 and 2^1000: the fit spans the viewport on one
    axis, with offset 0 there; it lies inside the viewport, but for a width
    that can exceed it by 2^-51; its width is height times the reference
    aspect but for 2^-51 of the width; and no rectangle with exactly the
    reference aspect that lies inside the viewport is wider or higher than
    the fit by more than 2^-50. *)
Theorem fit_is_largest_up_to_rounding (w h : Q) (f : option string) :
  isDouble w = true -> isDouble h = true ->
  pow2 (-1000) <= w -> w <= pow2 1000 ->
  pow2 (-1000) <= h -> h <= pow2 1000 ->
  let d := Binary64.getOptimalDimensions (Finite w) (Finite h) f in
  let A := referenceAspect (Binary64.dim_orientation d) in
  exists W H X Y,
    Binary64.dim_width d = Finite W /\ Binary64.dim_height d = Finite H
    /\ Binary64.dim_offsetX d = Finite X /\ Binary64.dim_offsetY d = Finite Y
    /\ ((W == w /\ X == 0) \/ (H == h /\ Y == 0))
    /\ W <= w * (1 + pow2 (-51)) /\ H <= h
    /\ Qabs (W - H * A) <= pow2 (-51) * W
    /\ forall a b : Q,
         a == b * A -> a <= w -> b <= h ->
         a <= W * (1 + pow2 (-50)) /\ b <= H * (1 + pow2 (-50)).
Proof.
  intros Dw Dh W1 W2 H1 H2. cbv zeta. rewrite solver_eq. cbv zeta.
  cbn [Binary64.dim_width Binary64.dim_height Binary64.dim_offsetX
       Binary64.dim_offsetY Binary64.dim_orientation].
  set (o := resolvedOrientation w h f).
  pose proof (ratio64_double o) as Dr.
  pose proof (ratio64_bounds o) as R. destruct R as [R1 R2].
  assert (R := conj R1 R2).
  pose proof (pow2_pos (-1000)) as P.
  pose proof (pow2_pos (-1075)) as T0.
  pose proof (tiny_below w W1) as Tw. pose proof (tiny_below h H1) as Th.
  rewrite pow2_75 in Tw, Th.
  assert (Hw : 0 < w) by lra. assert (Hh : 0 < h) by lra.
  assert (P50 : pow2 (-50) == 1 # 1125899906842624) by reflexivity.
  unfold fitsToHeight. fold o.
  destruct (fge (fdiv (Finite w) (Finite h)) (Finite (ratio64 o))) eqn:T.
  - (* fit to height *)
    destruct (offset_zero h Dh) as [Y [EY Y0]].
    assert (HW : exists W X,
               W = fl (h * ratio64 o)
               /\ fmul (Finite h) (Finite (ratio64 o)) = Finite W
               /\ fdiv (fsub (Finite w) (Finite W)) (Finite 2) = Finite X
               /\ W <= w * (1 + pow2 (-51))).
    { destruct (fit_to_height_branch (ratio64 o) Dr R w h Hw Hh T)
        as [L|[L [E _]]].
      - destruct (fit_to_height_exact (ratio64 o) R w h Hh Dw L)
          as [EW [W0 Wb]].
        destruct (offset_nonneg w _ Dw W0 Wb) as [X [EX X0]].
        exists (fl (h * ratio64 o)), X.
        repeat split; try assumption. rewrite pow2_51. lra.
      - destruct (fit_to_height_rounded (ratio64 o) w h R1 R2 Hh W1 W2 L E)
          as [W [X [EW' [EW [EX [_ [B1 _]]]]]]].
        exists W, X. repeat split; assumption. }
    destruct HW as [W [X [EW' [EW [EX Wb]]]]].
    rewrite EW. exists W, h, X, Y.
    split; [reflexivity|]. split; [reflexivity|].
    split; [exact EX|]. split; [exact EY|].
    split; [right; split; [reflexivity|exact Y0]|].
    split; [exact Wb|]. split; [lra|].
    assert (Y1 : 0 <= h * ratio64 o) by nra.
    destruct (fl_near _ Y1) as [N1 N2]. rewrite eps_value in N1, N2.
    rewrite <- EW' in N1, N2. clear EW' EW EX Wb Dr R R1 R2 T.
    clearbody o.
    rewrite ratio64_value in N1, N2.
    split.
    + rewrite referenceAspect_value, pow2_51. apply Qabs_Qle_condition.
      destruct o; split; lra.
    + intros a b Eab La Lb. rewrite referenceAspect_value in Eab.
      rewrite P50. destruct o; split; lra.
  - (* fit to width *)
    destruct (fit_to_width_branch (ratio64 o) Dr R w h Hw Hh Dh T)
      as [_ [EH [H0 Hb]]].
    destruct (offset_nonneg h _ Dh H0 Hb) as [Y [EY Y0]].
    destruct (offset_zero w Dw) as [X [EX X0]].
    rewrite EH. exists w, (fl (w / ratio64 o)), X, Y.
    split; [reflexivity|]. split; [reflexivity|].
    split; [exact EX|]. split; [exact EY|].
    split; [left; split; [reflexivity|exact X0]|].
    split; [rewrite pow2_51; lra|]. split; [exact Hb|].
    assert (Y1 : 0 <= w / ratio64 o) by (apply Qle_shift_div_l; lra).
    destruct (fl_near _ Y1) as [N1 N2]. rewrite eps_value in N1, N2.
    clear Dr R R1 R2 T EH EY Hb H0.
    set (H := fl (w / ratio64 o)) in *. clearbody H. clearbody o.
    rewrite over_ratio64 in N1, N2.
    split.
    + rewrite referenceAspect_value, pow2_51. apply Qabs_Qle_condition.
      destruct o; split; lra.
    + intros a b Eab La Lb. rewrite referenceAspect_value in Eab.
      rewrite P50. destruct o; split; lra.
Qed.

Lemma fit_is_largest_up_to_rounding_witness :
  let w := fl 385.7142857142857 in
  let h := fl 685.7142857142858 in
  isDouble w = true /\ isDouble h = true
  /\ pow2 (-1000) <= w /\ w <= pow2 1000
  /\ pow2 (-1000) <= h /\ h <= pow2 1000 /\
  let d := Binary64.getOptimalDimensions (Finite w) (Finite h) None in
  let A := referenceAspect (Binary64.dim_orientation d) in
  exists W H X Y,
    Binary64.dim_width d = Finite W /\ Binary64.dim_height d = Finite H
    /\ Binary64.dim_offsetX d = Finite X /\ Binary64.dim_offsetY d = Finite Y
    /\ ((W == w /\ X == 0) \/ (H == h /\ Y == 0))
    /\ W <= w * (1 + pow2 (-51)) /\ H <= h
    /\ Qabs (W - H * A) <= pow2 (-51) * W
    /\ forall a b : Q,
         a == b * A -> a <= w -> b <= h ->
         a <= W * (1 + pow2 (-50)) /\ b <= H * (1 + pow2 (-50)).
Proof.
  cbv zeta.
  split; [vm_compute; reflexivity|]. split; [vm_compute; reflexivity|].
  split; [vm_compute; discriminate|]. split; [vm_compute; discriminate|].
  split; [vm_compute; discriminate|]. split; [vm_compute; discriminate|].
  apply (fit_is_largest_up_to_rounding
           (fl 385.7142857142857) (fl 685.7142857142858) None);
    solve [vm_compute; reflexivity | vm_compute; discriminate].
Defined.

(** *** Scaling the viewport by a power of two *)

(** The tests of the solver see the same quotient. *)
Lemma tests_scale k w h f :
  pow2 (-500) <= w -> w <= pow2 500 ->
  pow2 (-500) <= h -> h <= pow2 500 ->
  resolvedOrientation (pow2 k * w) (pow2 k * h) f = resolvedOrientation w h f
  /\ fitsToHeight (pow2 k * w) (pow2 k * h) f = fitsToHeight w h f.
Proof.
  intros W1 W2 H1 H2. pose proof (pow2_pos k) as Pk.
  pose proof (pow2_pos (-500)) as P5.
  assert (Hw : 0 < w) by lra. assert (Hh : 0 < h) by lra.
  assert (Hh' : 0 < pow2 k * h) by (apply Qmult_lt_0_compat; assumption).
  assert (E : pow2 k * w / (pow2 k * h) == w / h) by (field; split; lra).
  assert (Q0 : 0 <= w / h) by (apply Qle_shift_div_l; lra).
  assert (Q1 : w / h <= pow2 1000).
  { apply Qle_shift_div_r; [exact Hh|].
    apply Qle_trans with (pow2 500); [exact W2|].
    apply Qle_trans with (pow2 1000 * pow2 (-500)).
    - rewrite <- pow2_add. apply pow2_le. lia.
    - apply Qmult_le_l; [apply pow2_pos|exact H1]. }
  assert (F : Qabs (fl (w / h)) < pow2 1024).
  { rewrite Qabs_pos by (apply fl_nonneg; exact Q0).
    apply Qle_lt_trans with (pow2 1000); [|apply pow2_lt; lia].
    rewrite <- (fl_pow2 1000) by (unfold emin; lia). apply fl_le. exact Q1. }
  assert (F' : Qabs (fl (pow2 k * w / (pow2 k * h))) < pow2 1024).
  { rewrite (fl_comp _ _ E). exact F. }
  assert (R : resolvedOrientation (pow2 k * w) (pow2 k * h) f
              = resolvedOrientation w h f).
  { unfold resolvedOrientation. rewrite !fdiv_finite by lra.
    rewrite (round_finite _ F), (round_finite _ F').
    unfold fgt, fle.
    rewrite (Qleb_morphism _ _ _ _ (fl_comp _ _ E) (Qeq_refl 1)). reflexivity. }
  split; [exact R|].
  unfold fitsToHeight. rewrite R, !fdiv_finite by lra.
  rewrite (round_finite _ F), (round_finite _ F').
  unfold fge, fle.
  apply Qleb_morphism; [reflexivity|apply fl_comp; exact E].
Qed.

Lemma solver_fields w h f :
  let d := Binary64.getOptimalDimensions (Finite w) (Finite h) f in
  Binary64.dim_scale d
  = fmin (fdiv (Binary64.dim_width d) (Finite 1920))
         (fdiv (Binary64.dim_height d) (Finite 1080))
  /\ Binary64.dim_offsetX d
     = fdiv (fsub (Finite w) (Binary64.dim_width d)) (Finite 2)
  /\ Binary64.dim_offsetY d
     = fdiv (fsub (Finite h) (Binary64.dim_height d)) (Finite 2).
Proof. cbv zeta. rewrite solver_eq. repeat split. Qed.

(** A product or a quotient by a ratio between 1/2 and 2. *)
Lemma times_ratio_range a b h r :
  1 # 2 <= r -> r <= 2 -> pow2 a <= h -> h <= pow2 b ->
  pow2 (a - 1) <= h * r /\ h * r <= pow2 (b + 1).
Proof.
  intros R1 R2 H1 H2. pose proof (pow2_pos a) as Pa.
  rewrite half_pow2, double_pow2.
  set (x := pow2 a) in *. set (y := pow2 b) in *. clearbody x y.
  split; nra.
Qed.

Lemma over_ratio_range a b w r :
  1 # 2 <= r -> r <= 2 -> pow2 a <= w -> w <= pow2 b ->
  pow2 (a - 1) <= w / r /\ w / r <= pow2 (b + 1).
Proof.
  intros R1 R2 H1 H2. pose proof (pow2_pos a) as Pa.
  rewrite half_pow2, double_pow2.
  set (x := pow2 a) in *. set (y := pow2 b) in *. clearbody x y.
  split.
  - apply Qle_shift_div_l; [lra|]. nra.
  - apply Qle_shift_div_r; [lra|]. nra.
Qed.

Lemma sides_scaled k w h f :
  (-400 <= k <= 400)%Z ->
  isDouble w = true -> isDouble h = true ->
  pow2 (-500) <= w -> w <= pow2 500 ->
  pow2 (-500) <= h -> h <= pow2 500 ->
  let d := Binary64.getOptimalDimensions (Finite w) (Finite h) f in
  let d' := Binary64.getOptimalDimensions
              (Finite (pow2 k * w)) (Finite (pow2 k * h)) f in
  Binary64.dim_orientation d' = Binary64.dim_orientation d
  /\ exists W H W' H',
       Binary64.dim_width d = Finite W /\ Binary64.dim_height d = Finite H
       /\ Binary64.dim_width d' = Finite W'
       /\ Binary64.dim_height d' = Finite H'
       /\ W' == pow2 k * W /\ H' == pow2 k * H
       /\ fl W == W /\ fl H == H
       /\ (pow2 (-501) <= W /\ W <= pow2 501)
       /\ (pow2 (-501) <= H /\ H <= pow2 501).
Proof.
  intros K Dw Dh W1 W2 H1 H2. cbv zeta. rewrite !solver_eq. cbv zeta.
  cbn [Binary64.dim_width Binary64.dim_height Binary64.dim_orientation].
  destruct (tests_scale k w h f W1 W2 H1 H2) as [R T]. rewrite R, T.
  split; [reflexivity|].
  set (o := resolvedOrientation w h f).
  pose proof (ratio64_bounds o) as [R1 R2].
  apply isDouble_spec in Dw. apply isDouble_spec in Dh.
  destruct Dw as [Fw _]. destruct Dh as [Fh _].
  pose proof (pow2_pos k) as Pk.
  assert (Ww : pow2 (-501) <= w /\ w <= pow2 501).
  { split; [apply Qle_trans with (pow2 (-500))|apply Qle_trans with (pow2 500)];
      try assumption; apply pow2_le; lia. }
  assert (Hh : pow2 (-501) <= h /\ h <= pow2 501).
  { split; [apply Qle_trans with (pow2 (-500))|apply Qle_trans with (pow2 500)];
      try assumption; apply pow2_le; lia. }
  destruct (fitsToHeight w h f).
  - pose proof (times_ratio_range (-500) 500 h _ R1 R2 H1 H2) as [B1 B2].
    change (-500 - 1)%Z with (-501)%Z in B1. change (500 + 1)%Z with 501%Z in B2.
    assert (M : moderate (h * ratio64 o))
      by (apply (moderate_range (-501) 501); [lia|lia|exact B1|exact B2]).
    assert (E : pow2 k * h * ratio64 o == pow2 k * (h * ratio64 o)) by ring.
    destruct (moderate_scale k _ _ K M E) as [Rs Fs].
    exists (fl (h * ratio64 o)), h, (fl (pow2 k * h * ratio64 o)), (pow2 k * h).
    unfold fmul. rewrite (round_moderate _ M), Rs.
    repeat split; try reflexivity; try assumption; try tauto.
    + apply fl_idem.
    + apply (fl_between_pos (-501) 501); try assumption; unfold emin; lia.
    + apply (fl_between_pos (-501) 501); try assumption; unfold emin; lia.
  - pose proof (over_ratio_range (-500) 500 w _ R1 R2 W1 W2) as [B1 B2].
    change (-500 - 1)%Z with (-501)%Z in B1. change (500 + 1)%Z with 501%Z in B2.
    assert (M : moderate (w / ratio64 o))
      by (apply (moderate_range (-501) 501); [lia|lia|exact B1|exact B2]).
    assert (E : pow2 k * w / ratio64 o == pow2 k * (w / ratio64 o))
      by (field; lra).
    destruct (moderate_scale k _ _ K M E) as [Rs Fs].
    exists w, (fl (w / ratio64 o)), (pow2 k * w), (fl (pow2 k * w / ratio64 o)).
    assert (N0 : ~ ratio64 o == 0) by lra.
    rewrite !fdiv_finite by exact N0. rewrite (round_moderate _ M), Rs.
    repeat split; try reflexivity; try assumption; try tauto.
    + apply fl_idem.
    + apply (fl_between_pos (-501) 501); try assumption; unfold emin; lia.
    + apply (fl_between_pos (-501) 501); try assumption; unfold emin; lia.
Qed.

Lemma quotient_scaled k x x' c :
  (-400 <= k <= 400)%Z -> 1 <= c -> c <= 2048 ->
  pow2 (-501) <= x -> x <= pow2 501 -> x' == pow2 k * x ->
  scaledNum (pow2 k) (fdiv (Finite x) (Finite c)) (fdiv (Finite x') (Finite c)).
Proof.
  intros K C1 C2 B1 B2 E. rewrite !fdiv_finite by lra.
  apply round_scaled; [exact K| |rewrite E; field; lra].
  assert (A : pow2 (-512) * 2048 == pow2 (-501)) by (vm_compute; reflexivity).
  pose proof (pow2_pos (-512)) as P. pose proof (pow2_pos 501) as P'.
  apply (moderate_range (-512) 501); [lia|lia| |].
  - apply Qle_shift_div_l; [lra|].
    set (a := pow2 (-512)) in *. clearbody a. nra.
  - apply Qle_shift_div_r; [lra|].
    set (a := pow2 501) in *. clearbody a. nra.
Qed.

Lemma offset_scaled k v V v' V' :
  (-400 <= k <= 400)%Z ->
  fl v == v -> fl V == V ->
  pow2 (-501) <= v -> v <= pow2 501 ->
  pow2 (-501) <= V -> V <= pow2 501 ->
  v' == pow2 k * v -> V' == pow2 k * V ->
  scaledNum (pow2 k) (fdiv (fsub (Finite v) (Finite V)) (Finite 2))
                     (fdiv (fsub (Finite v') (Finite V')) (Finite 2)).
Proof.
  intros K Fv FV B1 B2 B3 B4 Ev EV.
  pose proof (pow2_pos (-501)) as P.
  assert (G : pow2 (-554) == pow2 (-53) * pow2 (-501))
    by (rewrite <- pow2_add; reflexivity).
  assert (Z : v - V == 0
              \/ (pow2 (-554) <= Qabs (v - V) /\ Qabs (v - V) <= pow2 501)).
  { destruct (Q_dec v V) as [[L|L]|L].
    - right. pose proof (double_gap V v ltac:(lra) L FV Fv) as D.
      rewrite Qabs_neg by lra. rewrite G. rewrite eps_value in *.
      split; lra.
    - right. pose proof (double_gap v V ltac:(lra) L Fv FV) as D.
      rewrite Qabs_pos by lra. rewrite G. rewrite eps_value in *.
      split; lra.
    - left. lra. }
  assert (M : moderate (v - V)).
  { destruct Z as [Z|[Z1 Z2]]; [left; exact Z|right]. split.
    - apply Qle_trans with (pow2 (-554)); [apply pow2_le; lia|exact Z1].
    - apply Qle_trans with (pow2 501); [exact Z2|apply pow2_le; lia]. }
  assert (E : v' - V' == pow2 k * (v - V)) by (rewrite Ev, EV; ring).
  destruct (moderate_scale k _ _ K M E) as [R F].
  unfold fsub. rewrite (round_moderate _ M), R.
  rewrite !fdiv_finite by discriminate.
  apply round_scaled; [exact K| |rewrite F; field].
  destruct Z as [Z|[Z1 Z2]].
  - left. rewrite (fl_zero _ Z). reflexivity.
  - right.
    destruct (fl_between (-554) 501 _ ltac:(unfold emin; lia)
                ltac:(unfold emin; lia) Z1 Z2) as [C1 C2].
    assert (Eh : fl (v - V) / 2 == fl (v - V) * (1 # 2)) by field.
    rewrite Eh, Qabs_Qmult. change (Qabs (1 # 2)) with (1 # 2).
    pose proof (half_pow2 (-554)) as H5. change (-554 - 1)%Z with (-555)%Z in H5.
    pose proof (pow2_le (-600) (-555) ltac:(lia)) as L1.
    pose proof (pow2_le 501 600 ltac:(lia)) as L2.
    pose proof (pow2_pos 501) as P1.
    split; lra.
Qed.

(** X2. Scaling the viewport by a power of two scales the fit exactly.
    For a viewport whose width and height are doubles between 2^-500 and
    2^500 and a factor 2^k with -400 <= k <= 400, the resolved orientation
    is the same, and the fitted width and height, the scale and both
    offsets are finite and exactly 2^k times those of the unscaled
    viewport: a power of two passes through every rounding. *)
Theorem fit_scales_with_powers_of_two (k : Z) (w h : Q) (f : option string) :
  (-400 <= k <= 400)%Z ->
  isDouble w = true -> isDouble h = true ->
  pow2 (-500) <= w -> w <= pow2 500 ->
  pow2 (-500) <= h -> h <= pow2 500 ->
  let d := Binary64.getOptimalDimensions (Finite w) (Finite h) f in
  let d' := Binary64.getOptimalDimensions
              (Finite (pow2 k * w)) (Finite (pow2 k * h)) f in
  Binary64.dim_orientation d' = Binary64.dim_orientation d
  /\ scaledNum (pow2 k) (Binary64.dim_width d) (Binary64.dim_width d')
  /\ scaledNum (pow2 k) (Binary64.dim_height d) (Binary64.dim_height d')
  /\ scaledNum (pow2 k) (Binary64.dim_scale d) (Binary64.dim_scale d')
  /\ scaledNum (pow2 k) (Binary64.dim_offsetX d) (Binary64.dim_offsetX d')
  /\ scaledNum (pow2 k) (Binary64.dim_offsetY d) (Binary64.dim_offsetY d').
Proof.
  intros K Dw Dh W1 W2 H1 H2.
  destruct (sides_scaled k w h f K Dw Dh W1 W2 H1 H2)
    as [O [W [H [W' [H' (EW & EH & EW' & EH' & SW & SH & FW & FH & BW & BH)]]]]].
  destruct (solver_fields w h f) as (S1 & X1 & Y1).
  destruct (solver_fields (pow2 k * w) (pow2 k * h) f) as (S2 & X2 & Y2).
  cbv zeta in *. split; [exact O|].
  rewrite S1, X1, Y1, S2, X2, Y2, EW, EH, EW', EH'.
  destruct BW as [BW1 BW2]. destruct BH as [BH1 BH2].
  apply isDouble_spec in Dw. apply isDouble_spec in Dh.
  destruct Dw as [Fw _]. destruct Dh as [Fh _].
  pose proof (pow2_le (-501) (-500) ltac:(lia)) as L1.
  pose proof (pow2_le 500 501 ltac:(lia)) as L2.
  split; [exact SW|]. split; [exact SH|].
  split; [|split].
  - apply fmin_scaled; [apply pow2_pos| |];
      apply quotient_scaled; try assumption; try reflexivity;
      vm_compute; discriminate.
  - apply offset_scaled; try assumption; try reflexivity; lra.
  - apply offset_scaled; try assumption; try reflexivity; lra.
Qed.

Lemma fit_scales_with_powers_of_two_witness :
  (-400 <= 1 <= 400)%Z
  /\ isDouble 1280 = true /\ isDouble 600 = true
  /\ pow2 (-500) <= 1280 /\ 1280 <= pow2 500
  /\ pow2 (-500) <= 600 /\ 600 <= pow2 500 /\
  let d := Binary64.getOptimalDimensions (Finite 1280) (Finite 600) None in
  let d' := Binary64.getOptimalDimensions
              (Finite (pow2 1 * 1280)) (Finite (pow2 1 * 600)) None in
  Binary64.dim_orientation d' = Binary64.dim_orientation d
  /\ scaledNum (pow2 1) (Binary64.dim_width d) (Binary64.dim_width d')
  /\ scaledNum (pow2 1) (Binary64.dim_height d) (Binary64.dim_height d')
  /\ scaledNum (pow2 1) (Binary64.dim_scale d) (Binary64.dim_scale d')
  /\ scaledNum (pow2 1) (Binary64.dim_offsetX d) (Binary64.dim_offsetX d')
  /\ scaledNum (pow2 1) (Binary64.dim_offsetY d) (Binary64.dim_offsetY d').
Proof.
  split; [lia|].
  split; [vm_compute; reflexivity|]. split; [vm_compute; reflexivity|].
  split; [vm_compute; discriminate|]. split; [vm_compute; discriminate|].
  split; [vm_compute; discriminate|]. split; [vm_compute; discriminate|].
  apply (fit_scales_with_powers_of_two 1 1280 600 None);
    try lia; vm_compute; try reflexivity; discriminate.
Defined.

(** A factor that is no power of two does not pass through the rounding:
    the 1280 x 600 viewport is fitted to the height with width
    1066.6666666666665, and three times the viewport with width 3200. *)
Example fit_does_not_scale_by_three :
  let d := Binary64.getOptimalDimensions (Finite 1280) (Finite 600) None in
  let d' := Binary64.getOptimalDimensions (Finite 3840) (Finite 1800) None in
  feq (Binary64.dim_width d) (round 1066.6666666666665) = true
  /\ feq (Binary64.dim_width d') (Finite 3200) = true
  /\ ~ scaledNum 3 (Binary64.dim_width d) (Binary64.dim_width d').
Proof.
  cbv zeta. split; [vm_compute; reflexivity|]. split; [vm_compute; reflexivity|].
  vm_compute. discriminate.
Qed.

(** *** Fitting the fit again *)

(** The rounded product and quotient by the target ratio, with the ratio
    written out. *)
Lemma product_near o h :
  0 <= h ->
  let A := match o with
           | landscape => 2001599834386887 # 1125899906842624
           | portrait => 9 # 16
           end in
  h * A - (1 # 9007199254740992) * (h * A) - pow2 (-1075)
  <= fl (h * ratio64 o)
  /\ fl (h * ratio64 o)
     <= h * A + (1 # 9007199254740992) * (h * A) + pow2 (-1075).
Proof.
  intros H0 A. pose proof (ratio64_bounds o) as [R1 R2].
  assert (Y0 : 0 <= h * ratio64 o) by nra.
  pose proof (fl_near _ Y0) as N. rewrite eps_value in N.
  set (W := fl (h * ratio64 o)) in *. clearbody W.
  rewrite ratio64_value in N. subst A. destruct o; exact N.
Qed.

Lemma quotient_near o w :
  0 <= w ->
  let B := match o with
           | landscape => 1125899906842624 # 2001599834386887
           | portrait => 16 # 9
           end in
  w * B - (1 # 9007199254740992) * (w * B) - pow2 (-1075)
  <= fl (w / ratio64 o)
  /\ fl (w / ratio64 o)
     <= w * B + (1 # 9007199254740992) * (w * B) + pow2 (-1075).
Proof.
  intros H0 B. pose proof (ratio64_bounds o) as [R1 R2].
  assert (Y0 : 0 <= w / ratio64 o) by (apply Qle_shift_div_l; lra).
  pose proof (fl_near _ Y0) as N. rewrite eps_value in N.
  set (H := fl (w / ratio64 o)) in *. clearbody H.
  rewrite over_ratio64 in N. subst B. destruct o; exact N.
Qed.

(** The fitted rectangle has the orientation of the viewport it was fitted
    to: it is wider than high exactly when it was fitted as landscape. *)
Lemma fit_is_oriented o w h W H :
  pow2 (-1000) <= w -> pow2 (-1000) <= h ->
  (W = fl (h * ratio64 o) /\ H = h) \/ (W = w /\ H = fl (w / ratio64 o)) ->
  match o with landscape => H < W | portrait => W < H end.
Proof.
  intros W1 H1 C.
  pose proof (pow2_pos (-1000)) as P. pose proof (pow2_pos (-1075)) as T0.
  pose proof (tiny_below w W1) as Tw. pose proof (tiny_below h H1) as Th.
  rewrite pow2_75 in Tw, Th.
  destruct C as [[EW EH]|[EW EH]].
  - pose proof (product_near o h ltac:(lra)) as N. cbv zeta in N.
    rewrite <- EW in N. rewrite EH. clear EW EH. destruct o; lra.
  - pose proof (quotient_near o w ltac:(lra)) as N. cbv zeta in N.
    rewrite <- EH in N. rewrite EW. clear EW EH. destruct o; lra.
Qed.

Lemma refit_orientation w h f W H :
  0 < w -> 0 < h -> isDouble w = true -> isDouble h = true ->
  pow2 (-1000) <= w -> pow2 (-1000) <= h ->
  0 < W -> 0 < H -> isDouble W = true -> isDouble H = true ->
  let r := ratio64 (resolvedOrientation w h f) in
  (W = fl (h * r) /\ H = h) \/ (W = w /\ H = fl (w / r)) ->
  resolvedOrientation W H f = resolvedOrientation w h f.
Proof.
  intros Hw Hh Dw Dh W1 H1 HW HH DW DH r C.
  pose proof (fit_is_oriented _ w h W H W1 H1 C) as O.
  clear C. subst r. revert O. unfold resolvedOrientation.
  destruct (strictEq f "landscape"); [reflexivity|].
  destruct (falsy f); [|reflexivity]. cbn [orb andb].
  rewrite !isLandscape_exact by assumption.
  destruct (Qltb_spec h w) as [L|L]; intro O;
    destruct (Qltb_spec H W) as [L'|L']; try reflexivity; lra.
Qed.

(** Fitted to the height and then, the rounded product being short of the
    exact one, to the width: the height comes back within 2^-51. *)
Lemma back_to_height o h W :
  fl h == h -> pow2 (-1000) <= h ->
  W = fl (h * ratio64 o) -> W < h * ratio64 o ->
  fl (W / ratio64 o) <= h /\ h - pow2 (-51) * h <= fl (W / ratio64 o).
Proof.
  intros Fh H1 EW L. pose proof (ratio64_bounds o) as [R1 R2].
  pose proof (pow2_pos (-1000)) as P. pose proof (pow2_pos (-1075)) as T0.
  pose proof (tiny_below h H1) as Th. rewrite pow2_75 in Th.
  pose proof (product_near o h ltac:(lra)) as N. cbv zeta in N.
  rewrite <- EW in N. clear EW.
  split.
  - apply Qle_trans with (fl h); [|rewrite Fh; apply Qle_refl].
    apply fl_le. apply Qle_shift_div_r; lra.
  - assert (W0 : 0 <= W) by (destruct o; lra).
    pose proof (quotient_near o W W0) as M. cbv zeta in M.
    set (H := fl (W / ratio64 o)) in *. clearbody H.
    rewrite pow2_51. destruct o; lra.
Qed.

(** Fitted to the width and then to the height: the width comes back
    within 2^-51. *)
Lemma back_to_width o w H :
  pow2 (-1000) <= w ->
  H = fl (w / ratio64 o) -> H * ratio64 o <= w + pow2 (-53) * w ->
  Qabs (fl (H * ratio64 o) - w) <= pow2 (-51) * w.
Proof.
  intros W1 EH L. pose proof (ratio64_bounds o) as [R1 R2].
  pose proof (pow2_pos (-1000)) as P. pose proof (pow2_pos (-1075)) as T0.
  pose proof (tiny_below w W1) as Tw. rewrite pow2_75 in Tw.
  pose proof (quotient_near o w ltac:(lra)) as N. cbv zeta in N.
  rewrite <- EH in N. clear EH.
  assert (H0 : 0 <= H) by (destruct o; lra).
  pose proof (product_near o H H0) as M. cbv zeta in M.
  assert (A0 : 0 <= w + pow2 (-53) * w) by (rewrite eps_value; lra).
  pose proof (fl_above _ _ A0 L) as U.
  set (W := fl (H * ratio64 o)) in *. clearbody W.
  rewrite eps_value in U. rewrite pow2_51.
  apply Qabs_Qle_condition. split; [destruct o; lra|lra].
Qed.

(** Half a difference of at most 2^-51 of a side. *)
Lemma small_offset v V :
  pow2 (-1000) <= v -> v <= pow2 1000 ->
  Qabs (v - V) <= pow2 (-51) * v ->
  exists X, fdiv (fsub (Finite v) (Finite V)) (Finite 2) = Finite X
            /\ Qabs X <= pow2 (-51) * v.
Proof.
  intros V1 V2 B.
  pose proof (pow2_pos (-1000)) as P. pose proof (pow2_pos (-1075)) as T0.
  pose proof (tiny_below v V1) as Tv. rewrite pow2_75 in Tv.
  pose proof pow2_1000_small as Big.
  apply Qabs_Qle_condition in B. destruct B as [B1 B2].
  rewrite pow2_51 in *.
  set (a := (1 # 2251799813685248) * v) in *.
  assert (A0 : 0 <= a) by (unfold a; lra).
  pose proof (fl_above (v - V) a A0 B2) as U1.
  pose proof (fl_below (v - V) a A0 B1) as U2.
  rewrite eps_value in U1, U2.
  set (z := fl (v - V)) in *.
  set (b := (a + (1 # 9007199254740992) * a + pow2 (-1075)) * (1 # 2)).
  assert (B0 : 0 <= b) by (unfold b; lra).
  assert (Eh : z / 2 == z * (1 # 2)) by field.
  assert (Z1 : z / 2 <= b) by (rewrite Eh; unfold b; lra).
  assert (Z2 : - b <= z / 2) by (rewrite Eh; unfold b; lra).
  pose proof (fl_above (z / 2) b B0 Z1) as X1.
  pose proof (fl_below (z / 2) b B0 Z2) as X2.
  rewrite eps_value in X1, X2.
  assert (Ez : fsub (Finite v) (Finite V) = Finite z).
  { unfold fsub. apply round_bounded with (v * 2); [|lra].
    fold z. apply Qabs_Qle_condition. unfold a in *. split; lra. }
  rewrite Ez, fdiv_finite by discriminate.
  exists (fl (z / 2)). split.
  - apply round_bounded with (v * 2); [|lra].
    apply Qabs_Qle_condition. unfold b, a in *. split; lra.
  - rewrite ?pow2_51. apply Qabs_Qle_condition. unfold b, a in *. split; lra.
Qed.

(** The quotients of two sides that differ by at most 2^-51. *)
Lemma quotient_close x x' (p : positive) :
  (p = 1920 \/ p = 1080)%positive ->
  pow2 (-990) <= x -> x <= pow2 1000 ->
  Qabs (x' - x) <= pow2 (-51) * x ->
  exists a a',
    fdiv (Finite x) (Finite (Zpos p # 1)) = Finite a
    /\ fdiv (Finite x') (Finite (Zpos p # 1)) = Finite a'
    /\ 0 < a /\ Qabs (a' - a) <= pow2 (-50) * a.
Proof.
  intros Hp X1 X2 B.
  pose proof (pow2_pos (-990)) as P. pose proof (pow2_pos (-1075)) as T0.
  assert (E10 : pow2 (-1000) == pow2 (-990) * (1 # 1024))
    by (vm_compute; reflexivity).
  assert (T : pow2 (-1075) <= pow2 (-75) * (x * (1 # 1024))).
  { apply tiny_below. rewrite E10. lra. }
  rewrite pow2_75 in T.
  assert (P1k : 2 <= pow2 1000) by (vm_compute; discriminate).
  apply Qabs_Qle_condition in B. destruct B as [B1 B2].
  rewrite pow2_51 in B1, B2.
  assert (X0 : 0 <= x) by lra.
  assert (X0' : 0 <= x') by lra.
  assert (Xb : x <= pow2 1000 * 2) by lra.
  assert (Xb' : x' <= pow2 1000 * 2) by lra.
  destruct (quotient_finite x p X0 Xb) as [Ea [La Ua]].
  destruct (quotient_finite x' p X0' Xb') as [Ea' [La' Ua']].
  rewrite eps_value in La, Ua, La', Ua'.
  exists (fl (x / (Zpos p # 1))), (fl (x' / (Zpos p # 1))).
  split; [exact Ea|]. split; [exact Ea'|].
  set (a := fl (x / (Zpos p # 1))) in *.
  set (a' := fl (x' / (Zpos p # 1))) in *. clearbody a a'.
  change (pow2 (-50)) with (1 # 1125899906842624).
  destruct Hp as [Hp|Hp]; subst p; (split; [lra|]);
    apply Qabs_Qle_condition; split; lra.
Qed.

Lemma fmin_close a b a' b' :
  0 < a -> 0 < b ->
  Qabs (a' - a) <= pow2 (-50) * a ->
  Qabs (b' - b) <= pow2 (-50) * b ->
  exists S S',
    fmin (Finite a) (Finite b) = Finite S
    /\ fmin (Finite a') (Finite b') = Finite S'
    /\ Qabs (S' - S) <= pow2 (-50) * S.
Proof.
  intros A0 B0 A B.
  apply Qabs_Qle_condition in A. apply Qabs_Qle_condition in B.
  change (pow2 (-50)) with (1 # 1125899906842624) in *.
  unfold fmin, fle.
  destruct (Qleb_spec a b); destruct (Qleb_spec a' b');
    eexists; eexists; (split; [reflexivity|]); (split; [reflexivity|]);
    apply Qabs_Qle_condition; split; lra.
Qed.

Lemma zero_within e v : 0 <= e -> 0 <= v -> forall X, X == 0 -> Qabs X <= e * v.
Proof.
  intros E V X Z. rewrite Z. change (Qabs 0) with 0.
  apply Qmult_le_0_compat; assumption.
Qed.

Lemma same_within e v : 0 <= e -> 0 <= v -> Qabs (v - v) <= e * v.
Proof. intros E V. apply zero_within; [exact E|exact V|ring]. Qed.

(** The fit of a fit: one side is the same, the other within 2^-51. *)
Lemma refit_sides w h f :
  isDouble w = true -> isDouble h = true ->
  pow2 (-900) <= w -> w <= pow2 900 ->
  pow2 (-900) <= h -> h <= pow2 900 ->
  let d := Binary64.getOptimalDimensions (Finite w) (Finite h) f in
  exists W H W' H',
    Binary64.dim_width d = Finite W /\ Binary64.dim_height d = Finite H
    /\ Binary64.dim_width (Binary64.getOptimalDimensions (Finite W) (Finite H) f)
       = Finite W'
    /\ Binary64.dim_height (Binary64.getOptimalDimensions (Finite W) (Finite H) f)
       = Finite H'
    /\ Binary64.dim_orientation
         (Binary64.getOptimalDimensions (Finite W) (Finite H) f)
       = Binary64.dim_orientation d
    /\ isDouble W = true /\ isDouble H = true
    /\ (pow2 (-901) <= W /\ W <= pow2 901)
    /\ (pow2 (-901) <= H /\ H <= pow2 901)
    /\ (W' = W \/ H' = H)
    /\ Qabs (W' - W) <= pow2 (-51) * W
    /\ Qabs (H' - H) <= pow2 (-51) * H.
Proof.
  intros Dw Dh W1 W2 H1 H2.
  assert (W1' : pow2 (-1000) <= w)
    by (apply Qle_trans with (pow2 (-900)); [apply pow2_le; lia|exact W1]).
  assert (W2' : w <= pow2 1000)
    by (apply Qle_trans with (pow2 900); [exact W2|apply pow2_le; lia]).
  assert (H1' : pow2 (-1000) <= h)
    by (apply Qle_trans with (pow2 (-900)); [apply pow2_le; lia|exact H1]).
  assert (H2' : h <= pow2 1000)
    by (apply Qle_trans with (pow2 900); [exact H2|apply pow2_le; lia]).
  destruct (fit_branches w h f Dw Dh W1' W2' H1' H2')
    as [W [H (EW & EH & _ & C)]].
  cbv zeta in *.
  assert (O : Binary64.dim_orientation
                (Binary64.getOptimalDimensions (Finite w) (Finite h) f)
              = resolvedOrientation w h f)
    by (rewrite solver_eq; reflexivity).
  rewrite O in C |- *.
  set (o := resolvedOrientation w h f) in *.
  pose proof (ratio64_bounds o) as [R1 R2].
  pose proof (pow2_pos (-1000)) as P. pose proof (pow2_pos (-901)) as P9.
  pose proof (pow2_lt 901 1024 ltac:(lia)) as P10.
  pose proof Dw as Dw'. pose proof Dh as Dh'.
  apply isDouble_spec in Dw'. apply isDouble_spec in Dh'.
  destruct Dw' as [Fw _]. destruct Dh' as [Fh _].
  assert (Ww : pow2 (-901) <= w /\ w <= pow2 901).
  { split; [apply Qle_trans with (pow2 (-900))|apply Qle_trans with (pow2 900)];
      try assumption; apply pow2_le; lia. }
  assert (Hh : pow2 (-901) <= h /\ h <= pow2 901).
  { split; [apply Qle_trans with (pow2 (-900))|apply Qle_trans with (pow2 900)];
      try assumption; apply pow2_le; lia. }
  assert (BW : pow2 (-901) <= W /\ W <= pow2 901).
  { destruct C as [(E1 & _ & _)|(E1 & _ & _)]; rewrite E1; [|exact Ww].
    pose proof (times_ratio_range (-900) 900 h _ R1 R2 H1 H2) as [B1 B2].
    apply (fl_between_pos (-901) 901); try assumption; unfold emin; lia. }
  assert (BH : pow2 (-901) <= H /\ H <= pow2 901).
  { destruct C as [(_ & E2 & _)|(_ & E2 & _)]; rewrite E2; [exact Hh|].
    pose proof (over_ratio_range (-900) 900 w _ R1 R2 W1 W2) as [B1 B2].
    apply (fl_between_pos (-901) 901); try assumption; unfold emin; lia. }
  assert (DW : isDouble W = true).
  { destruct C as [(E1 & _ & _)|(E1 & _ & _)]; [|rewrite E1; exact Dw].
    rewrite E1. apply isDouble_fl. rewrite <- E1.
    rewrite Qabs_pos by lra. lra. }
  assert (DH : isDouble H = true).
  { destruct C as [(_ & E2 & _)|(_ & E2 & _)]; [rewrite E2; exact Dh|].
    rewrite E2. apply isDouble_fl. rewrite <- E2.
    rewrite Qabs_pos by lra. lra. }
  assert (BW1 : pow2 (-1000) <= W)
    by (apply Qle_trans with (pow2 (-901)); [apply pow2_le; lia|tauto]).
  assert (BW2 : W <= pow2 1000)
    by (apply Qle_trans with (pow2 901); [tauto|apply pow2_le; lia]).
  assert (BH1 : pow2 (-1000) <= H)
    by (apply Qle_trans with (pow2 (-901)); [apply pow2_le; lia|tauto]).
  assert (BH2 : H <= pow2 1000)
    by (apply Qle_trans with (pow2 901); [tauto|apply pow2_le; lia]).
  assert (O' : resolvedOrientation W H f = o).
  { apply refit_orientation; try assumption; try lra.
    fold o. destruct C as [(E1 & E2 & _)|(E1 & E2 & _)]; [left|right];
      split; assumption. }
  destruct (fit_branches W H f DW DH BW1 BW2 BH1 BH2)
    as [W' [H' (EW' & EH' & _ & C')]].
  cbv zeta in C'.
  assert (O2 : Binary64.dim_orientation
                 (Binary64.getOptimalDimensions (Finite W) (Finite H) f) = o)
    by (rewrite solver_eq; exact O').
  rewrite O2 in C'.
  exists W, H, W', H'.
  split; [exact EW|]. split; [exact EH|]. split; [exact EW'|].
  split; [exact EH'|]. split; [exact O2|].
  split; [exact DW|]. split; [exact DH|]. split; [exact BW|]. split; [exact BH|].
  assert (E0 : 0 <= pow2 (-51)) by (apply Qlt_le_weak, pow2_pos).
  assert (W0 : 0 <= W) by lra. assert (H0 : 0 <= H) by lra.
  destruct C as [(E1 & E2 & L)|(E1 & E2 & L)];
    destruct C' as [(E1' & E2' & L')|(E1' & E2' & L')].
  - assert (EWW : W' = W) by (rewrite E1', E1, E2; reflexivity).
    rewrite EWW, E2'. split; [left; reflexivity|].
    split; apply same_within; assumption.
  - rewrite E1'. split; [left; reflexivity|]. split; [apply same_within; assumption|].
    rewrite E2 in L' |- *.
    destruct (back_to_height o h W Fh H1' E1 L') as [U1 U2].
    rewrite E2'. apply Qabs_Qle_condition.
    pose proof (pow2_pos (-51)). split; nra.
  - rewrite E2'. split; [right; reflexivity|].
    split; [|apply same_within; assumption].
    rewrite E1 in L' |- *. rewrite E1'.
    apply back_to_width; assumption.
  - assert (EHH : H' = H) by (rewrite E2', E1, E2; reflexivity).
    rewrite EHH, E1'. split; [left; reflexivity|].
    split; apply same_within; assumption.
Qed.

(** X3. Fitting the fit again gives it back, up to rounding.  For a
    viewport whose width and height are doubles between 2^-900 and 2^900,
    [getOptimalDimensions] on the fitted width and height, with the same
    orientation preference, resolves the same orientation; one of its
    sides is the fitted side again, with offset 0 on that axis; width and
    height differ from the fitted ones by at most 2^-51 of them and the
    scale by at most 2^-50 of it; and the offsets are at most 2^-51 of the
    fitted sides. *)
Theorem refit_is_identity_up_to_rounding (w h : Q) (f : option string) :
  isDouble w = true -> isDouble h = true ->
  pow2 (-900) <= w -> w <= pow2 900 ->
  pow2 (-900) <= h -> h <= pow2 900 ->
  let d := Binary64.getOptimalDimensions (Finite w) (Finite h) f in
  let d' := Binary64.getOptimalDimensions
              (Binary64.dim_width d) (Binary64.dim_height d) f in
  Binary64.dim_orientation d' = Binary64.dim_orientation d
  /\ exists W H S W' H' S' X' Y',
       Binary64.dim_width d = Finite W /\ Binary64.dim_height d = Finite H
       /\ Binary64.dim_scale d = Finite S
       /\ Binary64.dim_width d' = Finite W'
       /\ Binary64.dim_height d' = Finite H'
       /\ Binary64.dim_scale d' = Finite S'
       /\ Binary64.dim_offsetX d' = Finite X'
       /\ Binary64.dim_offsetY d' = Finite Y'
       /\ ((W' == W /\ X' == 0) \/ (H' == H /\ Y' == 0))
       /\ Qabs (W' - W) <= pow2 (-51) * W
       /\ Qabs (H' - H) <= pow2 (-51) * H
       /\ Qabs (S' - S) <= pow2 (-50) * S
       /\ Qabs X' <= pow2 (-51) * W
       /\ Qabs Y' <= pow2 (-51) * H.
Proof.
  intros Dw Dh W1 W2 H1 H2.
  destruct (refit_sides w h f Dw Dh W1 W2 H1 H2)
    as [W [H [W' [H' (EW & EH & EW' & EH' & O & DW & DH & BW & BH & K & GW & GH)]]]].
  cbv zeta in *. rewrite EW, EH.
  split; [exact O|].
  destruct (solver_fields w h f) as (ES & _ & _).
  destruct (solver_fields W H f) as (ES' & EX & EY). cbv zeta in *.
  rewrite EW, EH in ES. rewrite EW', EH' in ES'.
  rewrite EW' in EX. rewrite EH' in EY.
  destruct BW as [BW1 BW2]. destruct BH as [BH1 BH2].
  pose proof (pow2_le (-1000) (-901) ltac:(lia)) as L1.
  pose proof (pow2_le (-990) (-901) ltac:(lia)) as L2.
  pose proof (pow2_le 901 1000 ltac:(lia)) as L3.
  pose proof (pow2_pos (-1000)) as P. pose proof (pow2_pos (-51)) as P51.
  destruct (quotient_close W W' 1920 (or_introl eq_refl)
              ltac:(lra) ltac:(lra) GW) as [a [a' (Ea & Ea' & A0 & A)]].
  destruct (quotient_close H H' 1080 (or_intror eq_refl)
              ltac:(lra) ltac:(lra) GH) as [b [b' (Eb & Eb' & B0 & B)]].
  destruct (fmin_close a b a' b' A0 B0 A B) as [S [S' (E1 & E2 & G)]].
  change (Finite (Zpos 1920 # 1)) with (Finite 1920) in Ea, Ea'.
  change (Finite (Zpos 1080 # 1)) with (Finite 1080) in Eb, Eb'.
  rewrite Ea, Eb, E1 in ES. rewrite Ea', Eb', E2 in ES'.
  assert (GW' : Qabs (W - W') <= pow2 (-51) * W) by (rewrite Qabs_Qminus; exact GW).
  assert (GH' : Qabs (H - H') <= pow2 (-51) * H) by (rewrite Qabs_Qminus; exact GH).
  destruct K as [K|K].
  - destruct (small_offset H H' ltac:(lra) ltac:(lra) GH') as [Y [EY' BY]].
    rewrite EY' in EY. rewrite K in EX.
    destruct (offset_zero W DW) as [X [EX' ZX]]. rewrite EX' in EX.
    exists W, H, S, W', H', S', X, Y.
    repeat (split; [first [assumption|reflexivity]|]).
    split; [left; split; [rewrite K; reflexivity|exact ZX]|].
    repeat (split; [assumption|]).
    split; [|exact BY]. apply zero_within; [lra|lra|exact ZX].
  - destruct (small_offset W W' ltac:(lra) ltac:(lra) GW') as [X [EX' BX]].
    rewrite EX' in EX. rewrite K in EY.
    destruct (offset_zero H DH) as [Y [EY' ZY]]. rewrite EY' in EY.
    exists W, H, S, W', H', S', X, Y.
    repeat (split; [first [assumption|reflexivity]|]).
    split; [right; split; [rewrite K; reflexivity|exact ZY]|].
    repeat (split; [assumption|]).
    apply zero_within; [lra|lra|exact ZY].
Qed.

Lemma refit_is_identity_up_to_rounding_witness :
  let w := fl 385.4543334461593 in
  let h := fl 3478.056593729631 in
  isDouble w = true /\ isDouble h = true
  /\ pow2 (-900) <= w /\ w <= pow2 900
  /\ pow2 (-900) <= h /\ h <= pow2 900 /\
  let d := Binary64.getOptimalDimensions (Finite w) (Finite h) None in
  let d' := Binary64.getOptimalDimensions
              (Binary64.dim_width d) (Binary64.dim_height d) None in
  Binary64.dim_orientation d' = Binary64.dim_orientation d
  /\ exists W H S W' H' S' X' Y',
       Binary64.dim_width d = Finite W /\ Binary64.dim_height d = Finite H
       /\ Binary64.dim_scale d = Finite S
       /\ Binary64.dim_width d' = Finite W'
       /\ Binary64.dim_height d' = Finite H'
       /\ Binary64.dim_scale d' = Finite S'
       /\ Binary64.dim_offsetX d' = Finite X'
       /\ Binary64.dim_offsetY d' = Finite Y'
       /\ ((W' == W /\ X' == 0) \/ (H' == H /\ Y' == 0))
       /\ Qabs (W' - W) <= pow2 (-51) * W
       /\ Qabs (H' - H) <= pow2 (-51) * H
       /\ Qabs (S' - S) <= pow2 (-50) * S
       /\ Qabs X' <= pow2 (-51) * W
       /\ Qabs Y' <= pow2 (-51) * H.
Proof.
  cbv zeta.
  split; [vm_compute; reflexivity|]. split; [vm_compute; reflexivity|].
  split; [vm_compute; discriminate|]. split; [vm_compute; discriminate|].
  split; [vm_compute; discriminate|]. split; [vm_compute; discriminate|].
  apply (refit_is_identity_up_to_rounding
           (fl 385.4543334461593) (fl 3478.056593729631) None);
    vm_compute; try reflexivity; discriminate.
Defined.

(** Fitting the fit again is not always the identity: the viewport
    385.4543334461593 x 3478.056593729631 is fitted to the width, with
    height 685.2521483487276, and that rectangle is fitted to its height,
    with width 385.45433344615924. *)
Example refit_moves_the_width :
  let d := Binary64.getOptimalDimensions
             (round 385.4543334461593) (round 3478.056593729631) None in
  let d' := Binary64.getOptimalDimensions
              (Binary64.dim_width d) (Binary64.dim_height d) None in
  feq (Binary64.dim_width d) (round 385.4543334461593) = true
  /\ feq (Binary64.dim_height d) (round 685.2521483487276) = true
  /\ feq (Binary64.dim_height d') (Binary64.dim_height d) = true
  /\ feq (Binary64.dim_width d') (round 385.45433344615924) = true
  /\ fgt (Binary64.dim_width d) (Binary64.dim_width d') = true
  /\ fgt (Binary64.dim_offsetX d') (Finite 0) = true.
Proof. vm_compute. repeat split; reflexivity. Qed.

(** X4. The scale in terms of the viewport, up to rounding.  For a viewport
    whose width and height are doubles between 2^-1000 and 2^1000 the scale
    is positive and differs by at most 2^-50 of it from
    min(width/1920, height/1080) in landscape and from
    min(width, height * 9/16) / 1920 in portrait. *)
Theorem scale_of_viewport_up_to_rounding (w h : Q) (f : option string) :
  isDouble w = true -> isDouble h = true ->
  pow2 (-1000) <= w -> w <= pow2 1000 ->
  pow2 (-1000) <= h -> h <= pow2 1000 ->
  let d := Binary64.getOptimalDimensions (Finite w) (Finite h) f in
  let M := match Binary64.dim_orientation d with
           | landscape => Qmin (w / 1920) (h / 1080)
           | portrait => Qmin w (h * (9 / 16)) / 1920
           end in
  exists S,
    Binary64.dim_scale d = Finite S
    /\ 0 < S /\ Qabs (S - M) <= pow2 (-50) * M.
Proof.
  intros Dw Dh W1 W2 H1 H2. cbv zeta.
  destruct (fit_branches w h f Dw Dh W1 W2 H1 H2) as [W [H [_ [_ [ES C]]]]].
  cbv zeta in C. rewrite ES. clear ES.
  set (o := Binary64.dim_orientation
              (Binary64.getOptimalDimensions (Finite w) (Finite h) f)) in *.
  clearbody o.
  pose proof (pow2_pos (-1000)) as P.
  pose proof (pow2_pos (-1075)) as T0.
  pose proof (tiny_below w W1) as Tw. pose proof (tiny_below h H1) as Th.
  rewrite pow2_75 in Tw, Th.
  assert (P50 : pow2 (-50) == 1 # 1125899906842624) by reflexivity.
  assert (B : 0 <= W /\ W <= pow2 1000 * 2 /\ 0 <= H /\ H <= pow2 1000 * 2
              /\ ((W - h * ratio64 o <= (1 # 9007199254740992) * (h * ratio64 o) + pow2 (-1075)
                   /\ h * ratio64 o - W <= (1 # 9007199254740992) * (h * ratio64 o) + pow2 (-1075)
                   /\ H == h
                   /\ h * ratio64 o <= w + (1 # 9007199254740992) * w)
                  \/ (W == w
                      /\ H - w / ratio64 o <= (1 # 9007199254740992) * (w / ratio64 o) + pow2 (-1075)
                      /\ w / ratio64 o - H <= (1 # 9007199254740992) * (w / ratio64 o) + pow2 (-1075)
                      /\ w < h * ratio64 o))).
  { pose proof (ratio64_bounds o) as [R1 R2].
    destruct C as [[-> [-> N]]|[-> [-> N]]].
    - assert (Y0 : 0 <= h * ratio64 o) by nra.
      destruct (fl_near _ Y0) as [N1 N2]. rewrite eps_value in N1, N2, N.
      pose proof (fl_nonneg _ Y0) as F0.
      assert (Y1 : h * ratio64 o <= h * 2) by nra.
      split; [lra|]. split; [lra|]. split; [lra|]. split; [lra|].
      left. repeat split; lra.
    - assert (Y0 : 0 <= w / ratio64 o) by (apply Qle_shift_div_l; lra).
      destruct (fl_near _ Y0) as [N1 N2]. rewrite eps_value in N1, N2.
      pose proof (fl_nonneg _ Y0) as F0.
      assert (Y1 : fl (w / ratio64 o) <= h).
      { apply isDouble_spec in Dh. destruct Dh as [Fh _]. rewrite <- Fh.
        apply fl_le, Qle_shift_div_r; lra. }
      split; [lra|]. split; [lra|]. split; [lra|]. split; [lra|].
      right. repeat split; lra. }
  clear C. destruct B as [W0 [Wb [H0 [Hb C]]]].
  change (Finite 1920) with (Finite (1920 # 1)).
  change (Finite 1080) with (Finite (1080 # 1)).
  destruct (quotient_finite W 1920 W0 Wb) as [Ea [A1 A2]].
  destruct (quotient_finite H 1080 H0 Hb) as [Eb [B1 B2]].
  rewrite Ea, Eb. rewrite eps_value in A1, A2, B1, B2.
  set (a := fl (W / (1920 # 1))) in *. set (b := fl (H / (1080 # 1))) in *.
  clearbody a b.
  assert (ES : exists S, fmin (Finite a) (Finite b) = Finite S
                         /\ (S = a \/ S = b) /\ S <= a /\ S <= b).
  { unfold fmin, fle. destruct (Qleb_spec a b) as [L|L].
    - exists a. repeat split; [left; reflexivity|lra|exact L].
    - exists b. repeat split; [right; reflexivity|lra|lra]. }
  destruct ES as [S [ES [SC [Sa Sb]]]]. exists S. split; [exact ES|].
  rewrite P50.
  assert (M1 : forall x y, Qmin x y <= x /\ Qmin x y <= y
                           /\ (Qmin x y == x \/ Qmin x y == y)).
  { intros x y. split; [apply Q.le_min_l|]. split; [apply Q.le_min_r|].
    destruct (Q.min_spec x y) as [[_ E]|[_ E]]; [left|right]; exact E. }
  destruct o.
  - (* landscape *)
    rewrite (over_ratio64 landscape) in C.
    rewrite (ratio64_value landscape) in C.
    rewrite !over_positive.
    destruct (M1 (w * (1 # 1920)) (h * (1 # 1080))) as [Ml [Mr Mc]].
    set (M := Qmin (w * (1 # 1920)) (h * (1 # 1080))) in *. clearbody M.
    split.
    + destruct C as [C|C]; destruct SC as [->| ->]; lra.
    + apply Qabs_Qle_condition.
      destruct C as [C|C]; destruct SC as [->| ->]; destruct Mc as [Mc|Mc];
        split; lra.
  - (* portrait *)
    rewrite (over_ratio64 portrait) in C.
    rewrite (ratio64_value portrait) in C.
    assert (E9 : h * (9 / 16) == h * (9 # 16)) by field.
    rewrite E9, over_positive.
    destruct (M1 w (h * (9 # 16))) as [Ml [Mr Mc]].
    set (M := Qmin w (h * (9 # 16))) in *. clearbody M.
    split.
    + destruct C as [C|C]; destruct SC as [->| ->]; lra.
    + apply Qabs_Qle_condition.
      destruct C as [C|C]; destruct SC as [->| ->]; destruct Mc as [Mc|Mc];
        split; lra.
Qed.

Lemma scale_of_viewport_up_to_rounding_witness :
  isDouble 1280 = true /\ isDouble 600 = true
  /\ pow2 (-1000) <= 1280 /\ 1280 <= pow2 1000
  /\ pow2 (-1000) <= 600 /\ 600 <= pow2 1000 /\
  let d := Binary64.getOptimalDimensions (Finite 1280) (Finite 600) None in
  let M := match Binary64.dim_orientation d with
           | landscape => Qmin (1280 / 1920) (600 / 1080)
           | portrait => Qmin 1280 (600 * (9 / 16)) / 1920
           end in
  exists S,
    Binary64.dim_scale d = Finite S
    /\ 0 < S /\ Qabs (S - M) <= pow2 (-50) * M.
Proof.
  split; [vm_compute; reflexivity|]. split; [vm_compute; reflexivity|].
  split; [vm_compute; discriminate|]. split; [vm_compute; discriminate|].
  split; [vm_compute; discriminate|]. split; [vm_compute; discriminate|].
  apply (scale_of_viewport_up_to_rounding 1280 600 None);
    solve [vm_compute; reflexivity | vm_compute; discriminate].
Defined.

(** At 1280 x 600 the scale is the double 0.5555555555555555, from
    600 * (16/9) / 1920, one step below the double nearest to 600/1080. *)
Example scale_at_1280_600 :
  let d := Binary64.getOptimalDimensions (Finite 1280) (Finite 600) None in
  feq (Binary64.dim_scale d) (round 0.5555555555555555) = true
  /\ feq (fdiv (Finite 600) (Finite 1080)) (round 0.5555555555555556) = true
  /\ fgt (fdiv (Finite 600) (Finite 1080)) (Binary64.dim_scale d) = true.
Proof. vm_compute. repeat split. Qed.

(** X31. Rounding does not touch the automatic orientation: for a viewport
    whose width and height are positive doubles and no forced orientation,
    the test [currentAspectRatio > 1] on the rounded quotient decides
    width > height exactly, so the orientation is landscape if and only if
    the width is greater than the height, and portrait for a square. *)
Theorem orientation_decided_exactly (w h : Q) (f : option string) :
  0 < w -> 0 < h -> isDouble w = true -> isDouble h = true ->
  falsy f = true ->
  let d := Binary64.getOptimalDimensions (Finite w) (Finite h) f in
  (Binary64.dim_orientation d = landscape <-> h < w)
  /\ (w == h -> Binary64.dim_orientation d = portrait).
Proof.
  intros Hw Hh Dw Dh Hf. cbv zeta. rewrite solver_eq. cbv zeta.
  cbn [Binary64.dim_orientation]. unfold resolvedOrientation.
  rewrite (isLandscape_exact w h Hw Hh Dw Dh), Hf.
  assert (Ef : strictEq f "landscape" = false).
  { destruct f as [s|]; simpl in *; [|reflexivity].
    apply String.eqb_eq in Hf. subst s. reflexivity. }
  rewrite Ef. simpl.
  destruct (Qltb_spec h w) as [L|L]; split.
  - split; intro; [exact L|reflexivity].
  - intro E. lra.
  - split; intro H; [discriminate H|contradiction].
  - reflexivity.
Qed.

Lemma orientation_decided_exactly_witness :
  let w := fl 685.7142857142859 in
  let h := fl 685.7142857142858 in
  0 < w /\ 0 < h /\ isDouble w = true /\ isDouble h = true
  /\ falsy None = true /\
  let d := Binary64.getOptimalDimensions (Finite w) (Finite h) None in
  (Binary64.dim_orientation d = landscape <-> h < w)
  /\ (w == h -> Binary64.dim_orientation d = portrait).
Proof.
  cbv zeta.
  split; [vm_compute; reflexivity|]. split; [vm_compute; reflexivity|].
  split; [vm_compute; reflexivity|]. split; [vm_compute; reflexivity|].
  split; [reflexivity|].
  apply (orientation_decided_exactly
           (fl 685.7142857142859) (fl 685.7142857142858) None);
    vm_compute; reflexivity.
Defined.

(** ** Pixel values and the typography scale *)

Lemma round_to_hundredths (y : Q) :
  let r := inject_Z (Qfloor (y * 100 + 1 / 2)) / 100 in
  y - 1 / 200 < r /\ r <= y + 1 / 200.
Proof.
  cbv zeta. pose proof (Qfloor_le (y * 100 + 1 / 2)) as Hle.
  pose proof (Qlt_floor (y * 100 + 1 / 2)) as Hlt.
  rewrite inject_Z_plus in Hlt.
  change (inject_Z 1) with 1 in Hlt.
  set (n := inject_Z (Qfloor (y * 100 + 1 / 2))) in *.
  products_in Hle. products_in Hlt. products. split; lra.
Qed.

Lemma toFixed2_error (x : Q) :
  (exists n : Z, toFixed2 x == inject_Z n / 100)
  /\ x - 1 / 200 <= toFixed2 x <= x + 1 / 200.
Proof.
  unfold toFixed2. destruct (Qltb_spec x 0) as [Hneg|Hpos].
  - split.
    + exists (- Qfloor (- x * 100 + 1 / 2))%Z. rewrite inject_Z_opp. field.
    + pose proof (round_to_hundredths (- x)) as H. cbv zeta in H. lra.
  - split.
    + eexists. reflexivity.
    + pose proof (round_to_hundredths x) as H. cbv zeta in H. lra.
Qed.

(** X5. [toFixed(2)] as used for the preferred value: the result is a whole
    number of hundredths and differs from the argument by at most 0.005. *)
Theorem toFixed2_is_nearest_hundredth (x : Q) :
  (exists n : Z, toFixed2 x == inject_Z n / 100)
  /\ x - 1 / 200 <= toFixed2 x <= x + 1 / 200.
Proof. exact (toFixed2_error x). Qed.

(** X6. For an authored size of at least 8px the clamp of
    [pixelsToViewport] brackets it: the floor is max(pixels/2, 8), the
    ceiling is twice the size, and floor <= pixels <= ceiling. *)
Theorem pixelsToViewport_brackets_pixels (pixels : Q) (unit : string)
    (baseViewport : option Q) :
  8 <= pixels ->
  let c := pixelsToViewport pixels unit baseViewport in
  8 <= clamp_min c /\ clamp_min c <= pixels /\ pixels <= clamp_max c
  /\ clamp_unit c = unit.
Proof.
  intro Hp. cbn. repeat split.
  - apply Q.le_max_r.
  - apply Q.max_lub; lra.
  - lra.
Qed.

Lemma pixelsToViewport_brackets_pixels_witness :
  8 <= 24
  /\ let c := pixelsToViewport 24 "vw" None in
     8 <= clamp_min c /\ clamp_min c <= 24 /\ 24 <= clamp_max c
     /\ clamp_unit c = "vw"%string.
Proof.
  assert (H : 8 <= 24) by discriminate.
  split; [exact H|].
  exact (pixelsToViewport_brackets_pixels 24 "vw" None H).
Defined.

(** Below 4px the clamp is inverted: the floor stays at 8px while the
    ceiling, twice the size, is below it. *)
Theorem pixelsToViewport_inverted_below_4 (pixels : Q) (unit : string)
    (baseViewport : option Q) :
  pixels < 4 ->
  let c := pixelsToViewport pixels unit baseViewport in
  clamp_min c == 8 /\ clamp_max c < clamp_min c.
Proof.
  intro Hp. cbn.
  assert (E : Qmax (pixels * 0.5) 8 == 8) by (apply Q.max_r; lra).
  rewrite E. split; [reflexivity | lra].
Qed.

Lemma pixelsToViewport_inverted_below_4_witness :
  2 < 4
  /\ let c := pixelsToViewport 2 "vw" None in
     clamp_min c == 8 /\ clamp_max c < clamp_min c.
Proof.
  assert (H : 2 < 4) by reflexivity.
  split; [exact H|].
  exact (pixelsToViewport_inverted_below_4 2 "vw" None H).
Defined.

(** X7. The preferred value gives the authored size back at the base
    viewport: for a base and a size between 2^-500 and 2^500, preferred
    percent of the base differs from the pixel value by at most base/20000
    (0.096px for the 1920 base), from the two decimals kept, plus 2^-51 of
    the size, from the rounding of the quotient and of the product.  The
    base is the explicit one when it is given and not 0, else 1080 for a
    unit that contains an h and 1920 for every other unit, [vmin] and
    [vmax] included. *)
Theorem preferred_value_round_trip (pixels : Q) (unit : string)
    (baseViewport : option Q) :
  let base := baseViewportOf unit baseViewport in
  pow2 (-500) <= base -> base <= pow2 500 ->
  pow2 (-500) <= pixels -> pixels <= pow2 500 ->
  let c := pixelsToViewport pixels unit baseViewport in
  Qabs (clamp_preferred c * base / 100 - pixels)
  <= base / 20000 + pixels * pow2 (-51).
Proof.
  cbv zeta. intros B1 B2 P1 P2. unfold pixelsToViewport.
  fold (baseViewportOf unit baseViewport). cbn [clamp_preferred].
  set (base := baseViewportOf unit baseViewport) in *.
  pose proof (pow2_pos (-500)) as P500.
  pose proof (pow2_pos (-1075)) as T0.
  assert (Hb : 0 < base) by lra. assert (Hp : 0 < pixels) by lra.
  assert (TB : pow2 (-1075) * base <= (1 # 37778931862957161709568) * pixels).
  { apply Qle_trans with (pow2 (-1075) * pow2 500).
    - apply (proj2 (Qmult_le_l _ _ _ T0)). exact B2.
    - rewrite <- pow2_75, <- pow2_add.
      apply Qle_trans with (pow2 (-75) * pow2 (-500)).
      + rewrite <- pow2_add. apply pow2_le. lia.
      + apply (proj2 (Qmult_le_l _ _ _ (pow2_pos (-75)))). exact P1. }
  assert (Hq : 0 <= pixels / base) by (apply Qle_shift_div_l; lra).
  destruct (fl_near _ Hq) as [A1 A2].
  pose proof (fl_nonneg _ Hq) as A0.
  set (a := fl (pixels / base)) in *.
  assert (Ha : 0 <= a * 100) by lra.
  destruct (fl_near _ Ha) as [V1 V2].
  set (v := fl (a * 100)) in *.
  destruct (toFixed2_error v) as [_ [F1 F2]].
  set (t := toFixed2 v) in *.
  rewrite eps_value in A1, A2, V1, V2.
  apply (Qmult_le_compat_r _ _ base) in A1; [|lra].
  apply (Qmult_le_compat_r _ _ base) in A2; [|lra].
  apply (Qmult_le_compat_r _ _ base) in V1; [|lra].
  apply (Qmult_le_compat_r _ _ base) in V2; [|lra].
  apply (Qmult_le_compat_r _ _ base) in F1; [|lra].
  apply (Qmult_le_compat_r _ _ base) in F2; [|lra].
  assert (E : pixels / base * base == pixels) by (field; lra).
  assert (E1 : (pixels / base - (1 # 9007199254740992) * (pixels / base)
                - pow2 (-1075)) * base
               == pixels / base * base
                  - (1 # 9007199254740992) * (pixels / base * base)
                  - pow2 (-1075) * base) by ring.
  assert (E2 : (pixels / base + (1 # 9007199254740992) * (pixels / base)
                + pow2 (-1075)) * base
               == pixels / base * base
                  + (1 # 9007199254740992) * (pixels / base * base)
                  + pow2 (-1075) * base) by ring.
  rewrite E1, E in A1. rewrite E2, E in A2. clear E E1 E2.
  set (T := pow2 (-1075) * base) in *.
  assert (E3 : (a * 100 - (1 # 9007199254740992) * (a * 100) - pow2 (-1075)) * base
               == a * base * 100 - (1 # 9007199254740992) * (a * base * 100) - T)
    by (unfold T; ring).
  assert (E4 : (a * 100 + (1 # 9007199254740992) * (a * 100) + pow2 (-1075)) * base
               == a * base * 100 + (1 # 9007199254740992) * (a * base * 100) + T)
    by (unfold T; ring).
  rewrite E3 in V1. rewrite E4 in V2. clear E3 E4.
  assert (E5 : (v - 1 / 200) * base == v * base - base * (1 # 200)) by field.
  assert (E6 : (v + 1 / 200) * base == v * base + base * (1 # 200)) by field.
  rewrite E5 in F1. rewrite E6 in F2. clear E5 E6.
  assert (E7 : t * base / 100 - pixels == t * base * (1 # 100) - pixels) by field.
  assert (E8 : base / 20000 == base * (1 # 20000)) by field.
  rewrite E7, E8, pow2_51. clear E7 E8.
  set (aB := a * base) in *. set (vB := v * base) in *. set (tB := t * base) in *.
  clearbody aB vB tB T.
  apply Qabs_Qle_condition. split; lra.
Qed.

Lemma preferred_value_round_trip_witness :
  pow2 (-500) <= baseViewportOf "vw" None
  /\ baseViewportOf "vw" None <= pow2 500
  /\ pow2 (-500) <= fl 26.4 /\ fl 26.4 <= pow2 500
  /\ let c := pixelsToViewport (fl 26.4) "vw" None in
     Qabs (clamp_preferred c * baseViewportOf "vw" None / 100 - fl 26.4)
     <= baseViewportOf "vw" None / 20000 + fl 26.4 * pow2 (-51).
Proof.
  split; [vm_compute; discriminate|]. split; [vm_compute; discriminate|].
  split; [vm_compute; discriminate|]. split; [vm_compute; discriminate|].
  apply (preferred_value_round_trip (fl 26.4) "vw" None);
    vm_compute; discriminate.
Defined.

(** The two roundings are seen at 26.4px: the quotient by 1920 times 100
    is the double 1.375, a tie that [toFixed(2)] renders as 1.38, where the
    exact quotient 1.37499... gives 1.37; and at 276px, where the double
    is 14.374999999999998 and the exact value the tie 14.375. *)
Example pixelsToViewport_rounds_the_quotient :
  clamp_preferred (pixelsToViewport (fl 26.4) "vw" None) == 1.38
  /\ toFixed2 (fl 26.4 / 1920 * 100) == 1.37
  /\ clamp_preferred (pixelsToViewport 276 "vw" None) == 14.37
  /\ toFixed2 (276 / 1920 * 100) == 14.38.
Proof. vm_compute. repeat split. Qed.

(** X8. The typography ladder: for a multiplier that is not negative, every
    step of the scale has floor <= ceiling, and from xs to xxl the floors,
    the preferred values and the ceilings do not decrease. *)
Theorem typography_ladder_ascends (multiplier : Q) :
  0 <= multiplier ->
  let ladder := map (fun scale => responsiveFontSize scale multiplier)
                    (map fst TYPOGRAPHY_SCALE) in
  Forall (fun c => clamp_min c <= clamp_max c) ladder
  /\ ascendingBy clamp_min ladder
  /\ ascendingBy clamp_preferred ladder
  /\ ascendingBy clamp_max ladder.
Proof.
  intro Hm. cbn. repeat split; repeat constructor; cbn; lra.
Qed.

Lemma typography_ladder_ascends_witness :
  0 <= 1.5
  /\ let ladder := map (fun scale => responsiveFontSize scale 1.5)
                       (map fst TYPOGRAPHY_SCALE) in
     Forall (fun c => clamp_min c <= clamp_max c) ladder
     /\ ascendingBy clamp_min ladder
     /\ ascendingBy clamp_preferred ladder
     /\ ascendingBy clamp_max ladder.
Proof.
  assert (H : 0 <= 1.5) by discriminate.
  split; [exact H|].
  exact (typography_ladder_ascends 1.5 H).
Defined.

(** ** The generated properties and their application *)

Lemma distinctKeys_NoDup (keys : list string) :
  distinctKeys keys = true -> NoDup keys.
Proof.
  induction keys as [|k rest IH]; intro H; [constructor|].
  cbn in H. apply andb_prop in H. destruct H as [Hk Hrest].
  constructor; [|exact (IH Hrest)].
  intro Hin. apply negb_true_iff in Hk.
  assert (Hex : existsb (String.eqb k) rest = true).
  { apply existsb_exists. exists k. split; [exact Hin | apply String.eqb_refl]. }
  congruence.
Qed.

Lemma generated_keys_distinct (d : Dimensions) (options : ScaleOptions) :
  NoDup (map fst (generateScaleProperties d options)).
Proof.
  apply distinctKeys_NoDup. unfold generateScaleProperties.
  destruct (default (enableTextScaling options) true),
           (default (enableSpacingScale options) true);
    vm_compute; reflexivity.
Qed.

(** X9. What [generateScaleProperties] produces: the six display
    properties carry the dimensions; each --font-<step> is the clamp of
    [responsiveFontSize] for that step and the multiplier when text scaling
    is on and is absent when it is off; no --spacing-<i> exists when the
    spacing scale is off; no key occurs twice, and there are
    6 + 6 + 10 entries with both scales on. *)
Theorem generated_properties (d : Dimensions) (options : ScaleOptions) :
  let props := generateScaleProperties d options in
  let text := default (enableTextScaling options) true in
  let spacing := default (enableSpacingScale options) true in
  lookup "--display-width" props = Some (PxValue (dim_width d))
  /\ lookup "--display-height" props = Some (PxValue (dim_height d))
  /\ lookup "--display-scale" props = Some (NumValue (dim_scale d))
  /\ lookup "--display-offset-x" props = Some (PxValue (dim_offsetX d))
  /\ lookup "--display-offset-y" props = Some (PxValue (dim_offsetY d))
  /\ lookup "--display-orientation" props
     = Some (OrientationValue (dim_orientation d))
  /\ (forall scale, In scale (map fst TYPOGRAPHY_SCALE) ->
        lookup ("--font-" ++ scale)%string props
        = if text
          then Some (ClampValue
                       (responsiveFontSize scale
                          (default (textScaleMultiplier options) 1)))
          else None)
  /\ (spacing = false -> forall i, spacingStep props i = None)
  /\ NoDup (map fst props)
  /\ List.length props
     = (6 + (if text then 6 else 0) + (if spacing then 10 else 0))%nat.
Proof.
  cbv zeta. split; [|split; [|split; [|split; [|split; [|split; [|split; [|split; [|split]]]]]]]].
  9: apply generated_keys_distinct.
  all: unfold generateScaleProperties, spacingStep;
    destruct (default (enableTextScaling options) true),
             (default (enableSpacingScale options) true);
    try reflexivity.
  all: lazymatch goal with
       | |- forall scale, In scale _ -> _ =>
           intros scale Hin; cbn in Hin;
           repeat (destruct Hin as [Hin|Hin]; [subst scale; reflexivity|]);
           contradiction
       | |- true = false -> _ => intro Hs; discriminate Hs
       | |- false = false -> _ => intros _ i; reflexivity
       end.
Qed.

Lemma lookup_setProperty {A} (k k' : string) (v : A) (m : list (string * A)) :
  lookup k' (setProperty k v m)
  = if String.eqb k k' then Some v else lookup k' m.
Proof.
  induction m as [|[k0 v0] m IH]; cbn.
  - reflexivity.
  - destruct (String.eqb_spec k0 k) as [->|Hne]; cbn.
    + destruct (String.eqb k k'); reflexivity.
    + rewrite IH. destruct (String.eqb_spec k k') as [<-|Hne'].
      * destruct (String.eqb_spec k0 k) as [E|_]; [contradiction|reflexivity].
      * reflexivity.
Qed.

(** Writing a list of properties whose keys are distinct: a written key
    reads back its value, any other key reads as before. *)
Lemma lookup_writeProperties {A} (ps : list (string * A)) :
  NoDup (map fst ps) ->
  forall (m : list (string * A)) (k : string),
    lookup k (writeProperties ps m)
    = match lookup k ps with
      | Some v => Some v
      | None => lookup k m
      end.
Proof.
  unfold writeProperties.
  induction ps as [|[k0 v0] ps IH]; intros Hnd m k; [reflexivity|].
  inversion Hnd as [|? ? Hnotin Hnd']; subst. cbn [fold_left fst snd].
  rewrite (IH Hnd'). cbn [lookup].
  rewrite lookup_setProperty.
  destruct (String.eqb_spec k0 k) as [<-|Hne].
  - destruct (lookup k0 ps) eqn:E; [|reflexivity].
    exfalso. apply Hnotin. clear - E.
    induction ps as [|[k1 v1] ps IH]; [discriminate|].
    cbn in E |- *. destruct (String.eqb_spec k1 k0) as [->|_]; [now left|].
    right. exact (IH E).
  - reflexivity.
Qed.

(** X10. [applyResponsiveScaling] on a container that is present: the
    result holds the fit of the viewport in the options (the window's size
    where they give none) and the properties generated from it; every
    generated property can be read back from the container's style and
    every other style property is as before; the transform is the
    translation by the offsets followed by the scale, anchored top left;
    the number of text elements does not change, and with
    [enableSmartTextFit] false no text element is touched. *)
Theorem scaling_is_written_to_container (host : Host) (window_ : Window)
    (c : Container) (options : Options) :
  exists r c',
    applyResponsiveScaling host window_ (Some c) options = Some (r, c')
    /\ res_dimensions r
       = getOptimalDimensions
           (default (viewportWidth options) (innerWidth window_))
           (default (viewportHeight options) (innerHeight window_))
           (forceOrientation options)
    /\ res_properties r
       = generateScaleProperties (res_dimensions r) (scaleOptions options)
    /\ (forall k,
          lookup k (style_properties c')
          = match lookup k (res_properties r) with
            | Some v => Some v
            | None => lookup k (style_properties c)
            end)
    /\ style_transform c' = Some (res_transform r)
    /\ res_transform r
       = {| translateX := dim_offsetX (res_dimensions r);
            translateY := dim_offsetY (res_dimensions r);
            scaleBy := dim_scale (res_dimensions r) |}
    /\ style_transformOrigin c' = Some "top left"%string
    /\ List.length (textElements c') = List.length (textElements c)
    /\ (enableSmartTextFit options = Some false ->
        textElements c' = textElements c).
Proof.
  do 2 eexists. split; [reflexivity|]. cbn.
  repeat split.
  - intro k. apply (lookup_writeProperties _ (generated_keys_distinct _ _)).
  - destruct (default (enableSmartTextFit options) true);
      [apply length_map | reflexivity].
  - intros ->. reflexivity.
Qed.

(** ** The text fitter, continued *)

Lemma readsExtend_refl (d : Dom) : readsExtend d d.
Proof. exists []. reflexivity. Qed.

Lemma readsExtend_trans (a b c : Dom) :
  readsExtend a b -> readsExtend b c -> readsExtend a c.
Proof.
  intros [l1 H1] [l2 H2]. exists (l2 ++ l1). rewrite H2, H1, app_assoc.
  reflexivity.
Qed.

Lemma sameBox_refl (e : Element) : sameBox e e.
Proof. unfold sameBox. repeat split. Qed.

Lemma sameBox_trans (a b c : Element) :
  sameBox a b -> sameBox b c -> sameBox a c.
Proof.
  unfold sameBox. intros H1 H2.
  destruct H1 as (?&?&?&?&?&?&?&?), H2 as (?&?&?&?&?&?&?&?).
  repeat split; congruence.
Qed.

Section ShrinkLoopLaw.
Variable host : Host.
Variables cw minAllowed stp : Q.
Variable rlh : bool.
Variables ofs olh : Q.

Local Abbreviation loop' := (shrinkLoop host cw minAllowed stp rlh ofs olh).

(** Each turn of the loop multiplies the size by (1 - step) and writes it
    to the element; nothing but the size and the line height is written. *)
Lemma shrinkLoop_law (k : nat) :
  forall cur attempts d,
    fontSize (dom_element d) = cur ->
    let '(cur', attempts', d') := loop' k cur attempts d in
    fontSize (dom_element d') = cur'
    /\ cur' == cur * qpow (1 - stp) (attempts' - attempts)
    /\ (attempts <= attempts')%nat
    /\ (attempts' = attempts -> lineHeight (dom_element d') = lineHeight (dom_element d))
    /\ sameBox (dom_element d) (dom_element d')
    /\ readsExtend d d'.
Proof.
  induction k as [|k IH]; intros cur attempts d Hcur.
  - rewrite shrinkLoop_zero. cbn. rewrite Nat.sub_diag. cbn.
    split; [|split; [|split; [|split; [|split]]]];
      try assumption; try lia; try ring; try reflexivity.
    + apply sameBox_refl.
    + eexists [_]. reflexivity.
  - rewrite shrinkLoop_succ. cbv zeta.
    destruct (Qgtb _ cw && Qgtb cur minAllowed).
    + match goal with
      | |- context [shrinkLoop _ _ _ _ _ _ _ k ?c ?a ?s] =>
          assert (Hc : fontSize (dom_element s) = c) by (destruct rlh; reflexivity);
          specialize (IH c a s Hc);
          assert (Hbox : sameBox (dom_element d) (dom_element s))
            by (destruct rlh; unfold sameBox; cbn; repeat split);
          assert (Hext : readsExtend d s)
            by (destruct rlh; eexists [_]; reflexivity);
          destruct (shrinkLoop host cw minAllowed stp rlh ofs olh k c a s)
            as [[c' a'] s']
      end.
      destruct IH as (Hf & Hpow & Hle & _ & Hbox' & Hext').
      split; [|split; [|split; [|split; [|split]]]].
      * exact Hf.
      * rewrite Hpow. replace (a' - attempts)%nat with (S (a' - S attempts)) by lia.
        cbn [qpow]. ring.
      * lia.
      * intro E. lia.
      * exact (sameBox_trans _ _ _ Hbox Hbox').
      * exact (readsExtend_trans _ _ _ Hext Hext').
    + cbn. rewrite Nat.sub_diag. cbn.
      split; [|split; [|split; [|split; [|split]]]];
        try assumption; try lia; try ring; try reflexivity.
      * apply sameBox_refl.
      * eexists [_]. reflexivity.
Qed.
End ShrinkLoopLaw.

Lemma fitsBothAxes_frame (host : Host) (cw ch : Q) (d : Dom) :
  dom_element (snd (fitsBothAxes host cw ch d)) = dom_element d
  /\ readsExtend d (snd (fitsBothAxes host cw ch d)).
Proof.
  unfold fitsBothAxes, bind, ret, readScrollWidth, readScrollHeight. cbn.
  destruct (Qleb _ cw); cbn; split; try reflexivity.
  - eexists [_; _]. reflexivity.
  - eexists [_]. reflexivity.
Qed.

Lemma tryWordWrap_frame (host : Host) (prefer : bool) (text : string)
    (cw ch : Q) (d : Dom) :
  let d' := snd (tryWordWrap host prefer text cw ch d) in
  dom_element d'
  = (if prefer && includes " " text
     then enableWrapping (dom_element d) else dom_element d)
  /\ readsExtend d d'.
Proof.
  cbv zeta. unfold tryWordWrap.
  destruct (prefer && includes " " text).
  - unfold bind at 1. cbn [update].
    match goal with
    | |- context [fitsBothAxes host cw ch ?s] =>
        destruct (fitsBothAxes_frame host cw ch s) as [He Hr]
    end.
    split; [rewrite He; reflexivity|].
    destruct Hr as [later Hr]. exists later. exact Hr.
  - cbn. split; [reflexivity | apply readsExtend_refl].
Qed.

(** The second phase, on an element whose size is the original one. *)
Lemma reduceFont_law (host : Host) (mr mf stp : Q) (prefer rlh : bool)
    (ofs olh cw ch : Q) (d : Dom) :
  fontSize (dom_element d) = ofs ->
  let '(r, d') := reduceFont host mr mf stp prefer rlh ofs olh cw ch d in
  exists attempts,
    fit_attempts r = Some attempts
    /\ fontSize (dom_element d') = fit_fontSize r
    /\ fit_fontSize r == ofs * qpow (1 - stp) attempts
    /\ fit_reduction r == (ofs - fit_fontSize r) / ofs
    /\ (attempts = 0%nat -> lineHeight (dom_element d') = lineHeight (dom_element d))
    /\ fit_method r <> word_wrap
    /\ whiteSpace (dom_element d')
       = (match fit_method r with
          | hybrid => if prefer then "normal" else "nowrap"
          | _ => "nowrap"
          end)%string
    /\ clientWidth (dom_element d') = clientWidth (dom_element d)
    /\ clientHeight (dom_element d') = clientHeight (dom_element d)
    /\ textContent (dom_element d') = textContent (dom_element d)
    /\ dataset_originalFontSize (dom_element d')
       = dataset_originalFontSize (dom_element d)
    /\ dataset_originalLineHeight (dom_element d')
       = dataset_originalLineHeight (dom_element d)
    /\ readsExtend d d'.
Proof.
  intro Hofs.
  unfold reduceFont. unfold bind at 1. cbn [update].
  unfold bind at 1.
  match goal with
  | |- context [shrinkLoop ?h ?a ?b ?c ?e ?f ?g ?k ?cur ?n ?s] =>
      assert (Hs : fontSize (dom_element s) = cur) by exact Hofs;
      pose proof (shrinkLoop_law h a b c e f g k cur n s Hs) as HL;
      assert (Hs0 : readsExtend d s) by (exists []; reflexivity);
      destruct (shrinkLoop h a b c e f g k cur n s) as [[cur' att] d2]
  end.
  destruct HL as (Hf & Hpow & _ & Hlh & Hbox & Hext).
  rewrite Nat.sub_0_r in Hpow.
  destruct Hbox as (Hws & Hwb & How & Hcw & Hch & Htc & Hd1 & Hd2).
  cbn in Hws, Hwb, How, Hcw, Hch, Htc, Hd1, Hd2, Hlh.
  unfold bind at 1. cbn [readScrollWidth].
  unfold bind at 1.
  set (sw := scrollWidth host _ _).
  assert (Hext3 : readsExtend d
            {| dom_element := dom_element d2;
               dom_reads := ReadWidth sw :: dom_reads d2 |}).
  { eapply readsExtend_trans; [exact Hs0|].
    eapply readsExtend_trans; [exact Hext|]. eexists [_]. reflexivity. }
  destruct (Qleb sw cw); cbn [negb andb];
    [| destruct prefer]; cbn [update ret]; unfold bind at 1;
    match goal with
    | |- context [fitsBothAxes host cw ch ?s] =>
        destruct (fitsBothAxes_frame host cw ch s) as [He Hr];
        assert (Hall : readsExtend d (snd (fitsBothAxes host cw ch s)))
          by (eapply readsExtend_trans; [|exact Hr];
              destruct Hext3 as [l Hl]; exists l; exact Hl);
        destruct (fitsBothAxes host cw ch s) as [b d5]
    end;
    cbn [snd] in He, Hall; cbn [ret fit_attempts fit_fontSize fit_reduction fit_method];
    exists att; rewrite He; cbn;
    (split; [reflexivity|]); (split; [exact Hf|]); (split; [exact Hpow|]);
    (split; [reflexivity|]); (split; [exact Hlh|]); (split; [discriminate|]);
    repeat (split; [first [reflexivity | assumption]|]); exact Hall.
Qed.

Lemma tryWordWrap_attempt (host : Host) (prefer : bool) (text : string)
    (cw ch : Q) (d : Dom) :
  let d' := snd (tryWordWrap host prefer text cw ch d) in
  dom_element d'
  = (if prefer && includes " " text
     then enableWrapping (dom_element d) else dom_element d)
  /\ readsExtend d d'
  /\ (fst (tryWordWrap host prefer text cw ch d) = true ->
      prefer && includes " " text = true).
Proof.
  cbv zeta. destruct (tryWordWrap_frame host prefer text cw ch d) as [He Hr].
  split; [exact He|]. split; [exact Hr|].
  unfold tryWordWrap. destruct (prefer && includes " " text);
    [reflexivity | intro H; exact H].
Qed.

Lemma fitElement_eq (host : Host) (options : FitOptions) (d : Dom) :
  fitElement host options d
  = let e := dom_element d in
    let ofs := fontSize e in
    let olh := orElse (lineHeight e) (ofs * 1.2) in
    let '(wrapped, d1) :=
      tryWordWrap host (default (preferWordWrap options) true)
        (textContent e) (clientWidth e) (clientHeight e) (afterStore d) in
    if wrapped then
      ({| fit_method := word_wrap; fit_fontSize := ofs;
          fit_reduction := 0; fit_fits := true;
          fit_attempts := None |}, d1)
    else
      reduceFont host (default (maxReduction options) 0.7)
        (default (minFontSize options) 12)
        (default (step options) 0.02)
        (default (preferWordWrap options) true)
        (default (respectLineHeight options) true)
        ofs olh (clientWidth e) (clientHeight e) d1.
Proof.
  unfold fitElement, afterStore. unfold bind at 1. cbn [getElement].
  unfold bind at 1.
  destruct (dataset_originalFontSize (dom_element d)).
  - cbn [ret]. unfold bind at 1.
    destruct (tryWordWrap _ _ _ _ _ d) as [[|] d1]; reflexivity.
  - cbn [update]. unfold bind at 1.
    destruct (tryWordWrap _ _ _ _ _ _) as [[|] d1]; reflexivity.
Qed.

Lemma afterStore_frame (d : Dom) :
  let e := dom_element d in
  let e0 := dom_element (afterStore d) in
  fontSize e0 = fontSize e /\ lineHeight e0 = lineHeight e
  /\ whiteSpace e0 = whiteSpace e
  /\ clientWidth e0 = clientWidth e /\ clientHeight e0 = clientHeight e
  /\ textContent e0 = textContent e
  /\ dom_reads (afterStore d) = dom_reads d
  /\ dataset_originalFontSize e0
     = Some (default (dataset_originalFontSize e) (fontSize e))
  /\ dataset_originalLineHeight e0
     = match dataset_originalFontSize e with
       | Some _ => dataset_originalLineHeight e
       | None => Some (orElse (lineHeight e) (fontSize e * 1.2))
       end.
Proof.
  cbv zeta. unfold afterStore.
  destruct (dataset_originalFontSize (dom_element d)) eqn:E; cbn;
    repeat split; try reflexivity. exact E.
Qed.

(** What a run of the fitter does to the element, in one statement. *)
Lemma fitElement_law (host : Host) (options : FitOptions) (d : Dom) :
  let e := dom_element d in
  let prefer := default (preferWordWrap options) true in
  let '(r, d') := fitElement host options d in
  let e' := dom_element d' in
  let n := default (fit_attempts r) 0%nat in
  fontSize e' = fit_fontSize r
  /\ fit_fontSize r == fontSize e * qpow (1 - default (step options) 0.02) n
  /\ (n = 0%nat -> lineHeight e' = lineHeight e)
  /\ (fit_method r = word_wrap \/
      fit_reduction r == (fontSize e - fit_fontSize r) / fontSize e)
  /\ (fit_method r = word_wrap -> fit_reduction r == 0 /\ fit_attempts r = None)
  /\ whiteSpace e'
     = (match fit_method r with
        | word_wrap => "normal"
        | hybrid => if prefer then "normal" else "nowrap"
        | font_reduction => "nowrap"
        end)%string
  /\ clientWidth e' = clientWidth e /\ clientHeight e' = clientHeight e
  /\ textContent e' = textContent e
  /\ dataset_originalFontSize e'
     = Some (default (dataset_originalFontSize e) (fontSize e))
  /\ dataset_originalLineHeight e'
     = match dataset_originalFontSize e with
       | Some _ => dataset_originalLineHeight e
       | None => Some (orElse (lineHeight e) (fontSize e * 1.2))
       end
  /\ readsExtend d d'.
Proof.
  cbv zeta. rewrite fitElement_eq. cbv zeta.
  destruct (afterStore_frame d) as (A1 & A2 & A3 & A4 & A5 & A6 & A7 & A8 & A9).
  cbv zeta in *.
  match goal with
  | |- context [tryWordWrap ?h ?p ?t ?cw ?ch ?s] =>
      pose proof (tryWordWrap_attempt h p t cw ch s) as HW;
      destruct (tryWordWrap h p t cw ch s) as [wrapped d1]
  end.
  cbv zeta in HW. cbn [fst snd] in HW. destruct HW as (He1 & Hr1 & Hw1).
  assert (Hr01 : readsExtend d d1).
  { destruct Hr1 as [l Hl]. exists l. rewrite Hl, A7. reflexivity. }
  assert (F1 : fontSize (dom_element d1) = fontSize (dom_element d)).
  { rewrite He1. destruct (_ && _); cbn; exact A1. }
  assert (L1 : lineHeight (dom_element d1) = lineHeight (dom_element d)).
  { rewrite He1. destruct (_ && _); cbn; exact A2. }
  assert (C1 : clientWidth (dom_element d1) = clientWidth (dom_element d)).
  { rewrite He1. destruct (_ && _); cbn; exact A4. }
  assert (C2 : clientHeight (dom_element d1) = clientHeight (dom_element d)).
  { rewrite He1. destruct (_ && _); cbn; exact A5. }
  assert (C3 : textContent (dom_element d1) = textContent (dom_element d)).
  { rewrite He1. destruct (_ && _); cbn; exact A6. }
  assert (D1 : dataset_originalFontSize (dom_element d1)
               = dataset_originalFontSize (dom_element (afterStore d))).
  { rewrite He1. destruct (_ && _); reflexivity. }
  assert (D2 : dataset_originalLineHeight (dom_element d1)
               = dataset_originalLineHeight (dom_element (afterStore d))).
  { rewrite He1. destruct (_ && _); reflexivity. }
  destruct wrapped.
  - assert (Hwrap : default (preferWordWrap options) true
                    && includes " " (textContent (dom_element d)) = true).
    { exact (Hw1 eq_refl). }
    cbn. rewrite He1, Hwrap. cbn.
    repeat split; try assumption; try (rewrite ?D1, ?D2; assumption);
      try ring; try congruence; try (left; reflexivity).
  - match goal with
    | |- context [reduceFont ?h ?a ?b ?c ?p ?q ?o ?l ?cw ?ch d1] =>
        pose proof (reduceFont_law h a b c p q o l cw ch d1 F1) as HR;
        destruct (reduceFont h a b c p q o l cw ch d1) as [r d']
    end.
    destruct HR as (att & Hatt & Hf & Hpow & Hred & Hlh & Hm & Hws & H1 & H2
                    & H3 & H4 & H5 & Hext).
    rewrite Hatt. cbn [default].
    repeat split; try assumption; try congruence.
    + intro E. rewrite (Hlh E). exact L1.
    + right. exact Hred.
    + destruct (fit_method r); [contradiction | exact Hws | exact Hws].
    + eapply readsExtend_trans; eassumption.
Qed.

Lemma qpow_bounds (q : Q) (n : nat) :
  0 < q <= 1 -> 0 < qpow q n <= 1.
Proof.
  intros [Hq0 Hq1]. induction n as [|n [IH0 IH1]]; cbn; [split; lra|].
  split.
  - apply Qmult_lt_0_compat; assumption.
  - setoid_replace 1 with (1 * 1) by ring.
    apply Qmult_le_compat_nonneg; split; lra.
Qed.


(** X12. How the element is left: white-space is normal after a word-wrap
    result, and after a hybrid result when wrapping is preferred; in every
    other case it is nowrap. *)
Theorem white_space_after_fit (host : Host) (options : FitOptions) (d : Dom) :
  exists r d',
    intelligentTextFit host (Some d) options = Some (r, d')
    /\ whiteSpace (dom_element d')
       = (match fit_method r with
          | word_wrap => "normal"
          | hybrid =>
              if default (preferWordWrap options) true
              then "normal" else "nowrap"
          | font_reduction => "nowrap"
          end)%string.
Proof.
  unfold intelligentTextFit. pose proof (fitElement_law host options d) as H.
  destruct (fitElement host options d) as [r d']. cbv zeta in H.
  exists r, d'. split; [reflexivity|].
  destruct H as (_ & _ & _ & _ & _ & H6 & _). exact H6.
Qed.

(** X13. The original values are stored on the element once: after a run
    [dataset.originalFontSize] is set, to the value it had if it had one and
    to the font size found otherwise; a stored original line height is
    only written together with it. *)
Theorem originals_stored_once (host : Host) (options : FitOptions) (d : Dom) :
  exists r d',
    intelligentTextFit host (Some d) options = Some (r, d')
    /\ let e := dom_element d in
       dataset_originalFontSize (dom_element d')
       = Some (default (dataset_originalFontSize e) (fontSize e))
       /\ dataset_originalLineHeight (dom_element d')
          = match dataset_originalFontSize e with
            | Some _ => dataset_originalLineHeight e
            | None => Some (orElse (lineHeight e) (fontSize e * 1.2))
            end.
Proof.
  unfold intelligentTextFit. pose proof (fitElement_law host options d) as H.
  destruct (fitElement host options d) as [r d']. cbv zeta in H.
  exists r, d'. split; [reflexivity|]. cbv zeta.
  destruct H as (_ & _ & _ & _ & _ & _ & _ & _ & _ & H10 & H11 & _).
  split; assumption.
Qed.

Lemma shrinkLoop_when_fitting (host : Host) (cw minAllowed stp : Q)
    (rlh : bool) (ofs olh : Q) :
  (forall n e, Qgtb (scrollWidth host n e) cw = false) ->
  forall k cur attempts d,
    shrinkLoop host cw minAllowed stp rlh ofs olh k cur attempts d
    = (cur, attempts, snd (readScrollWidth host d)).
Proof.
  intros Hno k cur attempts d. destruct k as [|k].
  - apply shrinkLoop_zero.
  - rewrite shrinkLoop_succ. cbv zeta. cbn [readScrollWidth fst].
    rewrite Hno. reflexivity.
Qed.

Lemma reduceFont_when_fitting (host : Host) (mr mf stp : Q)
    (prefer rlh : bool) (ofs olh cw ch : Q) (d : Dom) :
  (forall n e, scrollWidth host n e <= cw) ->
  exists b d',
    reduceFont host mr mf stp prefer rlh ofs olh cw ch d
    = ({| fit_method := font_reduction; fit_fontSize := ofs;
          fit_reduction := (ofs - ofs) / ofs; fit_fits := b;
          fit_attempts := Some 0%nat |}, d').
Proof.
  intro Hfit.
  assert (Hno : forall n e, Qgtb (scrollWidth host n e) cw = false).
  { intros n e. destruct (Qgtb_spec (scrollWidth host n e) cw) as [H|_];
      [|reflexivity]. specialize (Hfit n e). lra. }
  assert (Hyes : forall n e, Qleb (scrollWidth host n e) cw = true).
  { intros n e. destruct (Qleb_spec (scrollWidth host n e) cw) as [_|H];
      [reflexivity|]. specialize (Hfit n e). contradiction. }
  unfold reduceFont. unfold bind at 1. cbn [update]. unfold bind at 1.
  rewrite (shrinkLoop_when_fitting host cw _ stp rlh ofs olh Hno).
  unfold bind at 1. cbn [readScrollWidth snd]. unfold bind at 1.
  rewrite Hyes. cbn [negb andb ret]. unfold bind at 1.
  match goal with
  | |- context [fitsBothAxes host cw ch ?s] =>
      destruct (fitsBothAxes host cw ch s) as [b d5]
  end.
  do 2 eexists. reflexivity.
Qed.

(** X15. Text whose width fits at every read is left at its size: the
    result reports the original font size, the element keeps its font size
    and line height, and the result is either a word-wrap result or a
    font-reduction result with 0 attempts, never a hybrid one. *)
Theorem fitting_text_keeps_its_size (host : Host) (options : FitOptions)
    (d : Dom) :
  (forall n e, scrollWidth host n e <= clientWidth (dom_element d)) ->
  exists r d',
    intelligentTextFit host (Some d) options = Some (r, d')
    /\ fit_fontSize r = fontSize (dom_element d)
    /\ fontSize (dom_element d') = fontSize (dom_element d)
    /\ lineHeight (dom_element d') = lineHeight (dom_element d)
    /\ (fit_method r = word_wrap
        \/ (fit_method r = font_reduction /\ fit_attempts r = Some 0%nat)).
Proof.
  intro Hfit.
  unfold intelligentTextFit. pose proof (fitElement_law host options d) as H.
  cbv zeta in H. rewrite fitElement_eq in H |- *. cbv zeta in H |- *.
  destruct (tryWordWrap _ _ _ _ _ _) as [[|] d1].
  - do 2 eexists. split; [reflexivity|].
    destruct H as (Hf & _ & Hlh & _). cbn in Hf, Hlh |- *.
    repeat split; [exact Hf | exact (Hlh eq_refl) | left; reflexivity].
  - match goal with
    | |- context [reduceFont ?h ?a ?b ?c ?p ?q ?o ?l ?cw ?ch d1] =>
        pose proof (reduceFont_when_fitting h a b c p q o l cw ch d1 Hfit) as HR;
        destruct (reduceFont h a b c p q o l cw ch d1) as [r d']
    end.
    destruct HR as (b & d0 & HR). injection HR as -> ->.
    do 2 eexists. split; [reflexivity|].
    destruct H as (Hf & _ & Hlh & _). cbn in Hf, Hlh |- *.
    repeat split.
    + exact Hf.
    + exact (Hlh eq_refl).
    + right. split; reflexivity.
Qed.

Lemma fitting_text_keeps_its_size_witness :
  (forall n e,
     scrollWidth (fixedSizeHost 180 30) n e
     <= clientWidth (dom_element (textElement "Alexander" 36 200 50)))
  /\ exists r d',
       intelligentTextFit (fixedSizeHost 180 30)
         (Some (textElement "Alexander" 36 200 50)) (policy 0.3 12 true)
       = Some (r, d')
       /\ fit_fontSize r = fontSize (dom_element (textElement "Alexander" 36 200 50))
       /\ fontSize (dom_element d')
          = fontSize (dom_element (textElement "Alexander" 36 200 50))
       /\ lineHeight (dom_element d')
          = lineHeight (dom_element (textElement "Alexander" 36 200 50))
       /\ (fit_method r = word_wrap
           \/ (fit_method r = font_reduction /\ fit_attempts r = Some 0%nat)).
Proof.
  assert (H : forall n e,
             scrollWidth (fixedSizeHost 180 30) n e
             <= clientWidth (dom_element (textElement "Alexander" 36 200 50))).
  { intros n e. cbn. discriminate. }
  split; [exact H|].
  exact (fitting_text_keeps_its_size (fixedSizeHost 180 30) (policy 0.3 12 true)
           (textElement "Alexander" 36 200 50) H).
Defined.

(** ** The attribute-driven caller *)

Lemma classAdd_In (name c : string) (cl : list string) :
  In c (classAdd name cl) <-> In c cl \/ c = name.
Proof.
  unfold classAdd. destruct (existsb (String.eqb name) cl) eqn:E.
  - split; [intro H; now left|]. intros [H| ->]; [exact H|].
    apply existsb_exists in E. destruct E as [x [Hx Hxe]].
    apply String.eqb_eq in Hxe. subst x. exact Hx.
  - rewrite in_app_iff. cbn. split.
    + intros [H|[H|F]]; [now left | right; now symmetry | destruct F].
    + intros [H| ->]; [now left | right; now left].
Qed.

Lemma classRemove_In (names cl : list string) (c : string) :
  In c (classRemove names cl) <-> In c cl /\ ~ In c names.
Proof.
  unfold classRemove. rewrite filter_In. split; intros [H1 H2]; split;
    try exact H1.
  - intro Hin. apply negb_true_iff in H2.
    assert (E : existsb (String.eqb c) names = true).
    { apply existsb_exists. exists c. split; [exact Hin|apply String.eqb_refl]. }
    congruence.
  - apply negb_true_iff. destruct (existsb (String.eqb c) names) eqn:E;
      [|reflexivity].
    apply existsb_exists in E. destruct E as [x [Hx Hxe]].
    apply String.eqb_eq in Hxe. subst x. contradiction.
Qed.

(** X16. The classes [smartTextFit] leaves on the element: every class
    other than the three text-fit classes is kept, and of those three
    exactly the one of the mode is present (text-fit-shrink, text-fit-wrap or
    text-fit-ellipsis), none for the modes auto and none and for any other
    value. *)
Theorem text_fit_class_follows_mode (host : Host) (el : SmartElement)
    (options : FitOptions) :
  exists res el',
    smartTextFit host (Some el) options = Some (res, el')
    /\ se_attributes el' = se_attributes el
    /\ forall c,
         In c (se_classList el')
         <-> (In c (se_classList el) /\ ~ In c textFitClasses)
             \/ classOfMode (modeOf el) = Some c.
Proof.
  unfold smartTextFit, modeOf, classOfMode.
  set (mode := orElseString (data_text_fit (se_attributes el)) "auto").
  fold textFitClasses.
  destruct (String.eqb mode "shrink");
    [| destruct (String.eqb mode "wrap");
       [| destruct (String.eqb mode "ellipsis");
          [| destruct (String.eqb mode "none")]]];
    try match goal with
        | |- context [fitElement ?h ?o ?d] => destruct (fitElement h o d) as [r d']
        end;
    do 2 eexists; (split; [reflexivity|]); (split; [reflexivity|]);
    intro c; cbn [se_classList];
    rewrite ?classAdd_In, classRemove_In;
    split;
    try (intros [H|H]; [left; exact H | right; congruence]);
    try (intros [H|H]; [left; exact H | right; congruence]);
    try (intro H; left; exact H);
    try (intros [H|H]; [exact H | discriminate H]).
Qed.

(** The modes wrap, ellipsis and none are left to the style sheet:
    the element is not measured and nothing but its class list changes. *)
Theorem css_modes_do_not_measure (host : Host) (el : SmartElement)
    (options : FitOptions) :
  modeOf el = "wrap"%string \/ modeOf el = "ellipsis"%string
  \/ modeOf el = "none"%string ->
  exists res el',
    smartTextFit host (Some el) options = Some (res, el')
    /\ se_dom el' = se_dom el
    /\ res = (if String.eqb (modeOf el) "wrap" then CssWrap
              else if String.eqb (modeOf el) "ellipsis" then CssEllipsis
              else NoFitting).
Proof.
  unfold smartTextFit, modeOf.
  intros [H|[H|H]]; rewrite H; cbn; do 2 eexists; repeat split.
Qed.

Lemma css_modes_do_not_measure_witness :
  let el := {| se_dom := textElement "Alexander" 36 200 50;
               se_attributes :=
                 {| data_text_fit := Some "ellipsis"%string;
                    data_min_font_size := None;
                    data_max_reduction := None |};
               se_classList := ["title"; "text-fit-wrap"]%string |} in
  (modeOf el = "wrap"%string \/ modeOf el = "ellipsis"%string
   \/ modeOf el = "none"%string)
  /\ exists res el',
       smartTextFit proportionalHost (Some el) noFitOptions = Some (res, el')
       /\ se_dom el' = se_dom el
       /\ res = (if String.eqb (modeOf el) "wrap" then CssWrap
                 else if String.eqb (modeOf el) "ellipsis" then CssEllipsis
                 else NoFitting).
Proof.
  cbv zeta.
  match goal with
  | |- ?H /\ _ => assert (Hm : H) by (right; left; reflexivity)
  end.
  split; [exact Hm|].
  exact (css_modes_do_not_measure proportionalHost _ noFitOptions Hm).
Defined.

Lemma no_word_wrap_without_preference (host : Host) (options : FitOptions)
    (d : Dom) :
  preferWordWrap options = Some false ->
  let '(r, d') := fitElement host options d in
  fit_method r <> word_wrap
  /\ whiteSpace (dom_element d') = "nowrap"%string.
Proof.
  intro Hp. pose proof (fitElement_law host options d) as H. cbv zeta in H.
  rewrite fitElement_eq in H |- *. cbv zeta in H |- *.
  rewrite Hp in H |- *. cbn [default] in H |- *.
  unfold tryWordWrap in H |- *. cbn [andb ret] in H |- *.
  match goal with
  | |- context [reduceFont ?h ?a ?b ?c ?p ?q ?o ?l ?cw ?ch ?s] =>
      pose proof (reduceFont_law h a b c p q o l cw ch s) as HR;
      destruct (reduceFont h a b c p q o l cw ch s) as [r d']
  end.
  destruct H as (_ & _ & _ & _ & _ & Hws & _).
  assert (Hm : fit_method r <> word_wrap).
  { destruct HR as (att & _ & _ & _ & _ & _ & Hm & _); [|exact Hm].
    destruct (afterStore_frame d) as (A1 & _). exact A1. }
  split; [exact Hm|]. rewrite Hws.
  destruct (fit_method r); [contradiction | reflexivity | reflexivity].
Qed.

(** X17. The shrink mode never wraps: whatever the options passed by the
    caller say, the result is a fit whose method is not word-wrap, and the
    element is left with white-space nowrap. *)
Theorem shrink_mode_never_wraps (host : Host) (el : SmartElement)
    (options : FitOptions) :
  modeOf el = "shrink"%string ->
  exists r el',
    smartTextFit host (Some el) options = Some (Fitted r, el')
    /\ fit_method r <> word_wrap
    /\ whiteSpace (dom_element (se_dom el')) = "nowrap"%string.
Proof.
  unfold smartTextFit, modeOf. intros ->. cbn [String.eqb Ascii.eqb Bool.eqb].
  match goal with
  | |- context [fitElement ?h ?o ?d] =>
      pose proof (no_word_wrap_without_preference h o d eq_refl) as H;
      destruct (fitElement h o d) as [r d']
  end.
  do 2 eexists. split; [reflexivity|]. exact H.
Qed.

Lemma shrink_mode_never_wraps_witness :
  let el := {| se_dom := textElement "A B C" 20 100 60;
               se_attributes :=
                 {| data_text_fit := Some "shrink"%string;
                    data_min_font_size := None;
                    data_max_reduction := None |};
               se_classList := [] |} in
  modeOf el = "shrink"%string
  /\ exists r el',
       smartTextFit wrappingHost (Some el) (policy 0.3 12 true)
       = Some (Fitted r, el')
       /\ fit_method r <> word_wrap
       /\ whiteSpace (dom_element (se_dom el')) = "nowrap"%string.
Proof.
  cbv zeta.
  match goal with
  | |- ?H /\ _ => assert (Hm : H) by reflexivity
  end.
  split; [exact Hm|].
  exact (shrink_mode_never_wraps wrappingHost _ (policy 0.3 12 true) Hm).
Defined.

(** X18. A mode that is none of auto, shrink, wrap, ellipsis and none is
    fitted like shrink when the caller's options do not set
    [preferWordWrap]: the same result and the same element, only without
    the text-fit-shrink class. *)
Theorem unknown_mode_fits_like_shrink (host : Host) (el : SmartElement)
    (options : FitOptions) :
  ~ In (modeOf el) ["auto"; "shrink"; "wrap"; "ellipsis"; "none"]%string ->
  preferWordWrap options = None ->
  exists res el1 el2,
    smartTextFit host (Some el) options = Some (res, el1)
    /\ smartTextFit host (Some (withMode "shrink" el)) options
       = Some (res, el2)
    /\ se_dom el1 = se_dom el2
    /\ ~ In "text-fit-shrink"%string (se_classList el1).
Proof.
  intros Hmode Hopt. unfold smartTextFit, modeOf in *.
  set (mode := orElseString (data_text_fit (se_attributes el)) "auto") in *.
  assert (Hne : forall m, In m ["auto"; "shrink"; "wrap"; "ellipsis"; "none"]%string ->
                          String.eqb mode m = false).
  { intros m Hin. destruct (String.eqb_spec mode m) as [E|_]; [|reflexivity].
    subst m. contradiction. }
  rewrite !Hne by (cbn; tauto).
  cbn [withMode se_attributes data_text_fit orElseString se_dom
       data_min_font_size data_max_reduction se_classList
       String.eqb Ascii.eqb Bool.eqb orb].
  unfold spread, withPreferWordWrap. rewrite Hopt.
  cbn [maxReduction minFontSize preferWordWrap respectLineHeight step].
  destruct (fitElement host _ (se_dom el)) as [r d'].
  do 3 eexists. split; [reflexivity|]. split; [reflexivity|].
  split; [reflexivity|]. cbn [se_classList].
  rewrite classRemove_In. intros [_ H]. apply H. cbn. tauto.
Qed.

Lemma unknown_mode_fits_like_shrink_witness :
  let el := {| se_dom := textElement "A B C" 20 100 60;
               se_attributes :=
                 {| data_text_fit := Some "Shrink"%string;
                    data_min_font_size := None;
                    data_max_reduction := None |};
               se_classList := [] |} in
  ~ In (modeOf el) ["auto"; "shrink"; "wrap"; "ellipsis"; "none"]%string
  /\ preferWordWrap noFitOptions = None
  /\ exists res el1 el2,
       smartTextFit wrappingHost (Some el) noFitOptions = Some (res, el1)
       /\ smartTextFit wrappingHost (Some (withMode "shrink" el)) noFitOptions
          = Some (res, el2)
       /\ se_dom el1 = se_dom el2
       /\ ~ In "text-fit-shrink"%string (se_classList el1).
Proof.
  cbv zeta.
  match goal with
  | |- ?H /\ _ =>
      assert (Hm : H)
        by (cbn; intros [E|[E|[E|[E|[E|F]]]]];
            try discriminate E; destruct F)
  end.
  split; [exact Hm|]. split; [reflexivity|].
  exact (unknown_mode_fits_like_shrink wrappingHost _ noFitOptions Hm eq_refl).
Defined.

(** ** The responsive observer, continued *)

(** X19. The timer belongs to the latest signal.  On an observer whose
    listeners are attached, whether or not a timer is pending, a signal
    followed by a quiet time calls back exactly when the quiet time reaches
    [debounceMs], plus 100 ms if the signal was an orientation change; a
    timer that was pending before the signal is dropped. *)
Theorem latest_signal_sets_the_deadline (args : ObserverArgs) (o : Observer)
    (s : Signal) (quiet : nat) :
  attached o -> arg_callback args = true ->
  updates (run args o [signalEvent s; Elapse quiet])
  = if (debounceOf args + settleDelay s <=? quiet)%nat
    then option_map fst
           (applyResponsiveScaling (arg_host args) (signalWindow s)
              (container o) (arg_options args))
         :: updates o
    else updates o.
Proof.
  intros [Hr Ho] Hcb.
  destruct o as [t w0 c tm rl ol us]. cbn in Hr, Ho. subst rl ol.
  unfold debounceOf.
  destruct s as [w|w]; cbn [run fold_left handle signalEvent setWindow
      resizeListener orientationListener handleResize handleOrientationChange
      scheduleResize resizeTimeout now settleDelay signalWindow];
    match goal with
    | |- context [(?a <=? ?b)%nat] =>
        match goal with
        | |- context [if (?x <=? quiet)%nat then _ else _] =>
            replace (a <=? b)%nat with (x <=? quiet)%nat
              by (destruct (Nat.leb_spec x quiet), (Nat.leb_spec a b);
                  try reflexivity; lia)
        end
    end;
    match goal with
    | |- context [if (?x <=? quiet)%nat then _ else _] =>
        destruct (x <=? quiet)%nat
    end; cbn; rewrite ?Hcb; reflexivity.
Qed.

Lemma latest_signal_sets_the_deadline_witness :
  let o := createResponsiveObserver followingDisplay 0
             {| innerWidth := 800; innerHeight := 600 |} (Some emptyContainer) in
  let s := SigOrientation {| innerWidth := 600; innerHeight := 800 |} in
  attached o /\ arg_callback followingDisplay = true
  /\ updates (run followingDisplay o [signalEvent s; Elapse 249])
     = if (debounceOf followingDisplay + settleDelay s <=? 249)%nat
       then option_map fst
              (applyResponsiveScaling (arg_host followingDisplay)
                 (signalWindow s) (container o) (arg_options followingDisplay))
            :: updates o
       else updates o.
Proof.
  cbv zeta.
  match goal with
  | |- ?H /\ _ => assert (Ha : H) by (split; reflexivity)
  end.
  split; [exact Ha|]. split; [reflexivity|].
  exact (latest_signal_sets_the_deadline followingDisplay _
           (SigOrientation {| innerWidth := 600; innerHeight := 800 |}) 249
           Ha eq_refl).
Defined.

Lemma callsDue_step (args : ObserverArgs) (o : Observer) (e : Event) :
  (callsDue (handle args o e)
   <= callsDue o + (if isSignal e then 1 else 0))%nat.
Proof.
  unfold callsDue.
  destruct o as [t w0 c tm rl ol us].
  destruct e as [dt|w|w|]; cbn.
  - destruct tm as [dl|]; [|cbn; lia].
    destruct (dl <=? t + dt)%nat; cbn; [|lia].
    destruct (arg_callback args); cbn; lia.
  - destruct rl; cbn; destruct tm; lia.
  - destruct ol; cbn; destruct tm; lia.
  - destruct tm; lia.
Qed.

(** X20. The callback is never called more often than signals were
    received: after any sequence of events the number of calls is at most
    one, for the initial application, plus the number of resize and
    orientation events. *)
Theorem calls_bounded_by_signals (args : ObserverArgs) (t0 : nat)
    (w0 : Window) (c : option Container) (events : list Event) :
  (List.length
     (updates (run args (createResponsiveObserver args t0 w0 c) events))
   <= 1 + List.length (filter isSignal events))%nat.
Proof.
  assert (Hgen : forall evs o,
             (callsDue (run args o evs)
              <= callsDue o + List.length (filter isSignal evs))%nat).
  { induction evs as [|e evs IH]; intro o; [cbn; lia|].
    cbn [run fold_left]. specialize (IH (handle args o e)).
    unfold run in IH. pose proof (callsDue_step args o e) as Hs.
    cbn [filter]. destruct (isSignal e); cbn [List.length]; lia. }
  specialize (Hgen events (createResponsiveObserver args t0 w0 c)).
  unfold callsDue in Hgen at 1. cbn in Hgen. unfold callsDue in Hgen.
  cbn in Hgen. lia.
Qed.

(** X21. On the trailing edge the container itself is rescaled, with or
    without a callback: after a burst inside the debounce window and the
    quiet time, the container is the one [applyResponsiveScaling] leaves,
    computed once, from the state the container had at the start. *)
Theorem trailing_edge_rescales_container (args : ObserverArgs) (t0 : nat)
    (w0 : Window) (c : Container) (burst : list (nat * Signal)) (quiet : nat) :
  Forall (fun g => (fst g < debounceOf args)%nat) burst ->
  (debounceOf args + 100 <= quiet)%nat ->
  let o0 := createResponsiveObserver args t0 w0 (Some c) in
  container (run args o0 (burstEvents burst)) = Some c
  /\ exists r c',
       applyResponsiveScaling (arg_host args) (finalWindow w0 burst) (Some c)
         (arg_options args) = Some (r, c')
       /\ container (run args o0 (burstEvents burst ++ [Elapse quiet]))
          = Some c'
       /\ style_transform c' = Some (res_transform r)
       /\ (arg_callback args = false ->
           updates (run args o0 (burstEvents burst ++ [Elapse quiet])) = []).
Proof.
  intros Hburst Hquiet o0.
  destruct (burst_in_window args burst o0
              (created_armed args t0 w0 (Some c)) Hburst)
    as (Harmed & Hupd & Hcont & Hwin).
  change (updates o0) with (@nil (option ScalingResult)) in Hupd.
  change (container o0) with (Some c) in Hcont.
  change (window o0) with w0 in Hwin.
  set (o1 := run args o0 (burstEvents burst)) in *.
  split; [exact Hcont|].
  destruct (armed_then_quiet args o1 quiet Harmed) as [_ Hfire].
  specialize (Hfire Hquiet).
  do 2 eexists. split; [reflexivity|].
  rewrite run_app. fold o1. cbn [run fold_left]. rewrite Hfire.
  cbn [advance container updates timerFires]. rewrite Hcont, Hwin, Hupd.
  cbn [applyResponsiveScaling]. repeat split.
  intros ->. reflexivity.
Qed.

Lemma trailing_edge_rescales_container_witness :
  Forall (fun g => (fst g < debounceOf followingDisplay)%nat) rotationBurst
  /\ (debounceOf followingDisplay + 100 <= 250)%nat
  /\ let o0 := createResponsiveObserver followingDisplay 0
                 {| innerWidth := 800; innerHeight := 600 |}
                 (Some emptyContainer) in
     container (run followingDisplay o0 (burstEvents rotationBurst))
     = Some emptyContainer
     /\ exists r c',
          applyResponsiveScaling (arg_host followingDisplay)
            (finalWindow {| innerWidth := 800; innerHeight := 600 |} rotationBurst)
            (Some emptyContainer) (arg_options followingDisplay)
          = Some (r, c')
          /\ container (run followingDisplay o0
                          (burstEvents rotationBurst ++ [Elapse 250]))
             = Some c'
          /\ style_transform c' = Some (res_transform r)
          /\ (arg_callback followingDisplay = false ->
              updates (run followingDisplay o0
                         (burstEvents rotationBurst ++ [Elapse 250])) = []).
Proof.
  assert (Hb : Forall (fun g => (fst g < debounceOf followingDisplay)%nat)
                 rotationBurst).
  { repeat (constructor; [cbn; lia|]). constructor. }
  assert (Hq : (debounceOf followingDisplay + 100 <= 250)%nat) by (cbn; lia).
  split; [exact Hb|]. split; [exact Hq|].
  exact (trailing_edge_rescales_container followingDisplay 0
           {| innerWidth := 800; innerHeight := 600 |} emptyContainer
           rotationBurst 250 Hb Hq).
Defined.

(** ** Block placement *)

Lemma getCanvasZoom_positive (editor : Editor) : 0 < getCanvasZoom editor.
Proof.
  unfold getCanvasZoom. destruct (zoomReading editor) as [z|]; [|reflexivity].
  destruct (Qgtb_spec z 0) as [H|_]; [|reflexivity].
  products. lra.
Qed.

Lemma numberOr_zero (x : Q) : numberOr x 0 == x.
Proof.
  unfold numberOr. destruct (Qeq_bool x 0) eqn:E; [|reflexivity].
  apply Qeq_bool_eq in E. symmetry. exact E.
Qed.

Example precise_placement_at_half_zoom :
  let '(p, e) := calculateBlockPosition emptyEditor 1920 1080
                   (Some {| clientX := 500; clientY := 100 |}) in
  pos_x p == 350 /\ pos_y p == 95 /\ e = emptyEditor.
Proof. vm_compute. repeat split. Qed.

(** X22. Placement under the mouse: with an event, a canvas frame and a
    canvas document the position is max(0, (mouse + scroll)/zoom - half the
    default component size) on each axis, with a zoom that is positive
    whatever the canvas reports, so neither coordinate is negative; the
    stored drop coordinates are neither used nor cleared. *)
Theorem placement_under_mouse (editor : Editor) (w h : Q) (event : MouseEvent)
    (rect : Rect) (doc : CanvasDocument) :
  frameRect editor = Some rect -> canvasDocument editor = Some doc ->
  let '(p, editor') := calculateBlockPosition editor w h (Some event) in
  let zoom := getCanvasZoom editor in
  let scrollLeft :=
    if Qeq_bool (documentElement_scrollLeft doc) 0
    then body_scrollLeft doc else documentElement_scrollLeft doc in
  let scrollTop :=
    if Qeq_bool (documentElement_scrollTop doc) 0
    then body_scrollTop doc else documentElement_scrollTop doc in
  0 < zoom
  /\ 0 <= pos_x p /\ 0 <= pos_y p
  /\ pos_x p == Qmax 0 ((clientX event - rect_left rect + scrollLeft) / zoom - 50)
  /\ pos_y p == Qmax 0 ((clientY event - rect_top rect + scrollTop) / zoom - 25)
  /\ editor' = editor.
Proof.
  intros Hr Hd. unfold calculateBlockPosition. rewrite Hr, Hd. cbv zeta.
  split; [apply getCanvasZoom_positive|].
  split; [apply Q.le_max_l|]. split; [apply Q.le_max_l|].
  cbn [pos_x pos_y]. fold (numberOr (documentElement_scrollLeft doc) (body_scrollLeft doc)).
  fold (numberOr (documentElement_scrollTop doc) (body_scrollTop doc)).
  unfold DEFAULT_COMPONENT_WIDTH, DEFAULT_COMPONENT_HEIGHT.
  pose proof (getCanvasZoom_positive editor) as Hz.
  repeat split; apply Q.max_compat; try reflexivity;
    rewrite numberOr_zero; field; lra.
Qed.

Lemma placement_under_mouse_witness :
  frameRect emptyEditor = Some {| rect_left := 300; rect_top := 80 |}
  /\ canvasDocument emptyEditor
     = Some {| documentElement_scrollLeft := 0; body_scrollLeft := 0;
               documentElement_scrollTop := 40; body_scrollTop := 0 |}
  /\ let '(p, editor') :=
       calculateBlockPosition emptyEditor 1920 1080
         (Some {| clientX := 310; clientY := 100 |}) in
     0 <= pos_x p /\ 0 <= pos_y p /\ editor' = emptyEditor.
Proof.
  split; [reflexivity|]. split; [reflexivity|].
  pose proof (placement_under_mouse emptyEditor 1920 1080
                {| clientX := 310; clientY := 100 |} _ _ eq_refl eq_refl) as H.
  destruct (calculateBlockPosition emptyEditor 1920 1080
              (Some {| clientX := 310; clientY := 100 |})) as [p e'].
  cbv zeta in H. destruct H as (_ & Hx & Hy & _ & _ & He).
  repeat split; assumption.
Defined.

(** X23. Drop coordinates are used once.  After a drop, the next placement
    without an event returns the drop point, offset divided by the zoom,
    and clears it; the placement after that is the centre placement. *)
Theorem drop_coordinates_used_once (editor : Editor) (w h : Q)
    (offsetX offsetY : option Q) :
  let dropped := handleDrop editor offsetX offsetY in
  let '(p1, e1) := calculateBlockPosition dropped w h None in
  let '(p2, e2) := calculateBlockPosition e1 w h None in
  pos_x p1 = default offsetX 0 / getCanvasZoom editor
  /\ pos_y p1 = default offsetY 0 / getCanvasZoom editor
  /\ pos_zoom p1 = Some (getCanvasZoom editor)
  /\ lastDropCoordinates e1 = None
  /\ p2 = centerPlacement editor w h
  /\ e2 = e1.
Proof.
  destruct editor as [fr cd zr ld n]. cbn. repeat split.
Qed.

(** X24. The centre placement: with no event and nothing stored, the
    position is the centre of the target, floor(width/2) - 50 by
    floor(height/2) - 25, moved down and right by 20 for each existing
    component modulo 10, so by at most 180; the editor is not changed, and
    ten more components give the same position again. *)
Theorem centre_placement_cycles (editor : Editor) (w h : Q) :
  lastDropCoordinates editor = None ->
  let n := existingComponents editor in
  let '(p, editor') := calculateBlockPosition editor w h None in
  let offset := inject_Z (Z.of_nat (n mod 10)) * 20 in
  pos_x p == floorQ (w / 2) - 50 + offset
  /\ pos_y p == floorQ (h / 2) - 25 + offset
  /\ 0 <= offset <= 180
  /\ editor' = editor
  /\ (let p' := fst (calculateBlockPosition
                       (withComponents (n + 10) editor) w h None) in
      pos_x p' == pos_x p /\ pos_y p' == pos_y p).
Proof.
  intro Hld. cbv zeta. unfold calculateBlockPosition. rewrite Hld.
  cbn [withComponents lastDropCoordinates]. rewrite Hld. cbn [fst].
  unfold centerPlacement. cbn [existingComponents withComponents].
  set (n := existingComponents editor).
  assert (Hmod : ((n + 10) mod 10 = n mod 10)%nat).
  { replace (n + 10)%nat with (n + 1 * 10)%nat by lia.
    apply Nat.Div0.mod_add. }
  assert (Hrange : (n mod 10 < 10)%nat) by (apply Nat.mod_upper_bound; lia).
  assert (Hoff : 0 <= inject_Z (Z.of_nat (n mod 10)) * 20 <= 180).
  { assert (H0 : 0 <= inject_Z (Z.of_nat (n mod 10))).
    { change 0 with (inject_Z 0). rewrite <- Zle_Qle. lia. }
    assert (H9 : inject_Z (Z.of_nat (n mod 10)) <= 9).
    { change 9 with (inject_Z 9). rewrite <- Zle_Qle. lia. }
    lra. }
  unfold DEFAULT_COMPONENT_WIDTH, DEFAULT_COMPONENT_HEIGHT.
  generalize (floorQ (w / 2)) (floorQ (h / 2)). intros fw fh.
  assert (Hpos10 : (0 <? n + 10)%nat = true) by (apply Nat.ltb_lt; lia).
  rewrite Hpos10, Hmod.
  destruct (0 <? n)%nat eqn:Hn.
  - cbn [pos_x pos_y]. repeat split; try lra; try (products; lra).
  - apply Nat.ltb_ge in Hn. assert (Hn0 : (n = 0)%nat) by lia.
    rewrite Hn0 in *. cbn [Nat.modulo Nat.divmod fst snd Nat.sub Z.of_nat] in *.
    cbn [pos_x pos_y]. change (inject_Z 0) with 0 in *.
    repeat split; try lra; products; lra.
Qed.

Lemma centre_placement_cycles_witness :
  lastDropCoordinates (withComponents 13 emptyEditor) = None
  /\ let n := existingComponents (withComponents 13 emptyEditor) in
     let '(p, editor') :=
       calculateBlockPosition (withComponents 13 emptyEditor) 1920 1080 None in
     let offset := inject_Z (Z.of_nat (n mod 10)) * 20 in
     pos_x p == floorQ (1920 / 2) - 50 + offset
     /\ pos_y p == floorQ (1080 / 2) - 25 + offset
     /\ 0 <= offset <= 180
     /\ editor' = withComponents 13 emptyEditor
     /\ (let p' := fst (calculateBlockPosition
                          (withComponents (n + 10) (withComponents 13 emptyEditor))
                          1920 1080 None) in
         pos_x p' == pos_x p /\ pos_y p' == pos_y p).
Proof.
  split; [reflexivity|].
  exact (centre_placement_cycles (withComponents 13 emptyEditor) 1920 1080 eq_refl).
Defined.

(** ** Converting authored styles *)

Ltac scale_cases p :=
  unfold scaleForPixels; cbn [numLeb];
  destruct (Qleb_spec p 16); [|
  destruct (Qleb_spec p 20); [|
  destruct (Qleb_spec p 32); [|
  destruct (Qleb_spec p 48); [|
  destruct (Qleb_spec p 64)]]]].

(** X25. The step chosen for a pixel size is always a step of the
    typography scale, a larger size never gets a smaller step, and a size
    that is not a number gets the largest step, xxl. *)
Theorem scale_step_is_monotone (p q : Q) :
  p <= q ->
  In (scaleForPixels (Finite p)) (map fst TYPOGRAPHY_SCALE)
  /\ (stepRank (scaleForPixels (Finite p))
      <= stepRank (scaleForPixels (Finite q)))%nat
  /\ scaleForPixels NaN = "xxl"%string.
Proof.
  intro Hpq. split; [|split; [|reflexivity]].
  - scale_cases p; cbn; tauto.
  - scale_cases p; scale_cases q; cbn; try lia; lra.
Qed.

Lemma scale_step_is_monotone_witness :
  16 <= 17
  /\ In (scaleForPixels (Finite 16)) (map fst TYPOGRAPHY_SCALE)
  /\ (stepRank (scaleForPixels (Finite 16))
      <= stepRank (scaleForPixels (Finite 17)))%nat
  /\ scaleForPixels NaN = "xxl"%string.
Proof.
  assert (H : 16 <= 17) by discriminate.
  split; [exact H|]. exact (scale_step_is_monotone 16 17 H).
Defined.

(** X26. For an authored size from 12px to 80px the step chosen for it can
    render that size: the size lies between the floor and the ceiling of
    the step.  Below 12px and above 80px it does not. *)
Theorem chosen_step_holds_authored_size (p : Q) :
  12 <= p <= 80 ->
  exists config,
    lookup (scaleForPixels (Finite p)) TYPOGRAPHY_SCALE = Some config
    /\ ts_min config <= p <= ts_max config.
Proof.
  intros [Hlo Hhi].
  scale_cases p; eexists; (split; [reflexivity|]); cbn; split; lra.
Qed.

Lemma chosen_step_holds_authored_size_witness :
  12 <= 36 <= 80
  /\ exists config,
       lookup (scaleForPixels (Finite 36)) TYPOGRAPHY_SCALE = Some config
       /\ ts_min config <= 36 <= ts_max config.
Proof.
  assert (H : 12 <= 36 <= 80) by (split; discriminate).
  split; [exact H|]. exact (chosen_step_holds_authored_size 36 H).
Defined.

Example small_and_large_sizes_fall_outside :
  (exists config,
     lookup (scaleForPixels (Finite 10)) TYPOGRAPHY_SCALE = Some config
     /\ 10 < ts_min config)
  /\ (exists config,
        lookup (scaleForPixels (Finite 96)) TYPOGRAPHY_SCALE = Some config
        /\ ts_max config < 96).
Proof. split; eexists; (split; [reflexivity|]); reflexivity. Qed.

Lemma startsWith_append (p s : string) : startsWith p (p ++ s) = true.
Proof.
  induction p as [|a p IH]; cbn; [reflexivity|].
  rewrite Ascii.eqb_refl, IH. reflexivity.
Qed.

Lemma includesString_append_r (p s t : string) :
  includesString p t = true -> includesString p (s ++ t) = true.
Proof.
  intro H. induction s as [|a s IH]; cbn; [exact H|].
  rewrite IH. apply orb_true_r.
Qed.

Lemma startsWith_append_l (p s t : string) :
  startsWith p s = true -> startsWith p (s ++ t) = true.
Proof.
  revert s. induction p as [|a p IH]; intros s H; [destruct s; reflexivity|].
  destruct s as [|b s]; [discriminate|]. cbn in H |- *.
  apply andb_prop in H. destruct H as [Hab Hp]. rewrite Hab. cbn.
  exact (IH s Hp).
Qed.

Lemma includesString_append_l (p s t : string) :
  includesString p s = true -> includesString p (s ++ t) = true.
Proof.
  induction s as [|a s IH]; intro H.
  - cbn in H. rewrite orb_false_r in H. destruct p; [|discriminate].
    destruct t; reflexivity.
  - cbn in H |- *. apply orb_prop in H. destruct H as [H|H].
    + change (String a (s ++ t)) with (String a s ++ t)%string.
      rewrite (startsWith_append_l _ _ _ H). reflexivity.
    + rewrite (IH H). apply orb_true_r.
Qed.

Lemma setProperty_keys {A} (k : string) (v : A) (m : list (string * A)) :
  lookup k m <> None -> map fst (setProperty k v m) = map fst m.
Proof.
  induction m as [|[k0 v0] m IH]; cbn; intro H; [contradiction|].
  destruct (String.eqb k0 k); cbn; [reflexivity|].
  f_equal. exact (IH H).
Qed.

Lemma truthyValue_lookup (k : string) (m : list (string * string)) (v : string) :
  truthyValue k m = Some v -> lookup k m = Some v /\ v <> EmptyString.
Proof.
  unfold truthyValue. destruct (lookup k m) as [x|]; [|discriminate].
  destruct (String.eqb_spec x EmptyString) as [E|E]; [discriminate|].
  intro H. injection H as ->. split; [reflexivity | exact E].
Qed.

Section StyleConversionFacts.
Variable parseFloat : string -> Num.
Variable numberToString : Q -> string.

Local Abbreviation convert := (convertToResponsiveStyles parseFloat numberToString).

Lemma convert_law (styles : list (string * string)) :
  map fst (convert styles) = map fst styles
  /\ (forall k, k <> "font-size"%string ->
        lookup k (convert styles) = lookup k styles)
  /\ match truthyValue "font-size" styles with
     | Some v =>
         if isNaN (parseFloat v) then convert styles = styles
         else
           let scale := scaleForPixels (parseFloat v) in
           lookup "font-size" (convert styles)
           = Some ("var(--font-" ++ scale ++ ", "
                   ++ renderClamp numberToString (responsiveFontSize scale 1)
                   ++ ")")%string
     | None => convert styles = styles
     end.
Proof.
  unfold convertToResponsiveStyles.
  destruct (truthyValue "font-size" styles) as [v|] eqn:Ev.
  - destruct (truthyValue_lookup _ _ _ Ev) as [Hl _].
    destruct (isNaN (parseFloat v)); cbn [negb].
    + repeat split.
    + split; [apply setProperty_keys; congruence|]. split.
      * intros k Hk. rewrite lookup_setProperty.
        destruct (String.eqb_spec "font-size" k) as [E|_];
          [subst k; contradiction | reflexivity].
      * cbv zeta. rewrite lookup_setProperty. rewrite String.eqb_refl.
        reflexivity.
  - repeat split.
Qed.

(** X27. [convertToResponsiveStyles] touches nothing but the font size: the
    keys and their order are kept and every other property reads as
    before.  The style is returned unchanged when font-size is missing, is
    the empty string or does not parse as a number; otherwise font-size
    becomes var(--font-<step>, <the clamp of that step>). *)
Theorem convert_touches_font_size_only (styles : list (string * string)) :
  map fst (convert styles) = map fst styles
  /\ (forall k, k <> "font-size"%string ->
        lookup k (convert styles) = lookup k styles)
  /\ match truthyValue "font-size" styles with
     | Some v =>
         if isNaN (parseFloat v) then convert styles = styles
         else
           let scale := scaleForPixels (parseFloat v) in
           lookup "font-size" (convert styles)
           = Some ("var(--font-" ++ scale ++ ", "
                   ++ renderClamp numberToString (responsiveFontSize scale 1)
                   ++ ")")%string
     | None => convert styles = styles
     end.
Proof. exact (convert_law styles). Qed.

Lemma converted_value_mentions_px (scale : string) :
  includesString "px"
    ("var(--font-" ++ scale ++ ", "
     ++ renderClamp numberToString (responsiveFontSize scale 1) ++ ")")
  = true.
Proof.
  change ("var(--font-" ++ scale ++ ", "
          ++ renderClamp numberToString (responsiveFontSize scale 1) ++ ")")%string
    with ("var(--font-" ++ (scale ++ (", "
          ++ (renderClamp numberToString (responsiveFontSize scale 1) ++ ")"))))%string.
  do 3 apply includesString_append_r. apply includesString_append_l.
  unfold renderClamp.
  do 2 apply includesString_append_r. reflexivity.
Qed.

(** X28. Optimising after converting loses the size.  A text component
    whose font size parses as a number is given var(--font-<step>, clamp(..px,
    ..)) by [convertToResponsive]; that value still contains px but does not
    parse as a number, so [optimizeAllText] counts the component again and
    sets its font size to var(--font-xxl), whatever the authored size
    was. *)
Theorem optimise_after_convert_gives_xxl (c : Component) (v : string) :
  (forall s, parseFloat ("var(" ++ s) = NaN) ->
  isTextComponent c = true ->
  truthyValue "font-size" (comp_style c) = Some v ->
  isNaN (parseFloat v) = false ->
  exists c1 c2,
    convertToResponsive parseFloat numberToString (Some c) = (true, Some c1)
    /\ optimizeAllText parseFloat [c1] = (1%nat, [c2])
    /\ lookup "font-size" (comp_style c2) = Some "var(--font-xxl)"%string.
Proof.
  intros Hpf Htext Hv Hnum.
  destruct (convert_law (comp_style c)) as (_ & _ & Hfs).
  rewrite Hv, Hnum in Hfs. cbv zeta in Hfs.
  set (value := ("var(--font-" ++ scaleForPixels (parseFloat v) ++ ", "
                 ++ renderClamp numberToString
                      (responsiveFontSize (scaleForPixels (parseFloat v)) 1)
                 ++ ")")%string) in *.
  unfold convertToResponsive.
  assert (Htext1 : isTextComponent
                     (setStyle (convert (comp_style c)) c) = true)
    by exact Htext.
  rewrite Htext1.
  set (c1 := addAttributes responsiveTextAttributes
               (setStyle (convert (comp_style c)) c)).
  assert (Htext2 : isTextComponent c1 = true).
  { subst c1. unfold isTextComponent, truthyValue in *.
    cbn [addAttributes setStyle comp_attributes comp_type].
    rewrite (lookup_writeProperties responsiveTextAttributes);
      [| repeat constructor; cbn; intuition discriminate].
    exact Htext. }
  assert (Hvalue : truthyValue "font-size" (comp_style c1) = Some value).
  { subst c1. cbn [addAttributes setStyle comp_style]. unfold truthyValue.
    rewrite Hfs. subst value. reflexivity. }
  exists c1. eexists. split; [reflexivity|].
  unfold optimizeAllText, optimizeText. cbn [map].
  rewrite Htext2, Hvalue.
  assert (Hpx : includesString "px" value = true)
    by (subst value; apply converted_value_mentions_px).
  rewrite Hpx.
  assert (Hnan : parseFloat value = NaN) by (subst value; apply Hpf).
  rewrite Hnan. cbn [filter snd fst List.length map]. split; [reflexivity|].
  cbn [addAttributes setStyle comp_style]. rewrite lookup_setProperty.
  rewrite String.eqb_refl. reflexivity.
Qed.

Lemma optimizeText_settles (c : Component) :
  optimizeText parseFloat (fst (optimizeText parseFloat c))
  = (fst (optimizeText parseFloat c), false).
Proof.
  unfold optimizeText at 2 3.
  destruct (isTextComponent c) eqn:Ht; cbn [fst];
    [| unfold optimizeText; rewrite Ht; reflexivity].
  destruct (truthyValue "font-size" (comp_style c)) as [v|] eqn:Ev; cbn [fst];
    [| unfold optimizeText; rewrite Ht, Ev; reflexivity].
  destruct (includesString "px" v) eqn:Epx; cbn [fst];
    [| unfold optimizeText; rewrite Ht, Ev, Epx; reflexivity].
  destruct (truthyValue_lookup _ _ _ Ev) as [Hl _].
  unfold optimizeText.
  cbn [addAttributes setStyle comp_style comp_attributes comp_type].
  match goal with
  | |- (if ?b then _ else _) = _ => destruct b; [|reflexivity]
  end.
  unfold truthyValue. rewrite lookup_setProperty, String.eqb_refl.
  unfold scaleForPixels.
  destruct (numLeb _ 16); [reflexivity|].
  destruct (numLeb _ 20); [reflexivity|].
  destruct (numLeb _ 32); [reflexivity|].
  destruct (numLeb _ 48); [reflexivity|].
  destruct (numLeb _ 64); reflexivity.
Qed.

(** X29. [optimizeAllText] settles in one pass: whatever it did the first
    time, a second pass counts no component and leaves every component as
    it is. *)
Theorem optimise_settles (components : list Component) :
  let '(_, optimised) := optimizeAllText parseFloat components in
  optimizeAllText parseFloat optimised = (0%nat, optimised).
Proof.
  unfold optimizeAllText. cbv beta iota zeta.
  rewrite !map_map.
  rewrite (map_ext _ _ optimizeText_settles).
  f_equal.
  - induction components as [|c cs IH]; [reflexivity | exact IH].
  - apply map_ext. intro c. rewrite optimizeText_settles. reflexivity.
Qed.
End StyleConversionFacts.

Lemma optimise_after_convert_gives_xxl_witness :
  (forall s, parseWholeNumber ("var(" ++ s) = NaN)
  /\ isTextComponent (textComponent "24px") = true
  /\ truthyValue "font-size" (comp_style (textComponent "24px")) = Some "24px"%string
  /\ isNaN (parseWholeNumber "24px") = false
  /\ exists c1 c2,
       convertToResponsive parseWholeNumber printWholePart
         (Some (textComponent "24px")) = (true, Some c1)
       /\ optimizeAllText parseWholeNumber [c1] = (1%nat, [c2])
       /\ lookup "font-size" (comp_style c2) = Some "var(--font-xxl)"%string.
Proof.
  assert (H : forall s, parseWholeNumber ("var(" ++ s) = NaN)
    by (intro s; reflexivity).
  split; [exact H|]. split; [reflexivity|]. split; [reflexivity|].
  split; [reflexivity|].
  exact (optimise_after_convert_gives_xxl parseWholeNumber printWholePart
           (textComponent "24px") "24px" H eq_refl eq_refl eq_refl).
Defined.

Example convert_24px :
  lookup "font-size"
    (convertToResponsiveStyles parseWholeNumber printWholePart
       (comp_style (textComponent "24px")))
  = Some "var(--font-md, clamp(18px, 3vw, 36px))"%string.
Proof. reflexivity. Qed.

Example optimise_24px :
  optimizeAllText parseWholeNumber [textComponent "24px"]
  = (1%nat,
     [ {| comp_type := "text";
          comp_attributes := responsiveTextAttributes;
          comp_style := [("color", "white"); ("font-size", "var(--font-md)")]%string |} ]).
Proof. reflexivity. Qed.

(** ** The status report *)

Lemma countIf_le_length {A} (f : A -> bool) (l : list A) :
  (countIf f l <= List.length l)%nat.
Proof. unfold countIf. apply filter_length_le. Qed.

Lemma countIf_monotone {A} (f g : A -> bool) (l : list A) :
  (forall x, f x = true -> g x = true) ->
  (countIf f l <= countIf g l)%nat.
Proof.
  intro H. unfold countIf. induction l as [|x l IH]; [cbn; lia|].
  cbn. destruct (f x) eqn:Ef.
  - rewrite (H x Ef). cbn. lia.
  - destruct (g x); cbn; lia.
Qed.

Lemma fl_100 : fl 100 == 100.
Proof. vm_compute. reflexivity. Qed.

Lemma percentage_bounds (part whole : nat) :
  (part <= whole)%nat -> (0 <= percentage part whole <= 100)%Z.
Proof.
  intro Hle. unfold percentage. destruct (0 <? whole)%nat eqn:Hw; [|lia].
  apply Nat.ltb_lt in Hw. unfold roundQ.
  set (r := inject_Z (Z.of_nat part) / inject_Z (Z.of_nat whole)).
  assert (Hwq : 0 < inject_Z (Z.of_nat whole)).
  { change 0 with (inject_Z 0). rewrite <- Zlt_Qlt. lia. }
  assert (Hpq : 0 <= inject_Z (Z.of_nat part)).
  { change 0 with (inject_Z 0). rewrite <- Zle_Qle. lia. }
  assert (Hpw : inject_Z (Z.of_nat part) <= inject_Z (Z.of_nat whole)).
  { rewrite <- Zle_Qle. lia. }
  assert (Hratio : 0 <= r <= 1).
  { subst r. split.
    - apply Qle_shift_div_l; [exact Hwq | lra].
    - apply Qle_shift_div_r; [exact Hwq | lra]. }
  clearbody r. destruct Hratio as [R0 R1].
  pose proof (fl_nonneg r R0) as Q0.
  pose proof (fl_le r 1 R1) as Q1. rewrite fl_one in Q1.
  set (q := fl r) in *. clearbody q.
  assert (S0 : 0 <= q * 100) by lra.
  assert (S1 : q * 100 <= 100) by lra.
  pose proof (fl_nonneg _ S0) as V0.
  pose proof (fl_le _ _ S1) as V1. rewrite fl_100 in V1.
  set (v := fl (q * 100)) in *. clearbody v.
  split.
  - apply (Z.le_trans _ (Qfloor 0)); [discriminate|].
    apply Qfloor_resp_le. products. lra.
  - apply (Z.le_trans _ (Qfloor (100 + (1 # 2)))); [|discriminate].
    apply Qfloor_resp_le. products. lra.
Qed.

(** The rounding of the quotient is seen at 23 of 40: (23/40)*100 is the
    double 57.49999999999999, so the percentage is 57, where the exact
    value 57.5 would round to 58. *)
Example percentage_23_of_40 :
  percentage 23 40 = 57%Z /\ roundQ (23 / 40 * 100) = 58%Z.
Proof. vm_compute. split; reflexivity. Qed.

(** X30. The status report is consistent: the total is the number of
    components; responsive components and text components are each at most
    the total; responsive text components are at most the text components
    and at most the responsive components; both percentages lie between 0
    and 100, and are 0 for an editor without components. *)
Theorem status_report_is_consistent (components : list Component) :
  let s := getResponsiveStatus components in
  totalComponents s = List.length components
  /\ (responsiveComponents s <= totalComponents s)%nat
  /\ (textComponents s <= totalComponents s)%nat
  /\ (responsiveTextComponents s <= textComponents s)%nat
  /\ (responsiveTextComponents s <= responsiveComponents s)%nat
  /\ (0 <= responsivePercentage s <= 100)%Z
  /\ (0 <= textResponsivePercentage s <= 100)%Z
  /\ (components = [] ->
      responsivePercentage s = 0%Z /\ textResponsivePercentage s = 0%Z).
Proof.
  cbv zeta. unfold getResponsiveStatus.
  cbn [totalComponents responsiveComponents textComponents
       responsiveTextComponents responsivePercentage textResponsivePercentage].
  set (isResponsiveText := fun c : Component => _).
  assert (H1 : (countIf hasResponsiveStyles components
                <= List.length components)%nat) by apply countIf_le_length.
  assert (H2 : (countIf isTextComponent components
                <= List.length components)%nat) by apply countIf_le_length.
  assert (H3 : (countIf isResponsiveText components
                <= countIf isTextComponent components)%nat).
  { apply countIf_monotone. intros c Hc. subst isResponsiveText. cbn in Hc.
    apply andb_prop in Hc. tauto. }
  assert (H4 : (countIf isResponsiveText components
                <= countIf hasResponsiveStyles components)%nat).
  { apply countIf_monotone. intros c Hc. subst isResponsiveText. cbn in Hc.
    apply andb_prop in Hc. destruct Hc as [_ Hc].
    destruct (truthyValue "data-text-fit" (comp_attributes c));
      [exact Hc | discriminate]. }
  split; [reflexivity|]. split; [exact H1|]. split; [exact H2|].
  split; [exact H3|]. split; [exact H4|].
  split; [apply percentage_bounds; exact H1|].
  split; [apply percentage_bounds; exact H3|].
  intros ->. split; reflexivity.
Qed.

Example status_of_three_components :
  let s := getResponsiveStatus
             [ textComponent "var(--font-md)";
               addAttributes responsiveTextAttributes
                 (textComponent "var(--font-lg)");
               {| comp_type := "image"; comp_attributes := [];
                  comp_style := [("width", "200px")]%string |} ] in
  totalComponents s = 3%nat /\ responsiveComponents s = 2%nat
  /\ textComponents s = 2%nat /\ responsiveTextComponents s = 1%nat
  /\ responsivePercentage s = 67%Z /\ textResponsivePercentage s = 50%Z.
Proof. vm_compute. repeat split. Qed.
